(** * Orchestration core of my-bitburner: allocator, registry, topology diff, mailbox

    A shallow embedding of
    - [src/servers/home/core/resource-allocator.ts]  (Module [Allocator]),
    - [src/servers/home/core/module-registry.ts]     (Module [Registry]),
    - [src/servers/home/core/network-manager.ts]     (Module [Network]),
    - the port helpers of [ns-utils]                 (Module [Mailbox]),
    together with the properties the specification states about them.

    Conventions.  A JavaScript [number] is a double.  The modules named
    above model it by [Z]: every operation the embedded code performs on
    numbers ([+], [-], [Math.min], comparisons) is exact on integers up to
    2^53, so these modules are the code on integral amounts, and what they
    prove about sums and differences is stated for amounts added and
    subtracted exactly.  Module [Doubles] embeds the allocation path once
    more over binary64 values, where the rounding shows.  A JavaScript
    object used as a dictionary ([Record<string, T>]) is a [gmap string T]
    of its own properties, written through [assignNumber] where the key may
    be ["__proto__"]; a [Set] is a [gset]; arrays are lists, and an array of
    objects that is mutated through aliases is a list updated by index. *)

From Corelib Require PrimFloat FloatOps SpecFloat.
From stdpp Require Import base gmap strings list fin_maps sorting.

Open Scope string_scope.
Open Scope list_scope.
Open Scope Z_scope.

(** ** Property assignment on a plain object

    [obj[key] = value] for a [value] that is a number.  On an object built
    by the literal [{}] the statement creates or overwrites an own property,
    with one exception: under the key ["__proto__"] it reaches the accessor
    of [Object.prototype], whose setter ignores a value that is not an
    object, so that no own property is stored and [Object.entries] does not
    show the write. *)
Definition assignNumber {V : Type} (key : string) (value : V) (obj : gmap string V)
  : gmap string V :=
  if bool_decide (key = "__proto__") then obj else <[key := value]> obj.

(** ** Array.prototype.sort

    ECMAScript (2019 and later) requires [sort] to be stable; for a
    comparator that is a consistent ordering the result is therefore the
    unique stable arrangement, which insertion from the right computes:
    an element is placed in front of the first element it does not have to
    follow ([cmp x y <= 0]), so equal elements keep their input order. *)

Fixpoint js_insert {A : Type} (cmp : A → A → Z) (x : A) (l : list A) : list A :=
  match l with
  | [] => [x]
  | y :: l' => if cmp x y <=? 0 then x :: l else y :: js_insert cmp x l'
  end.

Definition js_sort {A : Type} (cmp : A → A → Z) (l : list A) : list A :=
  foldr (js_insert cmp) [] l.

(** Sum of a list of numbers ([reduce((s, x) => s + x, 0)]). *)
Fixpoint sumZ (l : list Z) : Z :=
  match l with
  | [] => 0
  | x :: l' => x + sumZ l'
  end.

(** Work a breadth-first scan still has to do beyond its queue: the
    neighbour lists of the hosts of [universe] not yet discovered. *)
Definition pending (scan : string → list string) (universe discovered : list string)
  : nat :=
  sum_list_with (λ h, if decide (h ∈ discovered) then 0%nat else length (scan h))
    universe.

(** The hosts a scan can reach from ["home"] along [scan]. *)
Inductive reachable (scan : string → list string) : string → Prop :=
  | reachable_home : reachable scan "home"
  | reachable_step h n : reachable scan h → n ∈ scan h → reachable scan n.

Module Allocator.

(** *** Types of [/modules/module-interface] *)

Record ServerResource := mkServer {
  hostname : string;
  totalRam : Z;
  usedRam : Z;
  availableRam : Z;
  isHome : bool;
  isPurchased : bool
}.

Record ResourceRequest := mkRequest {
  moduleName : string;
  priority : Z;
  minRam : Z;
  maxRam : Z;
  preferredServers : option (list string)
}.

Record ResourceAllocation := mkAllocation {
  allocModuleName : string;
  allocatedRam : Z;
  serverAllocations : gmap string Z
}.

(** [server.availableRam = v] on one object. *)
Definition setAvailableRam (v : Z) (s : ServerResource) : ServerResource :=
  mkServer (hostname s) (totalRam s) (usedRam s) v (isHome s) (isPurchased s).

(** *** [buildResourcePool] *)

(** The game as [ns] shows it to the allocator during one call. *)
Record NS := mkNS {
  scan : string → list string;
  hasRootAccess : string → bool;
  getServerMaxRam : string → Z;
  getServerUsedRam : string → Z;
  getPurchasedServers : list string
}.

Definition DEFAULT_RESERVE_HOME_RAM : Z := 32.

(** The [while (queue.length > 0)] loop of the scan; [visited] is the [Set],
    kept as the list of its elements; one unit of [fuel] pays for one
    iteration. *)
Fixpoint buildLoop (fuel : nat) (ns : NS) (reserveHomeRam : Z)
    (visited queue : list string) (pool : list ServerResource)
  : option (list ServerResource) :=
  match queue with
  | [] => Some pool
  | hostname :: rest =>
      match fuel with
      | O => None
      | S fuel' =>
          if bool_decide (hostname ∈ visited)
          then buildLoop fuel' ns reserveHomeRam visited rest pool
          else
            let visited' := visited ++ [hostname] in
            let queue' :=
              rest ++ filter (λ neighbor, neighbor ∉ visited') (scan ns hostname) in
            if negb (hasRootAccess ns hostname)
            then buildLoop fuel' ns reserveHomeRam visited' queue' pool
            else
              let totalRam := getServerMaxRam ns hostname in
              let usedRam := getServerUsedRam ns hostname in
              let isHome := bool_decide (hostname = "home") in
              let isPurchased := bool_decide (hostname ∈ getPurchasedServers ns) in
              let availableRam := totalRam - usedRam in
              let availableRam :=
                if isHome then Z.max 0 (availableRam - reserveHomeRam) else availableRam in
              let pool' :=
                if 0 <? totalRam
                then pool ++ [mkServer hostname totalRam usedRam availableRam isHome isPurchased]
                else pool in
              buildLoop fuel' ns reserveHomeRam visited' queue' pool'
      end
  end.

Definition buildResourcePool (fuel : nat) (ns : NS) (reserveHomeRam : Z)
  : option (list ServerResource) :=
  pool ← buildLoop fuel ns reserveHomeRam [] ["home"] [];
  Some (js_sort (λ a b, availableRam b - availableRam a) pool).

(** *** Comparators of [allocateToModule] *)

(** Default sorting: prefer non-home servers, then by available RAM. *)
Definition cmpDefault (a b : ServerResource) : Z :=
  if negb (eqb (isHome a) (isHome b))
  then (if isHome a then 1 else -1)
  else availableRam b - availableRam a.

(** Sorting with [preferredServers]: preferred first, then as the default. *)
Definition cmpPreferred (preferredSet : gset string) (a b : ServerResource) : Z :=
  let aPreferred := if bool_decide (hostname a ∈ preferredSet) then 1 else 0 in
  let bPreferred := if bool_decide (hostname b ∈ preferredSet) then 1 else 0 in
  if negb (aPreferred =? bPreferred) then bPreferred - aPreferred
  else cmpDefault a b.

(** The comparator a request selects: the preferred one only when
    [preferredServers] is present and non-empty. *)
Definition poolCmp (request : ResourceRequest) : ServerResource → ServerResource → Z :=
  match preferredServers request with
  | Some (p :: ps) => cmpPreferred (list_to_set (p :: ps))
  | _ => cmpDefault
  end.

(** [sortedPool = [...remainingPool]; sortedPool.sort(...)].  The copy is
    shallow: it holds the very objects of [remainingPool].  An object is
    named by its index in [remainingPool]; the sort reads the objects as
    they are when it runs. *)
Definition sortedPool (request : ResourceRequest) (remainingPool : list ServerResource)
  : list (nat * ServerResource) :=
  js_sort (λ a b, poolCmp request a.2 b.2) (imap pair remainingPool).

(** *** The distribution loop *)

Record LoopState := mkLoop {
  loopPool : list ServerResource;
  loopAllocations : gmap string Z;
  totalAllocated : Z
}.

(** [for (const server of sortedPool) { ... }], with its [break] and
    [continue]; [server] is read through its reference when visited. *)
Fixpoint distribute (targetRam : Z) (order : list nat) (st : LoopState) : LoopState :=
  match order with
  | [] => st
  | i :: rest =>
      if targetRam <=? totalAllocated st then st
      else
        match loopPool st !! i with
        | None => distribute targetRam rest st
        | Some server =>
            if availableRam server <=? 0 then distribute targetRam rest st
            else
              let needed := targetRam - totalAllocated st in
              let toAllocate := Z.min needed (availableRam server) in
              if 0 <? toAllocate then
                distribute targetRam rest
                  (mkLoop
                     (<[i := setAvailableRam (availableRam server - toAllocate) server]>
                        (loopPool st))
                     (assignNumber (hostname server) toAllocate (loopAllocations st))
                     (totalAllocated st + toAllocate))
              else distribute targetRam rest st
        end
  end.

(** *** Rollback *)

(** Index of the object [remainingPool.find(s => s.hostname === hostname)]. *)
Fixpoint findIndex (h : string) (pool : list ServerResource) : option nat :=
  match pool with
  | [] => None
  | s :: pool' => if bool_decide (hostname s = h) then Some 0%nat
                  else S <$> findIndex h pool'
  end.

Definition rollbackEntry (pool : list ServerResource) (e : string * Z)
  : list ServerResource :=
  match findIndex e.1 pool with
  | Some i => alter (λ s, setAvailableRam (availableRam s + e.2) s) i pool
  | None => pool
  end.

(** [for (const [hostname, allocated] of Object.entries(serverAllocations))]. *)
Definition rollbackEntries (pool : list ServerResource) (entries : list (string * Z))
  : list ServerResource :=
  foldl rollbackEntry pool entries.

Definition rollback (pool : list ServerResource) (allocs : gmap string Z)
  : list ServerResource :=
  rollbackEntries pool (map_to_list allocs).

(** *** [allocateToModule]

    Returns the allocation ([None] for [null]) and the pool as the call
    leaves it: [remainingPool] is mutated in place. *)
Definition allocateToModule (request : ResourceRequest) (remainingPool : list ServerResource)
  : option ResourceAllocation * list ServerResource :=
  let targetRam := maxRam request in
  let st := distribute targetRam (sortedPool request remainingPool).*1
              (mkLoop remainingPool ∅ 0) in
  if totalAllocated st <? minRam request
  then (None, rollback (loopPool st) (loopAllocations st))
  else (Some (mkAllocation (moduleName request) (totalAllocated st) (loopAllocations st)),
        loopPool st).

(** *** [allocateResources] *)

Definition optimizeAllocation (allocations : list ResourceAllocation)
  : list ResourceAllocation := allocations.

Definition cmpRequest (a b : ResourceRequest) : Z := priority b - priority a.

Definition sortedRequests (requests : list ResourceRequest) : list ResourceRequest :=
  js_sort cmpRequest requests.

(** The [for (const request of sortedRequests)] loop: the list of pushed
    allocations and the working pool after the last request. *)
Fixpoint processRequests (requests : list ResourceRequest) (remainingPool : list ServerResource)
  : list ResourceAllocation * list ServerResource :=
  match requests with
  | [] => ([], remainingPool)
  | request :: rest =>
      let '(allocation, pool1) := allocateToModule request remainingPool in
      let '(allocations, pool2) := processRequests rest pool1 in
      (match allocation with
       | Some a => a :: allocations
       | None => allocations
       end, pool2)
  end.

(** The call with its working pool made visible.  [pool.map(server =>
    ({ ...server }))] copies every object, so the working pool starts as the
    value of [pool] and the caller's array is never written. *)
Definition allocateResourcesRun (pool : list ServerResource) (requests : list ResourceRequest)
  : list ResourceAllocation * list ServerResource :=
  let remainingPool := pool in
  let '(allocations, final) := processRequests (sortedRequests requests) remainingPool in
  (optimizeAllocation allocations, final).

Definition allocateResources (pool : list ServerResource) (requests : list ResourceRequest)
  : list ResourceAllocation :=
  (allocateResourcesRun pool requests).1.

(** [performAllocation], without the statistics: the allocations and the
    pool they were computed from. *)
Definition performAllocation (fuel : nat) (ns : NS) (requests : list ResourceRequest)
    (reserveHomeRam : Z) : option (list ResourceAllocation * list ServerResource) :=
  pool ← buildResourcePool fuel ns reserveHomeRam;
  Some (allocateResources pool requests, pool).

(** *** Observations used in the statements *)

(** The state one taking iteration of the loop leaves behind. *)
Definition takeStep (targetRam : Z) (i : nat) (server : ServerResource) (st : LoopState)
  : LoopState :=
  let toAllocate := Z.min (targetRam - totalAllocated st) (availableRam server) in
  mkLoop (<[i := setAvailableRam (availableRam server - toAllocate) server]> (loopPool st))
         (assignNumber (hostname server) toAllocate (loopAllocations st))
         (totalAllocated st + toAllocate).

(** [serverAllocations[h]], read as [0] when the key is absent. *)
Definition entry (h : string) (allocs : gmap string Z) : Z := default 0 (allocs !! h).

(** RAM the loop can take from the records named [h]: a record that offers
    nothing ([availableRam <= 0]) is skipped, so it counts for [0]. *)
Definition usable (s : ServerResource) : Z := Z.max 0 (availableRam s).

Definition capacityOf (h : string) (pool : list ServerResource) : Z :=
  sumZ ((λ s, if bool_decide (hostname s = h) then usable s else 0) <$> pool).

Definition totalAvailable (pool : list ServerResource) : Z := sumZ (usable <$> pool).

(** Sum of the entries for [h] over a list of allocations. *)
Definition allocatedOn (h : string) (allocations : list ResourceAllocation) : Z :=
  sumZ ((λ a, entry h (serverAllocations a)) <$> allocations).

(** The entries granted to a request, [0] everywhere when it got [null]. *)
Definition granted (h : string) (allocation : option ResourceAllocation) : Z :=
  match allocation with
  | Some a => entry h (serverAllocations a)
  | None => 0
  end.

(** What the entries of a list of pairs add up to for the key [h]. *)
Definition entrySum (h : string) (entries : list (string * Z)) : Z :=
  sumZ ((λ e, if bool_decide (e.1 = h) then e.2 else 0) <$> entries).

(** A record after the loop took the entries [allocs] from it, and after
    [entries] were given back to it. *)
Definition afterTake (allocs : gmap string Z) (s : ServerResource) : ServerResource :=
  setAvailableRam (availableRam s - entry (hostname s) allocs) s.

Definition afterGiveBack (entries : list (string * Z)) (s : ServerResource) : ServerResource :=
  setAvailableRam (availableRam s + entrySum (hostname s) entries) s.

(** The default ordering in words: a home record is never in front of a
    non-home one, and records of the same kind come by descending
    [availableRam]. *)
Definition defaultOrder (a b : ServerResource) : Prop :=
  (isHome a = true → isHome b = true)
  ∧ (isHome a = isHome b → availableRam b <= availableRam a).

(** The ordering as the specification words it for a request with
    preferred servers: the preferred records first, and inside each of the
    two groups the records in the order the pool has them. *)
Definition preferredThenPoolOrder (preferred : list string) (pool : list ServerResource)
  : list ServerResource :=
  filter (λ s, hostname s ∈ preferred) pool ++ filter (λ s, hostname s ∉ preferred) pool.

(** *** Scenarios *)

Definition poolHomeN1 : list ServerResource :=
  [ mkServer "home" 100 0 100 true false; mkServer "n1" 50 0 50 false false ].

Definition requestM1 : ResourceRequest := mkRequest "m1" 10 40 120 None.

Definition poolN1 : list ServerResource := [ mkServer "n1" 10 0 10 false false ].

(** The same pool with the server named ["__proto__"]. *)
Definition poolProto : list ServerResource :=
  [ mkServer "__proto__" 10 0 10 false false ].


Definition requestFloor20 : ResourceRequest := mkRequest "m" 1 20 50 None.

Definition requestLow : ResourceRequest := mkRequest "low" 5 10 100 None.

Definition poolHomeN1P : list ServerResource :=
  [ mkServer "home" 100 0 100 true false;
    mkServer "n1" 50 0 50 false false;
    mkServer "p" 10 0 10 false true ].

Definition requestPreferP : ResourceRequest := mkRequest "m" 1 1 200 (Some ["p"]).

(** *** More of [resource-allocator.ts] *)

(** [allocations.reduce((total, allocation) => total + allocation.allocatedRam, 0)]. *)
Definition calculateTotalAllocated (allocations : list ResourceAllocation) : Z :=
  foldl (λ total allocation, total + allocatedRam allocation) 0 allocations.

(** The sum of the values of a [serverAllocations] object. *)
Definition mapSum (allocs : gmap string Z) : Z := sumZ (map_to_list allocs).*2.

(** What [allocateToModule] never writes: every field but [availableRam]. *)
Definition static (s : ServerResource) : string * Z * Z * bool * bool :=
  (hostname s, totalRam s, usedRam s, isHome s, isPurchased s).

(** The record [buildResourcePool] files for a host, and the test it
    applies before filing it. *)
Definition poolRecord (ns : NS) (reserveHomeRam : Z) (h : string) : ServerResource :=
  let isHome := bool_decide (h = "home") in
  mkServer h (getServerMaxRam ns h) (getServerUsedRam ns h)
    (if isHome
     then Z.max 0 (getServerMaxRam ns h - getServerUsedRam ns h - reserveHomeRam)
     else getServerMaxRam ns h - getServerUsedRam ns h)
    isHome (bool_decide (h ∈ getPurchasedServers ns)).

(** *** Scenarios *)

Definition poolTwins : list ServerResource :=
  [ mkServer "a" 5 0 5 false false; mkServer "a" 10 0 10 true false ].

Definition requestAll : ResourceRequest := mkRequest "m" 1 0 15 None.


Definition requestTie : ResourceRequest := mkRequest "tie" 10 10 20 None.

Definition nsLine : NS :=
  mkNS (λ h, if bool_decide (h = "home") then ["n1"; "n2"]
             else if bool_decide (h = "n1") then ["home"]
             else if bool_decide (h = "n2") then ["home"; "n3"]
             else if bool_decide (h = "n3") then ["n2"]
             else [])
       (λ h, negb (bool_decide (h = "n2")))
       (λ h, if bool_decide (h = "home") then 64
             else if bool_decide (h = "n1") then 16
             else if bool_decide (h = "n3") then 32
             else 0)
       (λ h, if bool_decide (h = "home") then 8 else 0)
       [].

End Allocator.

(** ** The allocation path over doubles

    The functions [allocateResources] and [allocateToModule] once more, with
    every [number] an IEEE 754 binary64 value and every [+], [-],
    comparison and [Math.min] the operation of that arithmetic.  The
    structure is that of Module [Allocator], line for line; only the
    numbers differ. *)
Module Doubles.
Import PrimFloat.

Record ServerResource := mkServer {
  hostname : string;
  totalRam : float;
  usedRam : float;
  availableRam : float;
  isHome : bool;
  isPurchased : bool
}.

Record ResourceRequest := mkRequest {
  moduleName : string;
  priority : float;
  minRam : float;
  maxRam : float;
  preferredServers : option (list string)
}.

Record ResourceAllocation := mkAllocation {
  allocModuleName : string;
  allocatedRam : float;
  serverAllocations : gmap string float
}.

Definition setAvailableRam (v : float) (s : ServerResource) : ServerResource :=
  mkServer (hostname s) (totalRam s) (usedRam s) v (isHome s) (isPurchased s).

(** [Math.min(a, b)]: [NaN] when an argument is [NaN], and [-0] below [+0]. *)
Definition mathMin (a b : float) : float :=
  if PrimFloat.is_nan a || PrimFloat.is_nan b then PrimFloat.nan
  else if PrimFloat.ltb a b then a
  else if PrimFloat.ltb b a then b
  else if PrimFloat.get_sign a then a else b.

(** What [sort] makes of the number a comparator returns: its sign, with
    [NaN] read as [0]. *)
Definition sortSign (v : float) : Z :=
  if PrimFloat.ltb v 0 then -1 else if PrimFloat.ltb 0 v then 1 else 0.

Definition cmpDefault (a b : ServerResource) : Z :=
  if negb (Bool.eqb (isHome a) (isHome b))
  then (if isHome a then 1 else -1)
  else sortSign (PrimFloat.sub (availableRam b) (availableRam a)).

Definition cmpPreferred (preferredSet : gset string) (a b : ServerResource) : Z :=
  let aPreferred := if bool_decide (hostname a ∈ preferredSet) then 1 else 0 in
  let bPreferred := if bool_decide (hostname b ∈ preferredSet) then 1 else 0 in
  if negb (aPreferred =? bPreferred) then bPreferred - aPreferred
  else cmpDefault a b.

Definition poolCmp (request : ResourceRequest) : ServerResource → ServerResource → Z :=
  match preferredServers request with
  | Some (p :: ps) => cmpPreferred (list_to_set (p :: ps))
  | _ => cmpDefault
  end.

Definition sortedPool (request : ResourceRequest) (remainingPool : list ServerResource)
  : list (nat * ServerResource) :=
  js_sort (λ a b, poolCmp request a.2 b.2) (imap pair remainingPool).

Record LoopState := mkLoop {
  loopPool : list ServerResource;
  loopAllocations : gmap string float;
  totalAllocated : float
}.

(** The loop of [allocateToModule]: [totalAllocated >= targetRam] breaks,
    [server.availableRam <= 0] continues, [toAllocate > 0] takes. *)
Fixpoint distribute (targetRam : float) (order : list nat) (st : LoopState) : LoopState :=
  match order with
  | [] => st
  | i :: rest =>
      if PrimFloat.leb targetRam (totalAllocated st) then st
      else
        match loopPool st !! i with
        | None => distribute targetRam rest st
        | Some server =>
            if PrimFloat.leb (availableRam server) 0 then distribute targetRam rest st
            else
              let needed := PrimFloat.sub targetRam (totalAllocated st) in
              let toAllocate := mathMin needed (availableRam server) in
              if PrimFloat.ltb 0 toAllocate then
                distribute targetRam rest
                  (mkLoop
                     (<[i := setAvailableRam
                               (PrimFloat.sub (availableRam server) toAllocate) server]>
                        (loopPool st))
                     (assignNumber (hostname server) toAllocate (loopAllocations st))
                     (PrimFloat.add (totalAllocated st) toAllocate))
              else distribute targetRam rest st
        end
  end.

Fixpoint findIndex (h : string) (pool : list ServerResource) : option nat :=
  match pool with
  | [] => None
  | s :: pool' => if bool_decide (hostname s = h) then Some 0%nat
                  else S <$> findIndex h pool'
  end.

Definition rollbackEntry (pool : list ServerResource) (e : string * float)
  : list ServerResource :=
  match findIndex e.1 pool with
  | Some i => alter (λ s, setAvailableRam (PrimFloat.add (availableRam s) e.2) s) i pool
  | None => pool
  end.

(** The entries have distinct keys, and [find] takes a key to the first
    server of that name, so no server is given back to twice and the order
    of [Object.entries] does not show in the result. *)
Definition rollback (pool : list ServerResource) (allocs : gmap string float)
  : list ServerResource :=
  foldl rollbackEntry pool (map_to_list allocs).

Definition allocateToModule (request : ResourceRequest) (remainingPool : list ServerResource)
  : option ResourceAllocation * list ServerResource :=
  let targetRam := maxRam request in
  let st := distribute targetRam (sortedPool request remainingPool).*1
              (mkLoop remainingPool ∅ 0%float) in
  if PrimFloat.ltb (totalAllocated st) (minRam request)
  then (None, rollback (loopPool st) (loopAllocations st))
  else (Some (mkAllocation (moduleName request) (totalAllocated st) (loopAllocations st)),
        loopPool st).

Definition optimizeAllocation (allocations : list ResourceAllocation)
  : list ResourceAllocation := allocations.

Definition cmpRequest (a b : ResourceRequest) : Z :=
  sortSign (PrimFloat.sub (priority b) (priority a)).

Definition sortedRequests (requests : list ResourceRequest) : list ResourceRequest :=
  js_sort cmpRequest requests.

Fixpoint processRequests (requests : list ResourceRequest) (remainingPool : list ServerResource)
  : list ResourceAllocation * list ServerResource :=
  match requests with
  | [] => ([], remainingPool)
  | request :: rest =>
      let '(allocation, pool1) := allocateToModule request remainingPool in
      let '(allocations, pool2) := processRequests rest pool1 in
      (match allocation with
       | Some a => a :: allocations
       | None => allocations
       end, pool2)
  end.

Definition allocateResourcesRun (pool : list ServerResource) (requests : list ResourceRequest)
  : list ResourceAllocation * list ServerResource :=
  let remainingPool := pool in
  let '(allocations, final) := processRequests (sortedRequests requests) remainingPool in
  (optimizeAllocation allocations, final).

Definition allocateResources (pool : list ServerResource) (requests : list ResourceRequest)
  : list ResourceAllocation :=
  (allocateResourcesRun pool requests).1.

(** *** Observations *)

(** The rational a finite double stands for, in units of [2^-1074], the
    spacing of the smallest doubles: an integer for every finite double. *)
Definition exact (x : float) : option Z :=
  match FloatOps.Prim2SF x with
  | SpecFloat.S754_zero _ => Some 0
  | SpecFloat.S754_finite s m e =>
      Some ((if s then -1 else 1) * Z.pos m * 2 ^ (e + 1074))
  | _ => None
  end.

(** The entries filed for [h] over a list of allocations. *)
Definition entriesOn (h : string) (allocations : list ResourceAllocation) : list float :=
  omap (λ a, serverAllocations a !! h) allocations.

(** Their sum as the engine would compute it, and as a rational. *)
Definition allocatedOn (h : string) (allocations : list ResourceAllocation) : float :=
  foldl PrimFloat.add 0%float (entriesOn h allocations).

Definition exactSum (amounts : list float) : option Z :=
  foldr (λ x acc, v ← exact x; total ← acc; Some (v + total)) (Some 0) amounts.

(** *** Scenario: a server with 8 GB of which 0.2 GB is in use *)

#[warnings="-inexact-float"]
Definition ram78 : float := 7.8.
#[warnings="-inexact-float"]
Definition ram24 : float := 2.4.
#[warnings="-inexact-float"]
Definition ram54 : float := 5.4.
#[warnings="-inexact-float"]
Definition ram02 : float := 0.2.

Definition poolN1 : list ServerResource :=
  [ mkServer "n1" 8 ram02 (PrimFloat.sub 8 ram02) false false ].

Definition requestFirst : ResourceRequest := mkRequest "first" 10 ram24 ram24 None.
Definition requestSecond : ResourceRequest := mkRequest "second" 5 1 1024 None.

(** What one call returns for the two requests. *)
Definition allocationsN1 : list ResourceAllocation :=
  allocateResources poolN1 [requestFirst; requestSecond].

End Doubles.

Module Registry.

(** *** Types of [module-registry.ts] *)

Inductive ModuleLifecycleState := stopped | starting | running | paused | error.

Record RamAllocation := mkRam {
  requested : Z;
  allocated : Z;
  actual : Z
}.

(** [config: any].  The registry reads one field of it, [minRamRequired]
    (absent when [None]); the rest of the object is carried as its text. *)
Record Config := mkConfig {
  minRamRequired : option Z;
  settings : string
}.

Record RegisteredModule := mkModule {
  name : string;
  scriptPath : string;
  config : Config;
  priority : Z;
  status : ModuleLifecycleState;
  pid : option Z;
  controlPort : Z;
  statusPort : Z;
  lastStatusUpdate : Z;
  ramAllocation : RamAllocation
}.

Record ModuleRegistry := mkRegistry {
  modules : gmap string RegisteredModule;
  lastUpdate : Z
}.

(** What the registry functions see of the world.  [registryFile] is the
    parsed content of [REGISTRY_FILE] ([None] when the file is absent, empty
    or not JSON, the cases in which [readState] hands back its default);
    [defaultModules] is the object [DEFAULT_REGISTRY.modules], which
    [loadRegistry] returns itself, not a copy, whenever the default is used;
    [writable] tells whether [ns.write] succeeds. *)
Record Env := mkEnv {
  registryFile : option ModuleRegistry;
  defaultModules : gmap string RegisteredModule;
  defaultLastUpdate : Z;
  writable : bool
}.

(** [x || d] on numbers: [0] is falsy. *)
Definition orElse (x d : Z) : Z := if x =? 0 then d else x.

Definition loadRegistry (env : Env) (now : Z) : ModuleRegistry :=
  match registryFile env with
  | Some registry => mkRegistry (modules registry) (orElse (lastUpdate registry) now)
  | None => mkRegistry (defaultModules env) (orElse (defaultLastUpdate env) now)
  end.

(** A write through [registry.modules] reaches [DEFAULT_REGISTRY.modules]
    when the loaded registry is the default one. *)
Definition mutateModules (env : Env) (modules' : gmap string RegisteredModule) : Env :=
  match registryFile env with
  | Some _ => env
  | None => mkEnv None modules' (defaultLastUpdate env) (writable env)
  end.

(** [saveRegistry] after the in-memory table became [modules']. *)
Definition saveRegistry (env : Env) (now : Z) (modules' : gmap string RegisteredModule)
  : bool * Env :=
  let env1 := mutateModules env modules' in
  if writable env1
  then (true, mkEnv (Some (mkRegistry modules' now)) (defaultModules env1)
                (defaultLastUpdate env1) (writable env1))
  else (false, env1).

(** [registerModule]; [config] is [None] for a [null] or [undefined]
    argument, on which [config.minRamRequired] throws into the [catch]. *)
Definition registerModule (env : Env) (now : Z) (name : string) (scriptPath : string)
    (config : option Config) (priority controlPort statusPort : Z) : bool * Env :=
  let registry := loadRegistry env now in
  match config with
  | None => (false, env)
  | Some config =>
      let module :=
        mkModule name scriptPath config priority stopped None controlPort statusPort now
          (mkRam (orElse (default 0 (minRamRequired config)) 0) 0 0) in
      saveRegistry env now (<[name := module]> (modules registry))
  end.

Definition unregisterModule (env : Env) (now : Z) (name : string) : bool * Env :=
  let registry := loadRegistry env now in
  match modules registry !! name with
  | None => (false, env)
  | Some _ => saveRegistry env now (delete name (modules registry))
  end.

Definition getModuleStatus (env : Env) (now : Z) (name : string) : option RegisteredModule :=
  modules (loadRegistry env now) !! name.

Definition isModuleRegistered (env : Env) (now : Z) (name : string) : bool :=
  bool_decide (is_Some (modules (loadRegistry env now) !! name)).

(** [Object.values(registry.modules)], in the enumeration order of the map. *)
Definition moduleValues (env : Env) (now : Z) : list RegisteredModule :=
  (map_to_list (modules (loadRegistry env now))).*2.

(** The partial updates: each guards on the record being present, writes
    its fields and [lastStatusUpdate] into the record, and saves. *)
Definition updateRecord (env : Env) (now : Z) (name : string)
    (f : RegisteredModule → RegisteredModule) : bool * Env :=
  let registry := loadRegistry env now in
  match modules registry !! name with
  | None => (false, env)
  | Some m => saveRegistry env now (<[name := f m]> (modules registry))
  end.

Definition updateModuleStatus (env : Env) (now : Z) (name : string)
    (status' : ModuleLifecycleState) : bool * Env :=
  updateRecord env now name (λ m,
    mkModule (Registry.name m) (scriptPath m) (config m) (priority m) status' (pid m)
      (controlPort m) (statusPort m) now (ramAllocation m)).

Definition updateModulePID (env : Env) (now : Z) (name : string) (pid' : option Z)
  : bool * Env :=
  updateRecord env now name (λ m,
    mkModule (Registry.name m) (scriptPath m) (config m) (priority m) (status m) pid'
      (controlPort m) (statusPort m) now (ramAllocation m)).

Definition updateModuleAllocation (env : Env) (now : Z) (name : string)
    (requested' allocated' actual' : option Z) : bool * Env :=
  updateRecord env now name (λ m,
    mkModule (Registry.name m) (scriptPath m) (config m) (priority m) (status m) (pid m)
      (controlPort m) (statusPort m) now
      (mkRam (default (requested (ramAllocation m)) requested')
             (default (allocated (ramAllocation m)) allocated')
             (default (actual (ramAllocation m)) actual'))).

Definition updateModulePorts (env : Env) (now : Z) (name : string)
    (controlPort' statusPort' : Z) : bool * Env :=
  updateRecord env now name (λ m,
    mkModule (Registry.name m) (scriptPath m) (config m) (priority m) (status m) (pid m)
      controlPort' statusPort' now (ramAllocation m)).

(** [clearRegistry] builds a fresh table; nothing is loaded, nothing aliased. *)
Definition clearRegistry (env : Env) (now : Z) : bool * Env :=
  if writable env
  then (true, mkEnv (Some (mkRegistry ∅ now)) (defaultModules env)
                (defaultLastUpdate env) (writable env))
  else (false, env).

(** The mutating operations of the public API, as one call each. *)
Inductive Op :=
  | OpRegister (name scriptPath : string) (config : option Config)
               (priority controlPort statusPort : Z)
  | OpUnregister (name : string)
  | OpUpdateStatus (name : string) (status' : ModuleLifecycleState)
  | OpUpdatePID (name : string) (pid' : option Z)
  | OpUpdateAllocation (name : string) (requested' allocated' actual' : option Z)
  | OpUpdatePorts (name : string) (controlPort' statusPort' : Z)
  | OpClear.

Definition call (env : Env) (now : Z) (op : Op) : bool * Env :=
  match op with
  | OpRegister n sp c p cp stp => registerModule env now n sp c p cp stp
  | OpUnregister n => unregisterModule env now n
  | OpUpdateStatus n s => updateModuleStatus env now n s
  | OpUpdatePID n p => updateModulePID env now n p
  | OpUpdateAllocation n r a c => updateModuleAllocation env now n r a c
  | OpUpdatePorts n cp stp => updateModulePorts env now n cp stp
  | OpClear => clearRegistry env now
  end.

(** A sequence of calls, each at its own clock reading. *)
Definition calls (env : Env) (ops : list (Z * Op)) : Env :=
  foldl (λ e op, (call e op.1 op.2).2) env ops.

(** The world before the registry was ever written: no file, and the
    default table as the source initialises it. *)
Definition freshEnv (loadTime : Z) (writable : bool) : Env :=
  mkEnv None ∅ loadTime writable.

(** Every record is filed under its own name. *)
Definition coherent (m : gmap string RegisteredModule) : Prop :=
  ∀ k r, m !! k = Some r → name r = k.

Definition EnvCoherent (env : Env) : Prop :=
  coherent (defaultModules env)
  ∧ ∀ registry, registryFile env = Some registry → coherent (modules registry).

(** The record [registerModule] builds. *)
Definition newRecord (now : Z) (name scriptPath : string) (config : Config)
    (priority controlPort statusPort : Z) : RegisteredModule :=
  mkModule name scriptPath config priority stopped None controlPort statusPort now
    (mkRam (orElse (default 0 (minRamRequired config)) 0) 0 0).

(** *** Scenario *)

Definition configA : Config := mkConfig (Some 8) "{mode: a}".
Definition configB : Config := mkConfig None "{mode: b}".

(** A module that was registered, started and given RAM. *)
Definition registeredAndRunning : Env :=
  calls (freshEnv 0 true)
    [ (1, OpRegister "xp" "/xp.ts" (Some configA) 90 1 2);
      (2, OpUpdateStatus "xp" running);
      (3, OpUpdatePID "xp" (Some 42));
      (4, OpUpdateAllocation "xp" None (Some 64) (Some 60)) ].


Definition recordRunning : RegisteredModule :=
  mkModule "xp" "/xp.ts" configA 90 running (Some 42) 1 2 4 (mkRam 8 64 60).

(** ... and is then registered again. *)
Definition envReplaced : Env :=
  (registerModule registeredAndRunning 5 "xp" "/xp.ts" (Some configB) 90 1 2).2.

(** Two registrations of one name on an empty registry. *)
Definition envRegistered : Env :=
  (registerModule (freshEnv 0 true) 1 "xp" "/xp.ts" (Some configA) 90 1 2).2.

Definition envReregistered : Env :=
  (registerModule envRegistered 2 "xp" "/xp2.ts" (Some configB) 80 3 4).2.

(** *** Names that a plain object answers for without holding them

    [registry.modules] is a plain object, so a read [registry.modules[name]]
    that finds no own property goes on to [Object.prototype], and the write
    [registry.modules["__proto__"] = module] replaces the prototype of the
    table instead of storing a record.  The functions above read and write
    the table as its own properties: [registerModule] is the code for
    every name but ["__proto__"], and the reads and guards are the code
    for every name that [Object.prototype] does not answer for, which
    leaves out the names it ships with and the fields that
    [registry.modules[name].field = v] writes onto it when an update
    function is called with the name ["__proto__"]. *)
Definition inheritedNames : list string :=
  [ "__proto__"; "constructor"; "hasOwnProperty"; "isPrototypeOf";
    "propertyIsEnumerable"; "toLocaleString"; "toString"; "valueOf";
    "__defineGetter__"; "__defineSetter__"; "__lookupGetter__"; "__lookupSetter__" ].

Definition fieldsWrittenByUpdates : list string :=
  [ "status"; "pid"; "controlPort"; "statusPort"; "lastStatusUpdate" ].

Definition plainName (n : string) : Prop :=
  n ∉ inheritedNames ++ fieldsWrittenByUpdates.

(** *** Queries of [module-registry.ts] *)

#[global] Instance ModuleLifecycleState_eq_dec : EqDecision ModuleLifecycleState.
Proof. solve_decision. Defined.

#[global] Instance RamAllocation_eq_dec : EqDecision RamAllocation.
Proof. solve_decision. Defined.

#[global] Instance Config_eq_dec : EqDecision Config.
Proof. solve_decision. Defined.

#[global] Instance RegisteredModule_eq_dec : EqDecision RegisteredModule.
Proof. solve_decision. Defined.

(** [Object.values(registry.modules)] lists the records in the order in
    which the engine enumerates own properties: the keys that are array
    indices in ascending order, then the other keys in the order of their
    creation.  A [gmap] does not keep that order, so the two queries whose
    result shows it take the enumeration as [values]; whatever the order,
    it is an arrangement of [moduleValues]. *)
Definition getModulesByPriority (values : list RegisteredModule) : list RegisteredModule :=
  js_sort (λ a b, priority b - priority a) values.

(** [modules.find((m) => m.pid === pid) || null]. *)
Definition getModuleByPID (values : list RegisteredModule) (pid' : Z)
  : option RegisteredModule :=
  head (filter (λ m, pid m = Some pid') values).

Definition getModulesByStatus (env : Env) (now : Z) (status' : ModuleLifecycleState)
  : list RegisteredModule :=
  filter (λ m, status m = status') (moduleValues env now).

Definition getRunningModules (env : Env) (now : Z) : list RegisteredModule :=
  filter (λ m, pid m ≠ None ∧ status m = running) (moduleValues env now).

Record RegistryStats := mkStats {
  total : Z;
  byStatus : ModuleLifecycleState → Z;
  totalRamRequested : Z;
  totalRamAllocated : Z;
  totalRamActual : Z
}.

(** One turn of [modules.forEach((module) => { ... })]. *)
Definition countModule (stats : RegistryStats) (m : RegisteredModule) : RegistryStats :=
  mkStats (total stats)
    (λ s, if decide (s = status m) then byStatus stats s + 1 else byStatus stats s)
    (totalRamRequested stats + requested (ramAllocation m))
    (totalRamAllocated stats + allocated (ramAllocation m))
    (totalRamActual stats + actual (ramAllocation m)).

Definition getRegistryStats (env : Env) (now : Z) : RegistryStats :=
  let modules := moduleValues env now in
  foldl countModule (mkStats (Z.of_nat (length modules)) (λ _, 0) 0 0 0) modules.

(** The four partial updates, as operations. *)
Definition isUpdate (op : Op) : bool :=
  match op with
  | OpUpdateStatus _ _ | OpUpdatePID _ _ | OpUpdateAllocation _ _ _ _
  | OpUpdatePorts _ _ _ => true
  | _ => false
  end.

(** The record an update operation leaves in place of [m]. *)
Definition updated (now : Z) (op : Op) (m : RegisteredModule) : RegisteredModule :=
  match op with
  | OpUpdateStatus _ status' =>
      mkModule (name m) (scriptPath m) (config m) (priority m) status' (pid m)
        (controlPort m) (statusPort m) now (ramAllocation m)
  | OpUpdatePID _ pid' =>
      mkModule (name m) (scriptPath m) (config m) (priority m) (status m) pid'
        (controlPort m) (statusPort m) now (ramAllocation m)
  | OpUpdateAllocation _ requested' allocated' actual' =>
      mkModule (name m) (scriptPath m) (config m) (priority m) (status m) (pid m)
        (controlPort m) (statusPort m) now
        (mkRam (default (requested (ramAllocation m)) requested')
               (default (allocated (ramAllocation m)) allocated')
               (default (actual (ramAllocation m)) actual'))
  | OpUpdatePorts _ controlPort' statusPort' =>
      mkModule (name m) (scriptPath m) (config m) (priority m) (status m) (pid m)
        controlPort' statusPort' now (ramAllocation m)
  | _ => m
  end.

(** The name an operation is about. *)
Definition target (op : Op) : option string :=
  match op with
  | OpRegister n _ _ _ _ _ | OpUnregister n | OpUpdateStatus n _ | OpUpdatePID n _
  | OpUpdateAllocation n _ _ _ | OpUpdatePorts n _ _ => Some n
  | OpClear => None
  end.

(** *** Scenario: three modules, two of one priority and one PID

    Registered in the order ["b"], ["a"], ["c"], which is the order in which
    [Object.values] lists them; ["b"] and ["a"] then get the same PID. *)
Definition envThree : Env :=
  calls (freshEnv 0 true)
    [ (1, OpRegister "b" "/b.ts" (Some configA) 5 1 2);
      (2, OpRegister "a" "/a.ts" (Some configA) 5 3 4);
      (3, OpRegister "c" "/c.ts" (Some configB) 9 5 6);
      (4, OpUpdatePID "b" (Some 7));
      (5, OpUpdatePID "a" (Some 7)) ].

Definition recordB : RegisteredModule :=
  mkModule "b" "/b.ts" configA 5 stopped (Some 7) 1 2 4 (mkRam 8 0 0).
Definition recordA : RegisteredModule :=
  mkModule "a" "/a.ts" configA 5 stopped (Some 7) 3 4 5 (mkRam 8 0 0).
Definition recordC : RegisteredModule :=
  mkModule "c" "/c.ts" configB 9 stopped None 5 6 3 (mkRam 0 0 0).

Definition valuesThree : list RegisteredModule := [recordB; recordA; recordC].

End Registry.

Module Network.

(** *** Types of [network-manager.ts] *)

Record NetworkState := mkState {
  allServers : list string;
  rootedServers : list string;
  hackableServers : list string;
  purchasedServers : list string;
  totalRamAvailable : Z;
  lastScan : Z
}.

Record NetworkChanges := mkChanges {
  newServers : list string;
  newlyRooted : list string;
  newlyPurchased : list string;
  leveledUp : bool;
  totalChanges : Z
}.

(** The fields of the game's [Server] object that the code reads. *)
Record Server := mkServer {
  purchasedByPlayer : bool;
  moneyMax : option Z;
  requiredHackingSkill : option Z
}.

(** The game as [ns] shows it during one synchronous call. *)
Record NS := mkNS {
  scan : string → list string;
  hasRootAccess : string → bool;
  getServer : string → Server;
  getHackingLevel : Z
}.

(** The [while (queue.length > 0)] loop of [scanEntireNetwork].  The [Set]
    is kept as the list of its elements in insertion order, which is what
    [Array.from] returns.  One unit of [fuel] pays for one iteration. *)
Fixpoint scanLoop (fuel : nat) (ns : NS) (discovered queue : list string)
  : option (list string) :=
  match queue with
  | [] => Some discovered
  | current :: rest =>
      match fuel with
      | O => None
      | S fuel' =>
          if bool_decide (current ∈ discovered)
          then scanLoop fuel' ns discovered rest
          else
            let discovered' := discovered ++ [current] in
            scanLoop fuel' ns discovered'
              (rest ++ filter (λ neighbor, neighbor ∉ discovered') (scan ns current))
      end
  end.

Definition scanEntireNetwork (fuel : nat) (ns : NS) : option (list string) :=
  scanLoop fuel ns [] ["home"].

Definition isHackable (ns : NS) (h : string) : bool :=
  let server := getServer ns h in
  match moneyMax server, requiredHackingSkill server with
  | Some m, Some skill => bool_decide (m ≠ 0) && (0 <? m) && (skill <=? getHackingLevel ns)
  | _, _ => false
  end.

Definition getHackableServers (fuel : nat) (ns : NS) : option (list string) :=
  all ← scanEntireNetwork fuel ns;
  Some (filter (λ h, isHackable ns h = true) all).

Definition getPurchasedServers (fuel : nat) (ns : NS) : option (list string) :=
  all ← scanEntireNetwork fuel ns;
  Some (filter (λ h, purchasedByPlayer (getServer ns h) = true) all).

(** [a.filter(h => !b.includes(h))]. *)
Definition notIn (b : list string) (a : list string) : list string :=
  filter (λ h, h ∉ b) a.

Definition detectNetworkChanges (fuel : nat) (ns : NS) (oldState : option NetworkState)
  : option NetworkChanges :=
  currentServers ← scanEntireNetwork fuel ns;
  let currentRooted := filter (λ h, hasRootAccess ns h = true) currentServers in
  currentPurchased ← getPurchasedServers fuel ns;
  match oldState with
  | None =>
      Some (mkChanges currentServers currentRooted currentPurchased false
              (Z.of_nat (length currentServers)))
  | Some oldState =>
      let newServers := notIn (allServers oldState) currentServers in
      let newlyRooted := notIn (rootedServers oldState) currentRooted in
      let newlyPurchased := notIn (purchasedServers oldState) currentPurchased in
      currentHackable ← getHackableServers fuel ns;
      let leveledUp :=
        bool_decide (length (hackableServers oldState) < length currentHackable)%nat in
      let totalChanges :=
        Z.of_nat (length newServers) + Z.of_nat (length newlyRooted)
        + Z.of_nat (length newlyPurchased) + (if leveledUp then 1 else 0) in
      Some (mkChanges newServers newlyRooted newlyPurchased leveledUp totalChanges)
  end.

(** *** [calculateNetworkCapabilities]

    [ns.getServerMaxRam] and [ns.getServerUsedRam] are passed beside [ns]. *)

Record NetworkCapabilities := mkCapabilities {
  capRamAvailable : Z;
  totalMaxRam : Z;
  totalUsedRam : Z;
  serverCount : nat;
  rootedCount : nat;
  hackableCount : Z
}.

(** One turn of [for (const hostname of rootedServers)] on the three
    running totals [totalMaxRam], [totalUsedRam] and [hackableCount]. *)
Definition countServer (ns : NS) (getServerMaxRam getServerUsedRam : string → Z)
    (totals : Z * Z * Z) (hostname : string) : Z * Z * Z :=
  let '(totalMaxRam, totalUsedRam, hackableCount) := totals in
  (totalMaxRam + getServerMaxRam hostname,
   totalUsedRam + getServerUsedRam hostname,
   if isHackable ns hostname then hackableCount + 1 else hackableCount).

Definition calculateNetworkCapabilities (fuel : nat) (ns : NS)
    (getServerMaxRam getServerUsedRam : string → Z) : option NetworkCapabilities :=
  allServers ← scanEntireNetwork fuel ns;
  let rootedServers := filter (λ h, hasRootAccess ns h = true) allServers in
  let '(totalMaxRam, totalUsedRam, hackableCount) :=
    foldl (countServer ns getServerMaxRam getServerUsedRam) (0, 0, 0) rootedServers in
  Some (mkCapabilities (totalMaxRam - totalUsedRam) totalMaxRam totalUsedRam
          (length allServers) (length rootedServers) hackableCount).

(** *** Scenario: home - B - C, with home and B rooted *)

Definition scanABC (h : string) : list string :=
  if bool_decide (h = "home") then ["B"]
  else if bool_decide (h = "B") then ["home"; "C"]
  else if bool_decide (h = "C") then ["B"]
  else [].

Definition nsABC : NS :=
  mkNS scanABC
       (λ h, bool_decide (h = "home") || bool_decide (h = "B"))
       (λ _, mkServer false None None)
       1.

Definition oldAB : NetworkState := mkState ["home"; "B"] ["home"] [] [] 0 0.

End Network.

Module Mailbox.

(** *** Ports

    The port handle that [ns.getPortHandle] returns belongs to the game,
    not to this repository; its methods [full], [empty], [clear], [write]
    and [read] are modelled below from the specification's "bounded FIFO of
    serialized messages".  The text [JSON.stringify({timestamp, data})] is
    kept as the pair it encodes. *)

Record MessageData (D : Type) := mkMessage {
  timestamp : Z;
  data : D
}.
Arguments mkMessage {D} _ _.
Arguments timestamp {D} _.
Arguments data {D} _.

Section ports.
Context {D : Type}.
(** Capacity of every port (a game setting). *)
Variable capacity : nat.
(** The port numbers [ns.getPortHandle] accepts; on the others it throws. *)
Variable validPort : Z → bool.

(** The ports of the game, by number. *)
Local Abbreviation Ports := (gmap Z (list (MessageData D))).

Definition portQueue (ports : Ports) (port : Z) : list (MessageData D) :=
  default [] (ports !! port).

(** Modelled from the spec: the port handle's [full()], true when the queue
    holds [capacity] messages. *)
Definition full (q : list (MessageData D)) : bool := bool_decide (length q = capacity).

(** Modelled from the spec: the port handle's [empty()]. *)
Definition empty (q : list (MessageData D)) : bool := bool_decide (length q = 0%nat).

(** Modelled from the spec: the port handle's [clear()]. *)
Definition clear (q : list (MessageData D)) : list (MessageData D) := [].

(** Modelled from the spec: the port handle's [write(value)]; the queue is
    bounded, so an entry written past the capacity pushes the oldest out. *)
Definition write (q : list (MessageData D)) (m : MessageData D) : list (MessageData D) :=
  let q' := q ++ [m] in
  if bool_decide (capacity < length q')%nat then tail q' else q'.

Definition sendMessage (ports : Ports) (now : Z) (port : Z) (message : D) : bool * Ports :=
  if validPort port then
    let q := portQueue ports port in
    let messageData := mkMessage now message in
    let q1 := if full q then clear q else q in
    (true, <[port := write q1 messageData]> ports)
  else (false, ports).

Definition receiveMessage (ports : Ports) (port : Z) : option D * Ports :=
  if validPort port then
    match portQueue ports port with
    | [] => (None, ports)
    | m :: q => (Some (data m), <[port := q]> ports)
    end
  else (None, ports).

Definition hasMessages (ports : Ports) (port : Z) : bool :=
  if validPort port then negb (empty (portQueue ports port)) else false.

End ports.

(** *** Collecting the waiting messages *)

Section collecting.
Context {D : Type}.
Variable capacity : nat.
Variable validPort : Z → bool.
(** [message !== null] in [collectStatusMessages]: [receiveMessage] hands
    back the [data] of the entry, and a message can itself be [null]. *)
Variable isNull : D → bool.

Definition sendControlMessage (ports : gmap Z (list (MessageData D))) (now : Z)
    (controlPort : Z) (message : D) : bool * gmap Z (list (MessageData D)) :=
  sendMessage capacity validPort ports now controlPort message.

(** The [while (hasMessages(ns, statusPort))] loop; one unit of [fuel] pays
    for one iteration. *)
Fixpoint collectLoop (fuel : nat) (ports : gmap Z (list (MessageData D)))
    (statusPort : Z) (messages : list D)
  : option (list D * gmap Z (list (MessageData D))) :=
  if hasMessages validPort ports statusPort then
    match fuel with
    | O => None
    | S fuel' =>
        let '(message, ports') := receiveMessage validPort ports statusPort in
        let messages' :=
          match message with
          | Some d => if isNull d then messages else messages ++ [d]
          | None => messages
          end in
        collectLoop fuel' ports' statusPort messages'
    end
  else Some (messages, ports).

Definition collectStatusMessages (fuel : nat) (ports : gmap Z (list (MessageData D)))
    (statusPort : Z) : option (list D * gmap Z (list (MessageData D))) :=
  collectLoop fuel ports statusPort [].

(** A series of [sendMessage] calls to one port, each at its own clock
    reading. *)
Definition sendAll (ports : gmap Z (list (MessageData D))) (port : Z)
    (messages : list (Z * D)) : gmap Z (list (MessageData D)) :=
  foldl (λ ps m, (sendMessage capacity validPort ps m.1 port m.2).2) ports messages.

End collecting.

(** *** Scenario: three sends to an empty port 1 of capacity 1 *)

Definition fromOne (port : Z) : bool := 1 <=? port.

Definition noMessages : gmap Z (list (MessageData string)) := ∅.

Definition sentFirst : gmap Z (list (MessageData string)) :=
  (sendMessage 1 fromOne noMessages 10 1 "first").2.

Definition sentSecond : gmap Z (list (MessageData string)) :=
  (sendMessage 1 fromOne sentFirst 20 1 "second").2.

Definition sentThird : gmap Z (list (MessageData string)) :=
  (sendMessage 1 fromOne sentSecond 30 1 "third").2.

(** *** Scenario: a [null] among the messages

    A message is [Some] text or [None] for [null]. *)

Definition isNone (d : option string) : bool :=
  match d with None => true | Some _ => false end.

Definition noMessagesYet : gmap Z (list (MessageData (option string))) := ∅.

Definition threeMessages : list (Z * option string) :=
  [(10, Some "a"); (20, None); (30, Some "c")].

End Mailbox.

Module Utils.

(** *** Network utilities of [ns-utils]

    The functions read the game through [ns.scan] and [ns.hasRootAccess],
    which are passed as they are. *)

(** The [while (scanQueue.length > 0)] loop of [scanNetwork].  [scanQueue]
    is used as a stack: [pop] takes its last element and [push(...connected)]
    puts the neighbours behind it, so the list below is the array read from
    its end.  [servers] is the [Set], kept as the list of its elements in
    insertion order.  One unit of [fuel] pays for one iteration. *)
Fixpoint scanNetworkLoop (fuel : nat) (scan : string → list string)
    (servers scanQueue : list string) : option (list string) :=
  match scanQueue with
  | [] => Some servers
  | current :: rest =>
      match fuel with
      | O => None
      | S fuel' =>
          if bool_decide (current ∈ servers)
          then scanNetworkLoop fuel' scan servers rest
          else scanNetworkLoop fuel' scan (servers ++ [current])
                 (reverse (scan current) ++ rest)
      end
  end.

Definition scanNetwork (fuel : nat) (scan : string → list string) : option (list string) :=
  scanNetworkLoop fuel scan [] ["home"].

Definition getRootedServers (fuel : nat) (scan : string → list string)
    (hasRootAccess : string → bool) : option (list string) :=
  allServers ← scanNetwork fuel scan;
  Some (filter (λ hostname, hasRootAccess hostname = true) allServers).

(** [getTotalAvailableRam]: [totalRam += maxRam - usedRam] over the rooted
    servers. *)
Definition getTotalAvailableRam (fuel : nat) (scan : string → list string)
    (hasRootAccess : string → bool) (getServerMaxRam getServerUsedRam : string → Z)
  : option Z :=
  rootedServers ← getRootedServers fuel scan hasRootAccess;
  Some (foldl (λ totalRam hostname,
                 totalRam + (getServerMaxRam hostname - getServerUsedRam hostname))
          0 rootedServers).

(** *** Log files of [ns-utils]

    A log file is the array it holds; a file that is absent, empty or not
    JSON reads as the default [[]].  The files are kept by name. *)

(** [existingLogs.push(entry)] and the [splice] that keeps the last
    [maxEntries] entries. *)
Definition appendEntry {E : Type} (existingLogs : list E) (entry : E) (maxEntries : Z)
  : list E :=
  let existingLogs := existingLogs ++ [entry] in
  if maxEntries <? Z.of_nat (length existingLogs)
  then drop (Z.to_nat (Z.of_nat (length existingLogs) - maxEntries)) existingLogs
  else existingLogs.

(** [writable] tells whether [ns.write] succeeds; [writeState] catches the
    failure and [appendToLogFile] ignores its result. *)
Definition appendToLogFile {E : Type} (files : gmap string (list E)) (writable : bool)
    (logFile : string) (entry : E) (maxEntries : Z) : gmap string (list E) :=
  let existingLogs := appendEntry (default [] (files !! logFile)) entry maxEntries in
  if writable then <[logFile := existingLogs]> files else files.

(** [logs.slice(start)]: a negative [start] counts from the end. *)
Definition sliceFrom {E : Type} (logs : list E) (start : Z) : list E :=
  let len := Z.of_nat (length logs) in
  let k := if start <? 0 then Z.max (len + start) 0 else Z.min start len in
  drop (Z.to_nat k) logs.

(** [readComponentLogs], given the name of the component's log file. *)
Definition readComponentLogs {E : Type} (files : gmap string (list E))
    (componentLogFile : string) (maxEntries : Z) : list E :=
  sliceFrom (default [] (files !! componentLogFile)) (- maxEntries).

(** *** Scenario: a triangle home - a - b - home *)

Definition scanTriangle (h : string) : list string :=
  if bool_decide (h = "home") then ["a"; "b"]
  else if bool_decide (h = "a") then ["home"; "b"]
  else if bool_decide (h = "b") then ["home"; "a"]
  else [].

End Utils.

Module Daemon.
Import Registry.

(** *** [registerBuiltInModules] of [daemon.ts] *)

(** An entry of [BUILTIN_MODULES]. *)
Record BuiltinModule := mkBuiltin {
  builtinName : string;
  builtinScriptPath : string;
  builtinPriority : Z;
  builtinControlPort : Z;
  builtinStatusPort : Z;
  builtinConfig : Config
}.

(** One turn of [for (const module of BUILTIN_MODULES)], at clock reading
    [now]: the module is registered unless it already is, and its ports are
    then updated in either case.  The log lines are left out. *)
Definition registerBuiltIn (env : Env) (now : Z) (module : BuiltinModule) : Env :=
  let env1 :=
    if negb (isModuleRegistered env now (builtinName module))
    then (registerModule env now (builtinName module) (builtinScriptPath module)
            (Some (builtinConfig module)) (builtinPriority module)
            (builtinControlPort module) (builtinStatusPort module)).2
    else env in
  (updateModulePorts env1 now (builtinName module) (builtinControlPort module)
     (builtinStatusPort module)).2.

Definition registerBuiltInModules (env : Env) (builtins : list (Z * BuiltinModule)) : Env :=
  foldl (λ e m, registerBuiltIn e m.1 m.2) env builtins.

(** The record a built-in module has after its turn: a new record if it was
    not registered, its old record with the built-in ports otherwise. *)
Definition builtInRecord (now : Z) (module : BuiltinModule) (old : option RegisteredModule)
  : RegisteredModule :=
  match old with
  | Some m =>
      mkModule (name m) (scriptPath m) (config m) (priority m) (status m) (pid m)
        (builtinControlPort module) (builtinStatusPort module) now (ramAllocation m)
  | None =>
      newRecord now (builtinName module) (builtinScriptPath module) (builtinConfig module)
        (builtinPriority module) (builtinControlPort module) (builtinStatusPort module)
  end.

(** *** Scenario: the built-in module of the daemon *)

Definition xpFarmer : BuiltinModule :=
  mkBuiltin "xp-farmer" "/modules/xp-farmer.ts" 80 10 30 (mkConfig (Some 4) "{...}").

(** A built-in entry for the name ["xp"] that [registeredAndRunning] holds,
    with another script, priority, configuration and ports. *)
Definition xpRevised : BuiltinModule :=
  mkBuiltin "xp" "/xp-v2.ts" 50 10 30 configB.

End Daemon.

(** * Properties *)

(** ** Stable sorting *)

Section js_sort_facts.
Context {A : Type} (cmp : A → A → Z).

Lemma js_insert_perm x l : js_insert cmp x l ≡ₚ x :: l.
Proof.
  induction l as [|y l IH]; simpl; [done|].
  destruct (cmp x y <=? 0); [done|].
  rewrite IH. apply Permutation_swap.
Qed.

Lemma js_sort_perm l : js_sort cmp l ≡ₚ l.
Proof.
  induction l as [|x l IH]; simpl; [done|].
  rewrite js_insert_perm. by rewrite IH.
Qed.

Lemma js_sort_elem_of x l : x ∈ js_sort cmp l ↔ x ∈ l.
Proof. by rewrite js_sort_perm. Qed.

(** Inserting only looks at the comparisons against the inserted element. *)
Lemma js_insert_ext (cmp' : A → A → Z) x l :
  (∀ y, y ∈ l → (cmp x y <=? 0) = (cmp' x y <=? 0)) →
  js_insert cmp x l = js_insert cmp' x l.
Proof.
  induction l as [|y l IH]; intros Hext; simpl; [done|].
  rewrite (Hext y) by constructor.
  destruct (cmp' x y <=? 0); [done|].
  f_equal. apply IH. intros z Hz. apply Hext. by constructor.
Qed.

(** A comparator that is a total preorder yields a sorted array. *)
Hypothesis cmp_total : ∀ x y, 0 < cmp x y → cmp y x <= 0.
Hypothesis cmp_trans : ∀ x y z, cmp x y <= 0 → cmp y z <= 0 → cmp x z <= 0.

Lemma js_insert_sorted x l :
  StronglySorted (λ x y, cmp x y <= 0) l →
  StronglySorted (λ x y, cmp x y <= 0) (js_insert cmp x l).
Proof.
  induction 1 as [|y l Hl IH Hy]; simpl.
  - repeat constructor.
  - destruct (Z.leb_spec (cmp x y) 0) as [Hxy|Hxy].
    + constructor; [by constructor|].
      constructor; [done|].
      eapply Forall_impl; [exact Hy|]. intros z Hz. by eapply cmp_trans.
    + constructor; [done|].
      rewrite js_insert_perm. constructor; [|done].
      by apply cmp_total.
Qed.

Lemma js_sort_sorted l : StronglySorted (λ x y, cmp x y <= 0) (js_sort cmp l).
Proof.
  induction l as [|x l IH]; simpl; [constructor|].
  by apply js_insert_sorted.
Qed.
End js_sort_facts.

(** Stability at work: an array already in order, ties included, is left
    as it is. *)
Lemma js_sort_sorted_id {A : Type} (cmp : A → A → Z) l :
  StronglySorted (λ x y, cmp x y <= 0) l → js_sort cmp l = l.
Proof.
  induction 1 as [|x l _ IH Hx]; [done|].
  change (js_sort cmp (x :: l)) with (js_insert cmp x (js_sort cmp l)).
  rewrite IH. destruct Hx as [|y l Hy _]; simpl; [done|].
  by destruct (Z.leb_spec (cmp x y) 0); [|lia].
Qed.

(** Sorting objects by a key of the object commutes with projecting them. *)
Lemma js_insert_fmap {A B : Type} (f : A → B) (cmp : B → B → Z) x l :
  f <$> js_insert (λ a b, cmp (f a) (f b)) x l = js_insert cmp (f x) (f <$> l).
Proof.
  induction l as [|y l IH]; csimpl; [done|].
  destruct (cmp (f x) (f y) <=? 0); csimpl; [done|]. by rewrite IH.
Qed.

Lemma js_sort_fmap {A B : Type} (f : A → B) (cmp : B → B → Z) l :
  f <$> js_sort (λ a b, cmp (f a) (f b)) l = js_sort cmp (f <$> l).
Proof.
  induction l as [|x l IH]; csimpl; [done|].
  by rewrite js_insert_fmap, IH.
Qed.

(** ** Work left to a breadth-first scan *)

Section pending_facts.
Context (scan : string → list string).

Lemma pending_mono universe discovered current :
  (pending scan universe (discovered ++ [current]) ≤ pending scan universe discovered)%nat.
Proof.
  unfold pending. induction universe as [|h universe IH]; simpl; [done|].
  destruct (decide (h ∈ discovered ++ [current])) as [_|Hd'].
  - lia.
  - destruct (decide (h ∈ discovered)) as [Hd|_]; [|lia].
    exfalso. apply Hd', elem_of_app. by left.
Qed.

(** Discovering a host pays for its neighbour list. *)
Lemma pending_discover universe discovered current :
  current ∈ universe → current ∉ discovered →
  (pending scan universe (discovered ++ [current]) + length (scan current)
   ≤ pending scan universe discovered)%nat.
Proof.
  intros Hin Hnew. induction universe as [|h universe IH]; [by apply elem_of_nil in Hin|].
  pose proof (pending_mono universe discovered current) as Hmono.
  unfold pending in *. simpl.
  destruct (decide (h ∈ discovered ++ [current])) as [Hd'|Hd'];
    destruct (decide (h ∈ discovered)) as [Hd|Hd].
  - apply elem_of_cons in Hin as [->|Hin]; [done|]. specialize (IH Hin). lia.
  - apply elem_of_app in Hd' as [?|Hc%list_elem_of_singleton]; [done|]. subst h. lia.
  - exfalso. apply Hd', elem_of_app. by left.
  - apply elem_of_cons in Hin as [->|Hin].
    + exfalso. apply Hd', elem_of_app. right. by constructor.
    + specialize (IH Hin). lia.
Qed.

Lemma pending_nil universe :
  pending scan universe [] = sum_list_with (λ h, length (scan h)) universe.
Proof.
  unfold pending. induction universe as [|h universe IH]; simpl; [done|].
  destruct (decide (h ∈ [])) as [Hh|_]; [by apply elem_of_nil in Hh|].
  by rewrite <- IH.
Qed.

End pending_facts.

(** ** Sums *)

Lemma sumZ_cons x l : sumZ (x :: l) = x + sumZ l.
Proof. reflexivity. Qed.

Lemma sumZ_app l1 l2 : sumZ (l1 ++ l2) = sumZ l1 + sumZ l2.
Proof. induction l1 as [|x l1 IH]; simpl; lia. Qed.

Lemma sumZ_perm l1 l2 : l1 ≡ₚ l2 → sumZ l1 = sumZ l2.
Proof. induction 1; simpl; lia. Qed.

Lemma sumZ_nonneg l : Forall (λ x, 0 <= x) l → 0 <= sumZ l.
Proof. induction 1; simpl; lia. Qed.

Lemma sumZ_fmap_insert {A : Type} (f : A → Z) (l : list A) i x y :
  l !! i = Some x →
  sumZ (f <$> <[i:=y]> l) = sumZ (f <$> l) - f x + f y.
Proof.
  revert i. induction l as [|z l IH]; intros [|i] Hi; simpl in Hi; simplify_eq; csimpl.
  - lia.
  - rewrite (IH i Hi). lia.
Qed.


(** ** The distribution loop *)

Import Allocator.

Lemma setAvailableRam_id s : setAvailableRam (availableRam s) s = s.
Proof. by destruct s. Qed.

(** Case analysis of the loop, one case per path through its body. *)
Lemma distribute_cases (targetRam : Z) (P : list nat → LoopState → LoopState → Prop) :
  (∀ st, P [] st st) →
  (∀ i rest st, targetRam <= totalAllocated st → P (i :: rest) st st) →
  (∀ i rest st st',
      totalAllocated st < targetRam →
      (∀ server, loopPool st !! i = Some server → availableRam server <= 0) →
      P rest st st' → P (i :: rest) st st') →
  (∀ i rest st st' server,
      totalAllocated st < targetRam →
      loopPool st !! i = Some server →
      0 < availableRam server →
      P rest (takeStep targetRam i server st) st' → P (i :: rest) st st') →
  ∀ order st, P order st (distribute targetRam order st).
Proof.
  intros Hnil Hbreak Hskip Htake order.
  induction order as [|i rest IH]; intros st; simpl; [apply Hnil|].
  destruct (Z.leb_spec targetRam (totalAllocated st)) as [Hge|Hlt]; [by apply Hbreak|].
  destruct (loopPool st !! i) as [server|] eqn:Hi.
  - destruct (Z.leb_spec (availableRam server) 0) as [Hle|Hpos].
    + apply Hskip; [done| |apply IH]. intros s Hs. rewrite Hi in Hs. by simplify_eq.
    + destruct (Z.ltb_spec 0 (Z.min (targetRam - totalAllocated st) (availableRam server)))
        as [Htpos|Htle]; [|lia].
      eapply Htake; [done..|]. apply IH.
  - apply Hskip; [done| |apply IH]. intros s Hs. rewrite Hi in Hs. done.
Qed.

(** The loop never gives back, and never takes beyond the target. *)
Lemma distribute_total targetRam order st :
  totalAllocated st <= totalAllocated (distribute targetRam order st)
  ∧ totalAllocated (distribute targetRam order st) <= Z.max targetRam (totalAllocated st).
Proof.
  revert order st.
  apply (distribute_cases targetRam (λ _ st st',
    totalAllocated st <= totalAllocated st'
    ∧ totalAllocated st' <= Z.max targetRam (totalAllocated st))).
  - intros st. lia.
  - intros i rest st Hge. lia.
  - intros i rest st st' Hlt _ IH. done.
  - intros i rest st st' server Hlt Hi Hpos. unfold takeStep; simpl. lia.
Qed.

Lemma entry_insert h h0 v (m : gmap string Z) :
  entry h (<[h0 := v]> m) = if bool_decide (h0 = h) then v else entry h m.
Proof.
  unfold entry. case_bool_decide as Hh.
  - subst. by rewrite lookup_insert_eq.
  - by rewrite lookup_insert_ne.
Qed.

Lemma assignNumber_ne {V : Type} k (v : V) (m : gmap string V) :
  k ≠ "__proto__" → assignNumber k v m = <[k := v]> m.
Proof. intros Hk. unfold assignNumber. by rewrite bool_decide_eq_false_2. Qed.

Lemma assignNumber_proto {V : Type} (v : V) (m : gmap string V) :
  assignNumber "__proto__" v m = m.
Proof. done. Qed.

Lemma entry_assignNumber h h0 v (m : gmap string Z) :
  entry h (assignNumber h0 v m)
  = if bool_decide (h0 = "__proto__") then entry h m
    else if bool_decide (h0 = h) then v else entry h m.
Proof. unfold assignNumber. case_bool_decide; [done|apply entry_insert]. Qed.

Lemma entry_empty h : entry h ∅ = 0.
Proof. unfold entry. by rewrite lookup_empty. Qed.

Lemma capacityOf_insert h pool i s s' :
  pool !! i = Some s →
  capacityOf h (<[i := s']> pool)
  = capacityOf h pool
    - (if bool_decide (hostname s = h) then usable s else 0)
    + (if bool_decide (hostname s' = h) then usable s' else 0).
Proof. intros Hi. unfold capacityOf. by rewrite (sumZ_fmap_insert _ _ _ _ _ Hi). Qed.

Lemma capacityOf_nonneg h pool : 0 <= capacityOf h pool.
Proof.
  unfold capacityOf. apply sumZ_nonneg, Forall_fmap, Forall_forall.
  intros s _. simpl. unfold usable. case_bool_decide; lia.
Qed.

(** What the entries record for a host never exceeds what the loop took
    from the records of that name. *)
Lemma distribute_capacity targetRam order st :
  (∀ h, 0 <= entry h (loopAllocations st)) →
  ∀ h, 0 <= entry h (loopAllocations (distribute targetRam order st))
       ∧ capacityOf h (loopPool (distribute targetRam order st))
         + entry h (loopAllocations (distribute targetRam order st))
         <= capacityOf h (loopPool st) + entry h (loopAllocations st).
Proof.
  revert order st.
  apply (distribute_cases targetRam (λ _ st st',
    (∀ h, 0 <= entry h (loopAllocations st)) →
    ∀ h, 0 <= entry h (loopAllocations st')
         ∧ capacityOf h (loopPool st') + entry h (loopAllocations st')
           <= capacityOf h (loopPool st) + entry h (loopAllocations st))).
  - intros st Hst h. split; [apply Hst|lia].
  - intros i rest st _ Hst h. split; [apply Hst|lia].
  - intros i rest st st' _ _ IH. exact IH.
  - intros i rest st st' server Hlt Hi Hpos IH Hst h.
    assert (∀ h', 0 <= entry h' (loopAllocations (takeStep targetRam i server st)))
      as Hst1.
    { intros h'. unfold takeStep; simpl. rewrite entry_assignNumber.
      repeat case_bool_decide; first [lia|apply Hst]. }
    destruct (IH Hst1 h) as [IH1 IH2]. split; [done|].
    etrans; [exact IH2|].
    unfold takeStep; simpl. rewrite entry_assignNumber, (capacityOf_insert _ _ _ _ _ Hi).
    simpl. specialize (Hst h). unfold usable; simpl.
    repeat case_bool_decide; lia.
Qed.

(** ** Rollback *)

Lemma alter_as_insert {A : Type} (f : A → A) (l : list A) i x :
  l !! i = Some x → alter f i l = <[i := f x]> l.
Proof.
  revert i. induction l as [|y l IH]; intros [|i] Hi; simpl in Hi; simplify_eq; [done|].
  simpl. f_equal. by apply IH.
Qed.

Lemma findIndex_Some h pool i :
  findIndex h pool = Some i → ∃ s, pool !! i = Some s ∧ hostname s = h.
Proof.
  revert i. induction pool as [|s pool IH]; intros i Hi; simpl in Hi; [done|].
  case_bool_decide as Hs.
  - simplify_eq. by exists s.
  - destruct (findIndex h pool) as [j|]; simplify_eq/=.
    destruct (IH j eq_refl) as (s' & Hj & Hs'). by exists s'.
Qed.

Lemma findIndex_None h pool :
  findIndex h pool = None → ∀ s, s ∈ pool → hostname s ≠ h.
Proof.
  induction pool as [|s pool IH]; intros Hi s' Hs'; simpl in Hi.
  - by apply elem_of_nil in Hs'.
  - case_bool_decide as Hs; [done|].
    destruct (findIndex h pool) as [j|]; simplify_eq/=.
    apply elem_of_cons in Hs' as [->|Hs']; [done|]. by apply IH.
Qed.

(** Giving [v >= 0] back to the first record named [k] raises the usable
    RAM of that name by at most [v], and of no other name. *)
Lemma rollbackEntry_capacity h pool k v :
  0 <= v →
  capacityOf h (rollbackEntry pool (k, v))
  <= capacityOf h pool + (if bool_decide (k = h) then v else 0).
Proof.
  intros Hv. unfold rollbackEntry; simpl.
  destruct (findIndex k pool) as [i|] eqn:Hi.
  - destruct (findIndex_Some _ _ _ Hi) as (s & Hs & Hk).
    rewrite (alter_as_insert _ _ _ _ Hs), (capacityOf_insert _ _ _ _ _ Hs). simpl.
    rewrite Hk. unfold usable; simpl. case_bool_decide; lia.
  - case_bool_decide; lia.
Qed.

Lemma rollbackEntries_capacity h entries pool :
  Forall (λ e, 0 <= e.2) entries →
  capacityOf h (rollbackEntries pool entries) <= capacityOf h pool + entrySum h entries.
Proof.
  intros Hall. revert pool.
  induction Hall as [|[k v] entries Hv Hall IH]; intros pool.
  - unfold entrySum; simpl. lia.
  - unfold rollbackEntries; simpl. fold (rollbackEntries (rollbackEntry pool (k, v)) entries).
    etrans; [apply IH|].
    pose proof (rollbackEntry_capacity h pool k v Hv) as Hk.
    unfold entrySum in *; csimpl. lia.
Qed.

Lemma entrySum_perm h l1 l2 : l1 ≡ₚ l2 → entrySum h l1 = entrySum h l2.
Proof. intros Hp. unfold entrySum. apply sumZ_perm. by rewrite Hp. Qed.

(** Over the entries of a map the sum for a key is the value at the key. *)
Lemma entrySum_map_to_list h (m : gmap string Z) :
  entrySum h (map_to_list m) = entry h m.
Proof.
  induction m as [|k v m Hk IH] using map_ind.
  - by rewrite map_to_list_empty, entry_empty.
  - rewrite (entrySum_perm _ _ _ (map_to_list_insert m k v Hk)), entry_insert.
    unfold entrySum in *; csimpl. rewrite IH.
    case_bool_decide as Hkh; [|lia].
    subst. unfold entry. rewrite Hk. simpl. lia.
Qed.

Lemma rollback_capacity h pool (allocs : gmap string Z) :
  (∀ h', 0 <= entry h' allocs) →
  capacityOf h (rollback pool allocs) <= capacityOf h pool + entry h allocs.
Proof.
  intros Hpos. unfold rollback.
  rewrite <- entrySum_map_to_list. apply rollbackEntries_capacity.
  apply Forall_forall. intros [k v] Hkv%elem_of_map_to_list. simpl.
  specialize (Hpos k). unfold entry in Hpos. by rewrite Hkv in Hpos.
Qed.

(** ** One request *)

Lemma allocateToModule_capacity request pool h :
  0 <= granted h (allocateToModule request pool).1
  ∧ capacityOf h (allocateToModule request pool).2
    + granted h (allocateToModule request pool).1 <= capacityOf h pool.
Proof.
  unfold allocateToModule.
  set (st := distribute _ _ _).
  assert (∀ h', 0 <= entry h' (loopAllocations st)
                ∧ capacityOf h' (loopPool st) + entry h' (loopAllocations st)
                  <= capacityOf h' pool) as Hst.
  { intros h'.
    pose proof (distribute_capacity (maxRam request) (sortedPool request pool).*1
                  (mkLoop pool ∅ 0)) as Hd.
    simpl in Hd. fold st in Hd.
    destruct (Hd (λ h0, eq_ind_r (Z.le 0) (Z.le_refl 0) (entry_empty h0)) h') as [H1 H2].
    rewrite entry_empty in H2. split; [done|lia]. }
  destruct (totalAllocated st <? minRam request); simpl.
  - split; [lia|].
    pose proof (rollback_capacity h (loopPool st) (loopAllocations st)
                  (λ h', proj1 (Hst h'))) as Hr.
    destruct (Hst h). lia.
  - apply Hst.
Qed.

Lemma allocateToModule_Some request pool a :
  (allocateToModule request pool).1 = Some a →
  allocModuleName a = moduleName request
  ∧ minRam request <= allocatedRam a
  ∧ 0 <= allocatedRam a
  ∧ allocatedRam a <= Z.max (maxRam request) 0.
Proof.
  unfold allocateToModule.
  pose proof (distribute_total (maxRam request) (sortedPool request pool).*1
                (mkLoop pool ∅ 0)) as Ht.
  simpl in Ht.
  destruct (Z.ltb_spec
              (totalAllocated (distribute (maxRam request) (sortedPool request pool).*1
                                 (mkLoop pool ∅ 0)))
              (minRam request)); simpl; [done|].
  intros [= <-]. simpl. repeat split; [done|lia..].
Qed.

(** ** The request loop *)


Lemma processRequests_cons request rest pool :
  processRequests (request :: rest) pool
  = (option_list (allocateToModule request pool).1
       ++ (processRequests rest (allocateToModule request pool).2).1,
     (processRequests rest (allocateToModule request pool).2).2).
Proof.
  simpl. destruct (allocateToModule request pool) as [oa pool1]; simpl.
  destruct (processRequests rest pool1); simpl. by destruct oa.
Qed.


(** No over-commitment, per host name, with no assumption on the pool. *)
Lemma processRequests_capacity requests pool h :
  0 <= allocatedOn h (processRequests requests pool).1
  ∧ allocatedOn h (processRequests requests pool).1
    + capacityOf h (processRequests requests pool).2 <= capacityOf h pool.
Proof.
  revert pool. induction requests as [|r requests IH]; intros pool.
  - simpl. unfold allocatedOn; simpl. lia.
  - rewrite processRequests_cons; simpl.
    destruct (allocateToModule_capacity r pool h) as [Hg Hc].
    destruct (IH (allocateToModule r pool).2) as [IH1 IH2].
    unfold allocatedOn in *. rewrite fmap_app, sumZ_app.
    destruct (allocateToModule r pool).1; simpl in *; lia.
Qed.

Lemma capacityOf_absent h pool :
  (∀ s, s ∈ pool → hostname s ≠ h) → capacityOf h pool = 0.
Proof.
  induction pool as [|s pool IH]; intros Hne; [done|].
  unfold capacityOf in *; csimpl.
  rewrite IH by (intros s' Hs'; apply Hne; by constructor).
  rewrite bool_decide_eq_false_2; [done|]. apply Hne. by constructor.
Qed.

(** With distinct host names the usable RAM of a name is that of its record. *)
Lemma capacityOf_unique pool s :
  NoDup (hostname <$> pool) → s ∈ pool → capacityOf (hostname s) pool = usable s.
Proof.
  induction pool as [|s' pool IH]; intros Hnd Hs; [by apply elem_of_nil in Hs|].
  rewrite fmap_cons in Hnd. apply NoDup_cons in Hnd as [Hs' Hnd].
  unfold capacityOf in *; csimpl.
  apply elem_of_cons in Hs as [->|Hs].
  - rewrite bool_decide_eq_true_2 by done.
    fold (capacityOf (hostname s') pool). rewrite capacityOf_absent; [lia|].
    intros s Hs Heq. apply Hs'. rewrite <- Heq. by apply list_elem_of_fmap_2.
  - rewrite IH by done. rewrite bool_decide_eq_false_2; [lia|].
    intros Heq. apply Hs'. rewrite Heq. by apply list_elem_of_fmap_2.
Qed.

Lemma allocateResources_processRequests pool requests :
  allocateResources pool requests = (processRequests (sortedRequests requests) pool).1.
Proof.
  unfold allocateResources, allocateResourcesRun.
  by destruct (processRequests (sortedRequests requests) pool).
Qed.

Lemma allocateResources_capacity pool requests h :
  allocatedOn h (allocateResources pool requests) <= capacityOf h pool.
Proof.
  rewrite allocateResources_processRequests.
  pose proof (processRequests_capacity (sortedRequests requests) pool h) as [_ Hc].
  pose proof (capacityOf_nonneg h (processRequests (sortedRequests requests) pool).2).
  lia.
Qed.

(** ** Pools built by the scan *)

(** The scan files a host at most once, and never with negative
    [availableRam] when no host uses more RAM than it has. *)
Lemma buildLoop_wellformed ns reserveHomeRam :
  (∀ h, getServerUsedRam ns h <= getServerMaxRam ns h) →
  ∀ fuel visited queue pool result,
    (∀ s, s ∈ pool → hostname s ∈ visited) →
    NoDup (hostname <$> pool) →
    Forall (λ s, 0 <= availableRam s) pool →
    buildLoop fuel ns reserveHomeRam visited queue pool = Some result →
    NoDup (hostname <$> result) ∧ Forall (λ s, 0 <= availableRam s) result.
Proof.
  intros Hram fuel.
  induction fuel as [|fuel IH]; intros visited queue pool result Hvis Hnd Hpos Hres.
  - destruct queue; simpl in Hres; [|done]. by simplify_eq.
  - destruct queue as [|h rest]; simpl in Hres; [by simplify_eq|].
    case_bool_decide as Hh; [by eapply IH|].
    assert (∀ s, s ∈ pool → hostname s ∈ visited ++ [h]) as Hvis'.
    { intros s Hs. apply elem_of_app. left. by apply Hvis. }
    destruct (hasRootAccess ns h); simpl in Hres; [|by eapply IH].
    destruct (0 <? getServerMaxRam ns h); [|by eapply IH].
    eapply IH; [| | |exact Hres].
    + intros s [Hs|Hs%list_elem_of_singleton]%elem_of_app; [by apply Hvis'|].
      subst s. simpl. apply elem_of_app. right. by constructor.
    + rewrite fmap_app. apply NoDup_app. split; [done|]. split.
      * intros x Hx [->|Hin]%elem_of_cons; [|by apply elem_of_nil in Hin].
        apply list_elem_of_fmap in Hx as (s & Hs1 & Hs2). apply Hh.
        simpl in Hs1. rewrite Hs1. by apply Hvis.
      * apply NoDup_singleton.
    + apply Forall_app. split; [done|]. constructor; [|constructor]. simpl.
      specialize (Hram h). case_bool_decide; lia.
Qed.

Lemma buildResourcePool_wellformed fuel ns reserveHomeRam pool :
  (∀ h, getServerUsedRam ns h <= getServerMaxRam ns h) →
  buildResourcePool fuel ns reserveHomeRam = Some pool →
  NoDup (hostname <$> pool) ∧ Forall (λ s, 0 <= availableRam s) pool.
Proof.
  intros Hram. unfold buildResourcePool.
  destruct (buildLoop fuel ns reserveHomeRam [] ["home"] []) as [built|] eqn:Hb;
    simpl; [|done].
  intros [= <-].
  destruct (buildLoop_wellformed ns reserveHomeRam Hram fuel [] ["home"] [] built)
    as [Hnd Hpos]; [by intros s ?%elem_of_nil|constructor|constructor|done|].
  split.
  - by rewrite js_sort_perm.
  - by rewrite js_sort_perm.
Qed.

(** The scan returns on every finite network. *)
Lemma buildLoop_terminates ns reserveHomeRam universe :
  (∀ h n, h ∈ universe → n ∈ scan ns h → n ∈ universe) →
  ∀ fuel visited queue pool,
    (∀ h, h ∈ queue → h ∈ universe) →
    (length queue + pending (scan ns) universe visited ≤ fuel)%nat →
    is_Some (buildLoop fuel ns reserveHomeRam visited queue pool).
Proof.
  intros Hclosed fuel.
  induction fuel as [|fuel IH]; intros visited queue pool Hq Hfuel.
  - destruct queue; simpl in *; [eauto|lia].
  - destruct queue as [|h rest]; simpl; [eauto|].
    case_bool_decide as Hd.
    + apply IH; [intros x Hx; apply Hq; by constructor|]. simpl in Hfuel. lia.
    + assert (h ∈ universe) as Hcur by (apply Hq; by constructor).
      assert (∀ x, x ∈ rest ++ filter (λ neighbor, neighbor ∉ visited ++ [h]) (scan ns h) →
                   x ∈ universe) as Hq'.
      { intros x [Hx|Hx]%elem_of_app; [apply Hq; by constructor|].
        apply list_elem_of_filter in Hx as [_ Hx]. by eapply Hclosed. }
      assert (length (rest ++ filter (λ neighbor, neighbor ∉ visited ++ [h]) (scan ns h))
              + pending (scan ns) universe (visited ++ [h]) ≤ fuel)%nat as Hfuel'.
      { pose proof (pending_discover (scan ns) universe visited h Hcur Hd).
        pose proof (length_filter (λ neighbor, neighbor ∉ visited ++ [h]) (scan ns h)).
        rewrite length_app. simpl in Hfuel. lia. }
      destruct (hasRootAccess ns h); simpl; [|by apply IH].
      destruct (0 <? getServerMaxRam ns h); by apply IH.
Qed.

(** The whole pass of [performAllocation]: on a finite network it returns,
    and no server of the pool it built is over-committed. *)
Lemma performAllocation_no_over_commitment ns universe fuel requests reserveHomeRam :
  "home" ∈ universe →
  (∀ h n, h ∈ universe → n ∈ scan ns h → n ∈ universe) →
  (1 + sum_list_with (λ h, length (scan ns h)) universe ≤ fuel)%nat →
  (∀ h, getServerUsedRam ns h <= getServerMaxRam ns h) →
  ∃ allocations pool,
    performAllocation fuel ns requests reserveHomeRam = Some (allocations, pool)
    ∧ ∀ s, s ∈ pool → allocatedOn (hostname s) allocations <= availableRam s.
Proof.
  intros Hhome Hclosed Hfuel Hram.
  destruct (buildLoop_terminates ns reserveHomeRam universe Hclosed fuel [] ["home"] [])
    as [built Hbuilt].
  { intros h ->%list_elem_of_singleton. done. }
  { rewrite pending_nil. simpl. lia. }
  assert (buildResourcePool fuel ns reserveHomeRam
          = Some (js_sort (λ a b, availableRam b - availableRam a) built)) as Hpool.
  { unfold buildResourcePool. by rewrite Hbuilt. }
  destruct (buildResourcePool_wellformed _ _ _ _ Hram Hpool) as [Hnd Hpos].
  eexists _, _. split.
  - unfold performAllocation. rewrite Hpool. reflexivity.
  - intros s Hs. rewrite Forall_forall in Hpos. specialize (Hpos s Hs).
    pose proof (allocateResources_capacity
                  (js_sort (λ a b, availableRam b - availableRam a) built)
                  requests (hostname s)) as Hc.
    rewrite (capacityOf_unique _ s Hnd Hs) in Hc. unfold usable in Hc. lia.
Qed.

(** ** Claims on the allocator *)

(** C2 (no over-commitment), for amounts added and subtracted exactly, as
    integral amounts are while their sums stay below 2^53.  For every pool
    and every list of requests, the entries for a host name in the
    [serverAllocations] of all allocations returned by one
    [allocateResources] call add up to at most the RAM the records of that
    name offer in the input pool.  On a pool whose records carry distinct
    host names this is, for every server of the pool that offers a
    non-negative [availableRam], the bound of the specification: the sum of
    that server's entries never exceeds that server's [availableRam] in the
    input pool. *)
Theorem C2_no_over_commitment pool requests :
  (∀ h, allocatedOn h (allocateResources pool requests) <= capacityOf h pool)
  ∧ (NoDup (hostname <$> pool) →
     ∀ s, s ∈ pool →
          0 <= availableRam s →
          allocatedOn (hostname s) (allocateResources pool requests) <= availableRam s).
Proof.
  split.
  - intros h. apply allocateResources_capacity.
  - intros Hnd s Hs Hpos.
    pose proof (allocateResources_capacity pool requests (hostname s)) as Hc.
    rewrite (capacityOf_unique pool s Hnd Hs) in Hc. unfold usable in Hc. lia.
Qed.

Lemma C2_no_over_commitment_witness :
  NoDup (hostname <$> poolHomeN1)
  ∧ mkServer "home" 100 0 100 true false ∈ poolHomeN1
  ∧ 0 <= 100
  ∧ allocatedOn "home" (allocateResources poolHomeN1 [requestM1]) <= 100.
Proof.
  assert (NoDup (hostname <$> poolHomeN1)) as Hnd
    by (apply (bool_decide_unpack _); vm_compute; exact I).
  assert (mkServer "home" 100 0 100 true false ∈ poolHomeN1) as Hin by constructor.
  assert (0 <= 100) as Hle by lia.
  split; [exact Hnd|]. split; [exact Hin|]. split; [exact Hle|].
  exact (proj2 (C2_no_over_commitment poolHomeN1 [requestM1]) Hnd _ Hin Hle).
Defined.

(** C2 in the arithmetic of the engine.  A server with 8 GB of which 0.2 GB
    is in use enters the pool with [availableRam] 7.8.  The request of the
    higher priority takes 2.4 from it; the subtraction [7.8 - 2.4] is
    rounded up to the double 5.4, which the second request takes in full.
    The two entries for the server are 2.4 and 5.4: their sum exceeds the
    7.8 the input pool records, both as the engine adds them and as the
    rational numbers the three doubles stand for. *)
Lemma C2_rounding_counterexample :
  Doubles.availableRam <$> Doubles.poolN1 = [Doubles.ram78]
  ∧ Doubles.allocateResources Doubles.poolN1
      [Doubles.requestFirst; Doubles.requestSecond]
    = [ Doubles.mkAllocation "first" Doubles.ram24 {[ "n1" := Doubles.ram24 ]};
        Doubles.mkAllocation "second" Doubles.ram54 {[ "n1" := Doubles.ram54 ]} ]
  ∧ Doubles.entriesOn "n1" Doubles.allocationsN1 = [Doubles.ram24; Doubles.ram54]
  ∧ PrimFloat.ltb Doubles.ram78 (Doubles.allocatedOn "n1" Doubles.allocationsN1) = true
  ∧ ∃ total offered,
      Doubles.exactSum (Doubles.entriesOn "n1" Doubles.allocationsN1) = Some total
      ∧ Doubles.exact Doubles.ram78 = Some offered
      ∧ offered < total.
Proof.
  split; [vm_compute; reflexivity|]. split; [vm_compute; reflexivity|].
  split; [vm_compute; reflexivity|]. split; [vm_compute; reflexivity|].
  eexists _, _. split; [vm_compute; reflexivity|]. split; [vm_compute; reflexivity|].
  vm_compute. reflexivity.
Qed.


(** ** Rollback on a pool with distinct host names *)

Lemma NoDup_hostname_inj pool i j si sj :
  NoDup (hostname <$> pool) →
  pool !! i = Some si → pool !! j = Some sj → hostname si = hostname sj → i = j.
Proof.
  intros Hnd Hi Hj Heq.
  apply (NoDup_lookup (hostname <$> pool) i j (hostname si)); [done|..].
  - by rewrite list_lookup_fmap, Hi.
  - by rewrite list_lookup_fmap, Hj, Heq.
Qed.

Lemma rollbackEntry_NoDup pool k v :
  NoDup (hostname <$> pool) →
  rollbackEntry pool (k, v) = afterGiveBack [(k, v)] <$> pool.
Proof.
  assert (∀ s, hostname s ≠ k → afterGiveBack [(k, v)] s = s) as Hother.
  { intros s Hs. unfold afterGiveBack, entrySum; simpl.
    rewrite bool_decide_eq_false_2 by done.
    replace (availableRam s + (0 + 0)) with (availableRam s) by lia.
    apply setAvailableRam_id. }
  unfold rollbackEntry; simpl.
  induction pool as [|s pool IH]; intros Hnd; [done|].
  rewrite fmap_cons in Hnd. apply NoDup_cons in Hnd as [Hs Hnd].
  simpl findIndex. case_bool_decide as Hk.
  - csimpl. f_equal.
    + unfold afterGiveBack, entrySum; simpl.
      rewrite bool_decide_eq_true_2 by done. f_equal. lia.
    + symmetry. rewrite <- (list_fmap_id pool) at 2. apply list_fmap_ext.
      intros i s' Hs'. apply Hother. intros Heq. apply Hs. simpl in Heq.
      rewrite Hk, <- Heq.
      apply list_elem_of_fmap_2. by eapply list_elem_of_lookup_2.
  - specialize (IH Hnd). csimpl. rewrite (Hother s Hk).
    destruct (findIndex k pool) as [j|]; simpl; by rewrite <- IH.
Qed.

Lemma afterGiveBack_hostname entries s : hostname (afterGiveBack entries s) = hostname s.
Proof. done. Qed.

Lemma rollbackEntries_NoDup entries pool :
  NoDup (hostname <$> pool) →
  rollbackEntries pool entries = afterGiveBack entries <$> pool.
Proof.
  revert pool. induction entries as [|[k v] entries IH]; intros pool Hnd.
  - unfold rollbackEntries; simpl. rewrite <- (list_fmap_id pool) at 1.
    apply list_fmap_ext. intros i s _. unfold afterGiveBack, entrySum; simpl.
    replace (availableRam s + 0) with (availableRam s) by lia.
    symmetry. apply setAvailableRam_id.
  - unfold rollbackEntries; simpl.
    fold (rollbackEntries (rollbackEntry pool (k, v)) entries).
    rewrite (rollbackEntry_NoDup pool k v Hnd).
    rewrite IH.
    + rewrite <- list_fmap_compose. apply list_fmap_ext.
      intros i s _. simpl. unfold afterGiveBack, entrySum; simpl.
      unfold setAvailableRam; simpl. f_equal.
      unfold fmap. case_bool_decide; lia.
    + rewrite <- list_fmap_compose.
      by rewrite (list_fmap_ext (hostname ∘ afterGiveBack [(k, v)]) hostname pool).
Qed.

(** On distinct host names the loop leaves every record short of exactly
    its entry. *)
Lemma distribute_exact pool0 targetRam order st :
  NoDup (hostname <$> pool0) →
  "__proto__" ∉ hostname <$> pool0 →
  NoDup order →
  (∀ i s, i ∈ order → pool0 !! i = Some s → loopAllocations st !! hostname s = None) →
  loopPool st = afterTake (loopAllocations st) <$> pool0 →
  loopPool (distribute targetRam order st)
  = afterTake (loopAllocations (distribute targetRam order st)) <$> pool0.
Proof.
  intros Hnd Hproto. revert order st.
  apply (distribute_cases targetRam (λ order st st',
    NoDup order →
    (∀ i s, i ∈ order → pool0 !! i = Some s → loopAllocations st !! hostname s = None) →
    loopPool st = afterTake (loopAllocations st) <$> pool0 →
    loopPool st' = afterTake (loopAllocations st') <$> pool0)).
  - done.
  - done.
  - intros i rest st st' _ _ IH Hord Hfresh Hpool.
    apply NoDup_cons in Hord as [_ Hord].
    apply IH; [done| |done]. intros j s Hj. apply Hfresh. by constructor.
  - intros i rest st st' server Hlt Hi Hpos IH Hord Hfresh Hpool.
    apply NoDup_cons in Hord as [Hirest Hord].
    rewrite Hpool, list_lookup_fmap in Hi.
    destruct (pool0 !! i) as [s0|] eqn:Hi0; [|done].
    assert (afterTake (loopAllocations st) s0 = s0) as Hs0.
    { unfold afterTake, entry. rewrite (Hfresh i s0) by (done || constructor). simpl.
      replace (availableRam s0 - 0) with (availableRam s0) by lia.
      apply setAvailableRam_id. }
    change (Some (afterTake (loopAllocations st) s0) = Some server) in Hi.
    rewrite Hs0 in Hi. injection Hi as <-.
    assert (∀ j sj, j ≠ i → pool0 !! j = Some sj → hostname s0 ≠ hostname sj) as Hne.
    { intros j sj Hji Hj Heq. apply Hji. symmetry.
      by eapply (NoDup_hostname_inj pool0 i j s0 sj). }
    assert (hostname s0 ≠ "__proto__") as Hs0p.
    { intros Heq. apply Hproto. rewrite <- Heq.
      apply list_elem_of_fmap. exists s0. split; [done|]. by eapply list_elem_of_lookup_2. }
    apply IH; [done|..]; unfold takeStep; simpl; rewrite (assignNumber_ne _ _ _ Hs0p).
    + intros j sj Hj Hj0. rewrite lookup_insert_ne.
      * apply (Hfresh j); [by constructor|done].
      * apply (Hne j); [|done]. intros ->. done.
    + rewrite Hpool. apply list_eq. intros j.
      destruct (decide (j = i)) as [->|Hji].
      * rewrite list_lookup_insert_eq
          by (rewrite length_fmap; by eapply lookup_lt_Some).
        rewrite list_lookup_fmap, Hi0. simpl. f_equal.
        unfold afterTake. rewrite entry_insert, bool_decide_eq_true_2 by done.
        done.
      * rewrite list_lookup_insert_ne by done.
        rewrite !list_lookup_fmap. destruct (pool0 !! j) as [sj|] eqn:Hj; [|done].
        simpl. f_equal. unfold afterTake.
        rewrite entry_insert, bool_decide_eq_false_2; [done|]. by eapply Hne.
Qed.

Lemma imap_pair_fst {A : Type} (l : list A) : (imap pair l).*1 = seq 0 (length l).
Proof.
  rewrite fmap_imap, <- (list_fmap_id (seq 0 (length l))).
  by rewrite <- (imap_seq_0 l id).
Qed.

Lemma imap_pair_snd {A : Type} (l : list A) : (imap pair l).*2 = l.
Proof.
  rewrite fmap_imap. rewrite (imap_ext _ (const id)) by done.
  by rewrite imap_const, list_fmap_id.
Qed.

Lemma sortedPool_perm request pool : sortedPool request pool ≡ₚ imap pair pool.
Proof. apply js_sort_perm. Qed.

Lemma sortedPool_NoDup request pool : NoDup (sortedPool request pool).*1.
Proof.
  rewrite sortedPool_perm, imap_pair_fst. apply NoDup_seq.
Qed.

Lemma allocateToModule_rollback request pool :
  NoDup (hostname <$> pool) →
  "__proto__" ∉ hostname <$> pool →
  (allocateToModule request pool).1 = None →
  (allocateToModule request pool).2 = pool.
Proof.
  intros Hnd Hproto. unfold allocateToModule.
  pose proof (distribute_exact pool (maxRam request) (sortedPool request pool).*1
                (mkLoop pool ∅ 0) Hnd Hproto (sortedPool_NoDup request pool)) as Hex.
  simpl in Hex.
  set (st := distribute _ _ _) in *.
  destruct (totalAllocated st <? minRam request); simpl; [intros _|done].
  rewrite Hex.
  - unfold rollback. rewrite rollbackEntries_NoDup.
    + rewrite <- list_fmap_compose. rewrite <- (list_fmap_id pool) at 2.
      apply list_fmap_ext. intros i s _. simpl.
      unfold afterGiveBack, afterTake; simpl. rewrite entrySum_map_to_list.
      destruct s; unfold setAvailableRam; simpl. f_equal. lia.
    + rewrite <- list_fmap_compose.
      by rewrite (list_fmap_ext (hostname ∘ afterTake (loopAllocations st)) hostname pool).
  - intros i s _ _. apply lookup_empty.
  - rewrite <- (list_fmap_id pool) at 1. apply list_fmap_ext. intros i s _.
    unfold afterTake. rewrite entry_empty. simpl.
    replace (availableRam s - 0) with (availableRam s) by lia.
    symmetry. apply setAvailableRam_id.
Qed.

(** The order in which [Object.entries] lists the keys is immaterial to the
    rollback: giving back two entries commutes, on any pool. *)
Lemma findIndex_alter h (f : ServerResource → ServerResource) i pool :
  (∀ s, hostname (f s) = hostname s) →
  findIndex h (alter f i pool) = findIndex h pool.
Proof.
  intros Hf. revert i. induction pool as [|s pool IH]; intros [|i]; simpl; [done..| |].
  - by rewrite Hf.
  - specialize (IH i). unfold alter in IH. by rewrite IH.
Qed.

Lemma findIndex_rollbackEntry h pool e :
  findIndex h (rollbackEntry pool e) = findIndex h pool.
Proof.
  unfold rollbackEntry. destruct (findIndex e.1 pool); [|done].
  by apply findIndex_alter.
Qed.

Lemma rollbackEntry_comm pool e1 e2 :
  rollbackEntry (rollbackEntry pool e1) e2 = rollbackEntry (rollbackEntry pool e2) e1.
Proof.
  unfold rollbackEntry at 1 3. rewrite !findIndex_rollbackEntry.
  unfold rollbackEntry.
  destruct (findIndex e1.1 pool) as [i|], (findIndex e2.1 pool) as [j|]; try done.
  apply list_eq. intros n. rewrite !list_lookup_alter.
  repeat case_decide; subst; rewrite ?list_lookup_alter_eq, ?list_lookup_alter_ne by done;
    try done.
  destruct (pool !! n) as [s|]; [|done]. simpl. f_equal.
  unfold setAvailableRam; simpl. f_equal. lia.
Qed.

Lemma rollbackEntries_perm entries1 entries2 :
  entries1 ≡ₚ entries2 →
  ∀ pool, rollbackEntries pool entries1 = rollbackEntries pool entries2.
Proof.
  unfold rollbackEntries.
  induction 1 as [|e l1 l2 _ IH|e1 e2 l|l1 l2 l3 _ IH1 _ IH2]; intros pool; simpl.
  - done.
  - apply IH.
  - by rewrite rollbackEntry_comm.
  - by rewrite IH1, IH2.
Qed.

(** C4 (rollback), evaluated where the code departs from it.  On the pool
    [["__proto__", avail 10]] with the request [{min 20, max 50}] the loop
    takes 10 from the server and counts it in [totalAllocated], but the
    write [serverAllocations["__proto__"] = 10] stores no entry; the floor
    of 20 is missed, the rollback walks over an empty list of entries, and
    the call returns no allocation with the server left at 0 instead of 10.
    On the pool [[n1, avail 10]] the same request is rolled back as
    documented: [n1] ends at 10 again. *)
Theorem C4_rollback_misses_proto :
  totalAllocated
    (distribute (maxRam requestFloor20) (sortedPool requestFloor20 poolProto).*1
       (mkLoop poolProto ∅ 0)) = 10
  ∧ map_to_list (loopAllocations
      (distribute (maxRam requestFloor20) (sortedPool requestFloor20 poolProto).*1
         (mkLoop poolProto ∅ 0))) = []
  ∧ allocateToModule requestFloor20 poolProto
    = (None, [ mkServer "__proto__" 10 0 0 false false ])
  ∧ availableRam <$> (allocateResourcesRun poolProto [requestFloor20]).2 = [0]
  ∧ allocateToModule requestFloor20 poolN1 = (None, poolN1)
  ∧ availableRam <$> (allocateResourcesRun poolN1 [requestFloor20]).2 = [10].
Proof. repeat split; vm_compute; reflexivity. Qed.

(** With two records of one name the rollback need not restore them: the
    single entry kept for the name goes back to the first record. *)
Remark rollback_shared_name :
  let pool := [ mkServer "a" 5 0 5 false false; mkServer "a" 10 0 10 true false ] in
  allocateToModule (mkRequest "m" 1 20 20 None) pool
  = (None, [ mkServer "a" 5 0 10 false false; mkServer "a" 10 0 0 true false ]).
Proof. vm_compute. reflexivity. Qed.

(** ** Priority order *)

Lemma usable_nonneg s : 0 <= usable s.
Proof. unfold usable. lia. Qed.





Lemma StronglySorted_weaken {A : Type} (R1 R2 : A → A → Prop) l :
  (∀ x y, R1 x y → R2 x y) → StronglySorted R1 l → StronglySorted R2 l.
Proof.
  intros HR. induction 1 as [|x l _ IH Hx]; constructor; [done|].
  eapply Forall_impl; [exact Hx|]. intros y. apply HR.
Qed.


Lemma sortedRequests_sorted requests :
  StronglySorted (λ a b, priority b <= priority a) (sortedRequests requests).
Proof.
  apply (StronglySorted_weaken (λ a b, cmpRequest a b <= 0)).
  - intros a b. unfold cmpRequest. lia.
  - apply (js_sort_sorted cmpRequest).
    + intros a b. unfold cmpRequest. lia.
    + intros a b c. unfold cmpRequest. lia.
Qed.

(** ** What leaves the pool *)

Lemma calculateTotalAllocated_sum allocations :
  calculateTotalAllocated allocations = sumZ (allocatedRam <$> allocations).
Proof.
  unfold calculateTotalAllocated.
  assert (∀ acc, foldl (λ total a, total + allocatedRam a) acc allocations
                 = acc + sumZ (allocatedRam <$> allocations)) as Hacc.
  { induction allocations as [|a l IH]; intros acc; csimpl; [lia|].
    rewrite IH. lia. }
  rewrite Hacc. lia.
Qed.

Lemma mapSum_empty : mapSum ∅ = 0.
Proof. unfold mapSum. by rewrite map_to_list_empty. Qed.

Lemma mapSum_insert_fresh (m : gmap string Z) k v :
  m !! k = None → mapSum (<[k := v]> m) = v + mapSum m.
Proof.
  intros Hk. unfold mapSum.
  rewrite (sumZ_perm _ ((k, v) :: map_to_list m).*2); [done|].
  by rewrite (map_to_list_insert m k v Hk).
Qed.

Lemma mapSum_insert (m : gmap string Z) k v :
  mapSum (<[k := v]> m) = mapSum m - entry k m + v.
Proof.
  unfold entry. destruct (m !! k) as [old|] eqn:Hk; simpl.
  - rewrite <- (insert_delete_eq m k v).
    rewrite <- (insert_delete_id m k old Hk) at 2.
    rewrite !mapSum_insert_fresh by apply lookup_delete_eq. lia.
  - rewrite mapSum_insert_fresh by done. lia.
Qed.

Lemma totalAvailable_insert pool i s s' :
  pool !! i = Some s →
  totalAvailable (<[i := s']> pool) = totalAvailable pool - usable s + usable s'.
Proof. intros Hi. unfold totalAvailable. by rewrite (sumZ_fmap_insert _ _ _ _ _ Hi). Qed.

Lemma totalAvailable_nonneg pool : 0 <= totalAvailable pool.
Proof.
  unfold totalAvailable. apply sumZ_nonneg, Forall_fmap, Forall_forall.
  intros s _. apply usable_nonneg.
Qed.

(** The loop moves RAM from the pool to the total, and loses none. *)
Lemma distribute_conserves targetRam order st :
  totalAvailable (loopPool (distribute targetRam order st))
  + totalAllocated (distribute targetRam order st)
  = totalAvailable (loopPool st) + totalAllocated st.
Proof.
  revert order st.
  apply (distribute_cases targetRam (λ _ st st',
    totalAvailable (loopPool st') + totalAllocated st'
    = totalAvailable (loopPool st) + totalAllocated st)); try done.
  intros i rest st st' server Hlt Hi Hpos IH. rewrite IH.
  unfold takeStep; simpl. rewrite (totalAvailable_insert _ _ _ _ Hi).
  unfold usable; simpl. lia.
Qed.

(** The entries never add up to more than was taken. *)
Lemma distribute_mapSum targetRam order st :
  (∀ h, 0 <= entry h (loopAllocations st)) →
  mapSum (loopAllocations (distribute targetRam order st)) + totalAllocated st
  <= mapSum (loopAllocations st) + totalAllocated (distribute targetRam order st).
Proof.
  revert order st.
  apply (distribute_cases targetRam (λ _ st st',
    (∀ h, 0 <= entry h (loopAllocations st)) →
    mapSum (loopAllocations st') + totalAllocated st
    <= mapSum (loopAllocations st) + totalAllocated st')).
  - intros; lia.
  - intros; lia.
  - intros i rest st st' _ _ IH. exact IH.
  - intros i rest st st' server Hlt Hi Hpos IH Hst.
    assert (∀ h', 0 <= entry h' (loopAllocations (takeStep targetRam i server st)))
      as Hst1.
    { intros h'. unfold takeStep; simpl. rewrite entry_assignNumber.
      repeat case_bool_decide; first [lia|apply Hst]. }
    specialize (IH Hst1). unfold takeStep in IH; simpl in IH.
    unfold assignNumber in IH. case_bool_decide; [lia|].
    rewrite mapSum_insert in IH. specialize (Hst (hostname server)). lia.
Qed.

Lemma rollbackEntry_totalAvailable pool k v :
  0 <= v → totalAvailable (rollbackEntry pool (k, v)) <= totalAvailable pool + v.
Proof.
  intros Hv. unfold rollbackEntry; simpl.
  destruct (findIndex k pool) as [i|] eqn:Hi; [|lia].
  destruct (findIndex_Some _ _ _ Hi) as (s & Hs & Hk).
  rewrite (alter_as_insert _ _ _ _ Hs), (totalAvailable_insert _ _ _ _ Hs).
  unfold usable; simpl. lia.
Qed.

Lemma rollbackEntries_totalAvailable entries pool :
  Forall (λ e, 0 <= e.2) entries →
  totalAvailable (rollbackEntries pool entries) <= totalAvailable pool + sumZ entries.*2.
Proof.
  intros Hall. revert pool.
  induction Hall as [|[k v] entries Hv Hall IH]; intros pool; [simpl; lia|].
  change (rollbackEntries pool ((k, v) :: entries))
    with (rollbackEntries (rollbackEntry pool (k, v)) entries).
  etrans; [apply IH|].
  pose proof (rollbackEntry_totalAvailable pool k v Hv).
  rewrite fmap_cons, sumZ_cons. cbn [snd]. lia.
Qed.

Lemma rollback_totalAvailable pool (allocs : gmap string Z) :
  (∀ h, 0 <= entry h allocs) →
  totalAvailable (rollback pool allocs) <= totalAvailable pool + mapSum allocs.
Proof.
  intros Hpos. apply rollbackEntries_totalAvailable.
  apply Forall_forall. intros [k v] Hkv%elem_of_map_to_list. simpl.
  specialize (Hpos k). unfold entry in Hpos. by rewrite Hkv in Hpos.
Qed.

(** What a request takes out of the pool: its [allocatedRam] if granted. *)
Lemma allocateToModule_conserves request pool :
  totalAvailable (allocateToModule request pool).2
  + from_option allocatedRam 0 (allocateToModule request pool).1
  <= totalAvailable pool
  ∧ (is_Some (allocateToModule request pool).1 →
     totalAvailable (allocateToModule request pool).2
     + from_option allocatedRam 0 (allocateToModule request pool).1
     = totalAvailable pool).
Proof.
  unfold allocateToModule.
  pose proof (distribute_conserves (maxRam request) (sortedPool request pool).*1
                (mkLoop pool ∅ 0)) as Hc.
  pose proof (distribute_mapSum (maxRam request) (sortedPool request pool).*1
                (mkLoop pool ∅ 0)) as Hm.
  pose proof (distribute_capacity (maxRam request) (sortedPool request pool).*1
                (mkLoop pool ∅ 0)) as Hd.
  simpl in Hc, Hm, Hd.
  assert (∀ h, 0 <= entry h (∅ : gmap string Z)) as H0
    by (intros h; rewrite entry_empty; lia).
  specialize (Hm H0). rewrite mapSum_empty in Hm.
  set (st := distribute _ _ _) in *.
  destruct (totalAllocated st <? minRam request); simpl.
  - split; [|by intros [? [=]]].
    pose proof (rollback_totalAvailable (loopPool st) (loopAllocations st)
                  (λ h, proj1 (Hd H0 h))). lia.
  - split; [lia|intros _; lia].
Qed.

(** The allocator writes [availableRam] and nothing else. *)
Lemma static_setAvailableRam v s : static (setAvailableRam v s) = static s.
Proof. done. Qed.

Lemma static_insert (pool : list ServerResource) (i : nat) v s :
  pool !! i = Some s →
  static <$> <[i := setAvailableRam v s]> pool = static <$> pool.
Proof.
  intros Hi. rewrite list_fmap_insert, static_setAvailableRam.
  apply list_insert_id. by rewrite list_lookup_fmap, Hi.
Qed.

Lemma distribute_static targetRam order st :
  static <$> loopPool (distribute targetRam order st) = static <$> loopPool st.
Proof.
  revert order st.
  apply (distribute_cases targetRam (λ _ st st',
    static <$> loopPool st' = static <$> loopPool st)); try done.
  intros i rest st st' server Hlt Hi Hpos IH. rewrite IH.
  unfold takeStep; simpl. by apply static_insert.
Qed.

Lemma rollbackEntry_static pool e : static <$> rollbackEntry pool e = static <$> pool.
Proof.
  unfold rollbackEntry. destruct (findIndex e.1 pool) as [i|] eqn:Hi; [|done].
  destruct (findIndex_Some _ _ _ Hi) as (s & Hs & _).
  rewrite (alter_as_insert _ _ _ _ Hs). by apply static_insert.
Qed.

Lemma rollbackEntries_static entries pool :
  static <$> rollbackEntries pool entries = static <$> pool.
Proof.
  revert pool. induction entries as [|e entries IH]; intros pool; [done|].
  change (rollbackEntries pool (e :: entries))
    with (rollbackEntries (rollbackEntry pool e) entries).
  by rewrite IH, rollbackEntry_static.
Qed.

Lemma allocateToModule_static request pool :
  static <$> (allocateToModule request pool).2 = static <$> pool.
Proof.
  unfold allocateToModule.
  pose proof (distribute_static (maxRam request) (sortedPool request pool).*1
                (mkLoop pool ∅ 0)) as Hs. simpl in Hs.
  destruct (_ <? _); simpl; [|done].
  unfold rollback. by rewrite rollbackEntries_static.
Qed.

Lemma static_hostname (pool pool' : list ServerResource) :
  static <$> pool' = static <$> pool → hostname <$> pool' = hostname <$> pool.
Proof.
  intros Hs.
  assert (∀ l : list ServerResource,
            hostname <$> l = (λ t, t.1.1.1.1) <$> (static <$> l)) as Hh.
  { intros l. rewrite <- list_fmap_compose. by apply list_fmap_ext. }
  by rewrite !Hh, Hs.
Qed.

Lemma processRequests_static requests pool :
  static <$> (processRequests requests pool).2 = static <$> pool.
Proof.
  revert pool. induction requests as [|r requests IH]; intros pool; [done|].
  rewrite processRequests_cons. simpl. by rewrite IH, allocateToModule_static.
Qed.

Lemma processRequests_conserves requests pool :
  0 <= sumZ (allocatedRam <$> (processRequests requests pool).1)
  ∧ sumZ (allocatedRam <$> (processRequests requests pool).1)
    + totalAvailable (processRequests requests pool).2 <= totalAvailable pool
  ∧ (NoDup (hostname <$> pool) →
     "__proto__" ∉ hostname <$> pool →
     sumZ (allocatedRam <$> (processRequests requests pool).1)
     + totalAvailable (processRequests requests pool).2 = totalAvailable pool).
Proof.
  revert pool. induction requests as [|r requests IH]; intros pool.
  - simpl. split; [done|]. split; [lia|intros _ _; lia].
  - rewrite processRequests_cons. simpl.
    destruct (IH (allocateToModule r pool).2) as (IH0 & IH1 & IH2).
    destruct (allocateToModule_conserves r pool) as [Hle Heq].
    rewrite fmap_app, sumZ_app.
    destruct (allocateToModule r pool).1 as [a|] eqn:Ha; simpl in *.
    + destruct (allocateToModule_Some _ _ _ Ha) as (_ & _ & Hpos & _).
      split; [lia|]. split; [lia|]. intros Hnd Hproto.
      assert (NoDup (hostname <$> (allocateToModule r pool).2)) as Hnd'
        by by rewrite (static_hostname _ _ (allocateToModule_static r pool)).
      assert ("__proto__" ∉ hostname <$> (allocateToModule r pool).2) as Hproto'
        by by rewrite (static_hostname _ _ (allocateToModule_static r pool)).
      specialize (IH2 Hnd' Hproto'). specialize (Heq (mk_is_Some _ _ eq_refl)). lia.
    + split; [lia|]. split; [lia|]. intros Hnd Hproto.
      assert (NoDup (hostname <$> (allocateToModule r pool).2)) as Hnd'
        by by rewrite (static_hostname _ _ (allocateToModule_static r pool)).
      assert ("__proto__" ∉ hostname <$> (allocateToModule r pool).2) as Hproto'
        by by rewrite (static_hostname _ _ (allocateToModule_static r pool)).
      specialize (IH2 Hnd' Hproto').
      rewrite (allocateToModule_rollback r pool Hnd Hproto Ha) in IH2 |- *. lia.
Qed.






(** The scenario of the witness, evaluated: demand 220 against 150 usable;
    the higher priority gets its full 120, the lower what is left. *)
Example priority_scenario :
  allocateResources poolHomeN1 [requestLow; requestM1]
  = [ mkAllocation "m1" 120 {[ "n1" := 50; "home" := 70 ]};
      mkAllocation "low" 30 {[ "home" := 30 ]} ].
Proof. vm_compute. reflexivity. Qed.

(** ** Server ordering *)

Lemma sortedPool_objects request pool :
  (sortedPool request pool).*2 = js_sort (poolCmp request) pool.
Proof.
  unfold sortedPool. rewrite (js_sort_fmap snd (poolCmp request)).
  by rewrite imap_pair_snd.
Qed.

Lemma cmpDefault_order a b : cmpDefault a b <= 0 ↔ defaultOrder a b.
Proof.
  unfold cmpDefault, defaultOrder.
  destruct (isHome a), (isHome b); simpl; split; try lia; intuition (try done; lia).
Qed.

Lemma cmpDefault_total a b : 0 < cmpDefault a b → cmpDefault b a <= 0.
Proof. unfold cmpDefault. destruct (isHome a), (isHome b); simpl; lia. Qed.

Lemma cmpDefault_trans a b c :
  cmpDefault a b <= 0 → cmpDefault b c <= 0 → cmpDefault a c <= 0.
Proof.
  unfold cmpDefault. destruct (isHome a), (isHome b), (isHome c); simpl; lia.
Qed.



(** A stable sort whose comparator first separates two groups is the sort
    of the first group followed by the sort of the second. *)
Section js_sort_groups.
Context {A : Type} (P : A → Prop) `{!∀ x, Decision (P x)}.
Context (cmp cmp0 : A → A → Z).
Hypothesis cmp_first : ∀ x y, P x → ¬ P y → cmp x y <= 0.
Hypothesis cmp_second : ∀ x y, ¬ P x → P y → 0 < cmp x y.
Hypothesis cmp_same : ∀ x y, (P x ↔ P y) → cmp x y = cmp0 x y.

Lemma js_insert_first x l1 l2 :
  P x → Forall P l1 → Forall (λ y, ¬ P y) l2 →
  js_insert cmp x (l1 ++ l2) = js_insert cmp0 x l1 ++ l2.
Proof.
  intros Hx Hl1 Hl2. induction Hl1 as [|y l1 Hy Hl1 IH]; simpl.
  - destruct Hl2 as [|y l2 Hy Hl2]; simpl; [done|].
    destruct (Z.leb_spec (cmp x y) 0) as [_|Hgt]; [done|].
    pose proof (cmp_first x y Hx Hy). lia.
  - rewrite (cmp_same x y) by tauto.
    destruct (cmp0 x y <=? 0); simpl; [done|]. by rewrite IH.
Qed.

Lemma js_insert_second x l1 l2 :
  ¬ P x → Forall P l1 → Forall (λ y, ¬ P y) l2 →
  js_insert cmp x (l1 ++ l2) = l1 ++ js_insert cmp0 x l2.
Proof.
  intros Hx Hl1 Hl2. induction Hl1 as [|y l1 Hy Hl1 IH]; simpl.
  - apply js_insert_ext. intros y Hy.
    rewrite Forall_forall in Hl2. rewrite (cmp_same x y); [done|].
    specialize (Hl2 y Hy). tauto.
  - destruct (Z.leb_spec (cmp x y) 0) as [Hle|_]; [|by rewrite IH].
    pose proof (cmp_second x y Hx Hy). lia.
Qed.

Lemma js_sort_groups l :
  js_sort cmp l = js_sort cmp0 (filter P l) ++ js_sort cmp0 (filter (λ x, ¬ P x) l).
Proof.
  induction l as [|x l IH]; [done|].
  assert (Forall P (js_sort cmp0 (filter P l))) as H1.
  { apply Forall_forall. intros y Hy%js_sort_elem_of.
    by apply list_elem_of_filter in Hy as [? _]. }
  assert (Forall (λ y, ¬ P y) (js_sort cmp0 (filter (λ x, ¬ P x) l))) as H2.
  { apply Forall_forall. intros y Hy%js_sort_elem_of.
    by apply list_elem_of_filter in Hy as [? _]. }
  change (js_sort cmp (x :: l)) with (js_insert cmp x (js_sort cmp l)).
  rewrite IH, !filter_cons.
  destruct (decide (P x)) as [Hx|Hx].
  - rewrite decide_False by tauto. by apply js_insert_first.
  - rewrite decide_True by done. by apply js_insert_second.
Qed.
End js_sort_groups.

(** The claim of C6 as worded fails: with [p] preferred, the non-preferred
    records [home] and [n1] do not keep their pool order. *)
Lemma C6_pool_order_counterexample :
  (sortedPool requestPreferP poolHomeN1P).*2 ≠ preferredThenPoolOrder ["p"] poolHomeN1P.
Proof. vm_compute. discriminate. Qed.

Lemma sortedPool_preferred request pool preferred :
  preferredServers request = Some preferred →
  preferred ≠ [] →
  (sortedPool request pool).*2
  = js_sort cmpDefault (filter (λ s, hostname s ∈ preferred) pool)
    ++ js_sort cmpDefault (filter (λ s, hostname s ∉ preferred) pool).
Proof.
  intros Hpref Hne. rewrite sortedPool_objects. unfold poolCmp. rewrite Hpref.
  destruct preferred as [|p ps]; [done|].
  apply (js_sort_groups (λ s, hostname s ∈ p :: ps)).
  - intros x y Hx Hy. unfold cmpPreferred.
    rewrite (bool_decide_eq_true_2 (hostname x ∈ _)) by by apply elem_of_list_to_set.
    rewrite (bool_decide_eq_false_2 (hostname y ∈ _)) by by rewrite elem_of_list_to_set.
    simpl. lia.
  - intros x y Hx Hy. unfold cmpPreferred.
    rewrite (bool_decide_eq_false_2 (hostname x ∈ _)) by by rewrite elem_of_list_to_set.
    rewrite (bool_decide_eq_true_2 (hostname y ∈ _)) by by apply elem_of_list_to_set.
    simpl. lia.
  - intros x y Hxy. unfold cmpPreferred.
    destruct (decide (hostname x ∈ p :: ps)) as [Hx|Hx].
    + rewrite !bool_decide_eq_true_2; [done|apply elem_of_list_to_set; tauto
                                       |by apply elem_of_list_to_set].
    + rewrite !bool_decide_eq_false_2; [done|rewrite elem_of_list_to_set; tauto
                                        |by rewrite elem_of_list_to_set].
Qed.

(** Where the wording of the specification does hold: on a working pool
    whose two groups are each already in the default order. *)
Lemma sortedPool_preferred_in_order request pool preferred :
  preferredServers request = Some preferred →
  preferred ≠ [] →
  StronglySorted defaultOrder (filter (λ s, hostname s ∈ preferred) pool) →
  StronglySorted defaultOrder (filter (λ s, hostname s ∉ preferred) pool) →
  (sortedPool request pool).*2 = preferredThenPoolOrder preferred pool.
Proof.
  intros Hpref Hne H1 H2. rewrite (sortedPool_preferred _ _ _ Hpref Hne).
  unfold preferredThenPoolOrder.
  rewrite !js_sort_sorted_id; [done|..];
    (eapply StronglySorted_weaken; [|eassumption]);
    intros a b; apply cmpDefault_order.
Qed.

(** C6, amended (ordering with preferred servers).  For a request with a
    non-empty [preferredServers] list the servers are visited with all
    preferred records first, then all the others; inside the preferred group
    and inside the non-preferred group the records are in the stable order
    of the default comparator: non-home before home, then by descending
    [availableRam], and only records that tie on both keep their relative
    pool order. *)
Theorem C6_preferred_then_default request pool preferred :
  preferredServers request = Some preferred →
  preferred ≠ [] →
  let first := js_sort cmpDefault (filter (λ s, hostname s ∈ preferred) pool) in
  let second := js_sort cmpDefault (filter (λ s, hostname s ∉ preferred) pool) in
  (sortedPool request pool).*2 = first ++ second
  ∧ Forall (λ s, hostname s ∈ preferred) first
  ∧ Forall (λ s, hostname s ∉ preferred) second
  ∧ StronglySorted defaultOrder first
  ∧ StronglySorted defaultOrder second
  ∧ (sortedPool request pool).*2 ≡ₚ pool.
Proof.
  intros Hpref Hne first second.
  assert (∀ l, StronglySorted defaultOrder (js_sort cmpDefault l)) as Hsorted.
  { intros l. apply (StronglySorted_weaken (λ a b, cmpDefault a b <= 0)).
    - intros a b. apply cmpDefault_order.
    - apply js_sort_sorted; [apply cmpDefault_total|apply cmpDefault_trans]. }
  split; [by apply sortedPool_preferred|].
  split; [|split; [|split; [|split]]].
  - apply Forall_forall. intros s Hs%js_sort_elem_of.
    by apply list_elem_of_filter in Hs as [? _].
  - apply Forall_forall. intros s Hs%js_sort_elem_of.
    by apply list_elem_of_filter in Hs as [? _].
  - apply Hsorted.
  - apply Hsorted.
  - rewrite sortedPool_objects. apply js_sort_perm.
Qed.

Lemma C6_preferred_then_default_witness :
  preferredServers requestPreferP = Some ["p"]
  ∧ ["p"] ≠ []
  ∧ (sortedPool requestPreferP poolHomeN1P).*2
    = js_sort cmpDefault (filter (λ s, hostname s ∈ ["p"]) poolHomeN1P)
      ++ js_sort cmpDefault (filter (λ s, hostname s ∉ ["p"]) poolHomeN1P).
Proof.
  assert (preferredServers requestPreferP = Some ["p"]) as Hpref by reflexivity.
  assert (["p"] ≠ @nil string) as Hne by discriminate.
  split; [exact Hpref|]. split; [exact Hne|].
  exact (proj1 (C6_preferred_then_default requestPreferP poolHomeN1P ["p"] Hpref Hne)).
Defined.

(** The scenario evaluated: [p] first, then [n1] before [home]. *)
Example preferred_scenario :
  hostname <$> (sortedPool requestPreferP poolHomeN1P).*2 = ["p"; "n1"; "home"]
  ∧ hostname <$> preferredThenPoolOrder ["p"] poolHomeN1P = ["p"; "home"; "n1"].
Proof. split; vm_compute; reflexivity. Qed.

(** ** The module registry *)

Section registry_facts.
Import Registry.

Lemma coherent_empty : coherent ∅.
Proof. intros k r. by rewrite lookup_empty. Qed.

Lemma coherent_insert m k r :
  Registry.name r = k → coherent m → coherent (<[k := r]> m).
Proof.
  intros Hr Hm k' r'. rewrite lookup_insert. case_decide; [|apply Hm].
  intros [= <-]. by subst.
Qed.

Lemma coherent_delete m k : coherent m → coherent (delete k m).
Proof.
  intros Hm k' r'. rewrite lookup_delete. case_decide; [done|apply Hm].
Qed.

Lemma loadRegistry_coherent env now :
  EnvCoherent env → coherent (modules (loadRegistry env now)).
Proof.
  intros [Hd Hf]. unfold loadRegistry.
  destruct (registryFile env) as [registry|] eqn:Hfile; simpl; [by apply Hf|done].
Qed.

Lemma saveRegistry_coherent env now modules' :
  EnvCoherent env → coherent modules' → EnvCoherent (saveRegistry env now modules').2.
Proof.
  intros [Hd Hf] Hm. unfold saveRegistry, mutateModules.
  destruct (registryFile env) as [registry|] eqn:Hfile; simpl.
  - destruct (writable env); simpl; split; try done.
    + by intros ? [= <-].
    + intros ? Hr. rewrite Hfile in Hr. by apply Hf.
  - destruct (writable env); simpl; split; try done.
    by intros ? [= <-].
Qed.

(** What a successful save leaves in the file. *)
Lemma saveRegistry_true env now modules' env' :
  saveRegistry env now modules' = (true, env') →
  registryFile env' = Some (mkRegistry modules' now).
Proof.
  unfold saveRegistry, mutateModules.
  destruct (registryFile env); simpl; destruct (writable env); simpl;
    by intros [= <-].
Qed.

Lemma updateRecord_coherent env now n f :
  (∀ m, Registry.name (f m) = Registry.name m) →
  EnvCoherent env → EnvCoherent (updateRecord env now n f).2.
Proof.
  intros Hf Henv. unfold updateRecord.
  destruct (modules (loadRegistry env now) !! n) as [m|] eqn:Hn; [|done].
  apply saveRegistry_coherent; [done|].
  apply coherent_insert; [|by apply loadRegistry_coherent].
  rewrite Hf. by apply (loadRegistry_coherent env now Henv).
Qed.

Lemma call_coherent env now op : EnvCoherent env → EnvCoherent (call env now op).2.
Proof.
  intros Henv. destruct op as [n sp c p cp stp|n|n st|n pd|n r a c|n cp stp|]; simpl.
  - unfold registerModule. destruct c as [c|]; [|done].
    apply saveRegistry_coherent; [done|].
    apply coherent_insert; [done|by apply loadRegistry_coherent].
  - unfold unregisterModule.
    destruct (modules (loadRegistry env now) !! n); [|done].
    apply saveRegistry_coherent; [done|].
    by apply coherent_delete, loadRegistry_coherent.
  - by apply updateRecord_coherent.
  - by apply updateRecord_coherent.
  - by apply updateRecord_coherent.
  - by apply updateRecord_coherent.
  - unfold clearRegistry. destruct Henv as [Hd Hf].
    destruct (writable env); simpl; split; try done.
    intros ? [= <-]. apply coherent_empty.
Qed.

Lemma calls_coherent ops env : EnvCoherent env → EnvCoherent (calls env ops).
Proof.
  revert env. induction ops as [|[now op] ops IH]; intros env Henv; [done|].
  apply IH. by apply call_coherent.
Qed.

Lemma freshEnv_coherent loadTime w : EnvCoherent (freshEnv loadTime w).
Proof. split; [apply coherent_empty|]. by intros ? [=]. Qed.

(** In a coherent table no two records carry the same name. *)
Lemma coherent_NoDup_names (m : gmap string RegisteredModule) :
  coherent m → NoDup (Registry.name <$> (map_to_list m).*2).
Proof.
  intros Hm.
  replace (Registry.name <$> (map_to_list m).*2) with ((map_to_list m).*1).
  - apply NoDup_fst_map_to_list.
  - rewrite <- list_fmap_compose. apply list_fmap_ext.
    intros i [k r] Hi. simpl. symmetry. apply Hm.
    apply elem_of_map_to_list. by eapply list_elem_of_lookup_2.
Qed.

Lemma moduleValues_elem env now r :
  r ∈ moduleValues env now ↔ ∃ k, modules (loadRegistry env now) !! k = Some r.
Proof.
  unfold moduleValues. rewrite list_elem_of_fmap. split.
  - intros ([k r'] & -> & Hkr). exists k. by apply elem_of_map_to_list.
  - intros [k Hk]. exists (k, r). split; [done|]. by apply elem_of_map_to_list.
Qed.

Lemma registerModule_true env now n sp c p cp stp env' :
  registerModule env now n sp c p cp stp = (true, env') →
  ∃ cfg, c = Some cfg
    ∧ registryFile env'
      = Some (mkRegistry (<[n := newRecord now n sp cfg p cp stp]>
                            (modules (loadRegistry env now))) now).
Proof.
  unfold registerModule. destruct c as [cfg|]; [|done].
  intros Hsave%saveRegistry_true. by exists cfg.
Qed.

Lemma getModuleStatus_file env now registry n :
  registryFile env = Some registry →
  getModuleStatus env now n = modules registry !! n.
Proof. intros Hf. unfold getModuleStatus, loadRegistry. by rewrite Hf. Qed.

Lemma loadRegistry_file env now registry :
  registryFile env = Some registry →
  modules (loadRegistry env now) = modules registry.
Proof. intros Hf. unfold loadRegistry. by rewrite Hf. Qed.

End registry_facts.

Section registry_claims.
Import Registry.

(** X26 (registration is an upsert for every name but ["__proto__"]).  Two
    successful [registerModule] calls with one name other than
    ["__proto__"] leave one record for the name, the second call's record,
    and do not grow the table; after any sequence of registry calls on a
    registry that began empty no two records carry the same name; a
    successful registration of a name other than ["__proto__"] leaves its
    record in state [stopped]; and repeating a successful registration with
    the same arguments at the same clock reading changes nothing. *)
Theorem X26_register_upsert :
  (∀ env t1 t2 now n sp1 c1 p1 cp1 stp1 sp2 c2 p2 cp2 stp2 env1 env2,
      n ≠ "__proto__" →
      EnvCoherent env →
      registerModule env t1 n sp1 c1 p1 cp1 stp1 = (true, env1) →
      registerModule env1 t2 n sp2 c2 p2 cp2 stp2 = (true, env2) →
      ∃ cfg2, c2 = Some cfg2
        ∧ getModuleStatus env2 now n = Some (newRecord t2 n sp2 cfg2 p2 cp2 stp2)
        ∧ (∀ r, r ∈ moduleValues env2 now → Registry.name r = n →
                r = newRecord t2 n sp2 cfg2 p2 cp2 stp2)
        ∧ size (modules (loadRegistry env2 now)) = size (modules (loadRegistry env1 now)))
  ∧ (∀ loadTime w ops now,
      let table := modules (loadRegistry (calls (freshEnv loadTime w) ops) now) in
      NoDup (Registry.name <$> moduleValues (calls (freshEnv loadTime w) ops) now)
      ∧ ∀ k1 k2 r1 r2,
          table !! k1 = Some r1 → table !! k2 = Some r2 →
          Registry.name r1 = Registry.name r2 → k1 = k2)
  ∧ (∀ env t now n sp c p cp stp env',
      n ≠ "__proto__" →
      registerModule env t n sp c p cp stp = (true, env') →
      ∃ r, getModuleStatus env' now n = Some r ∧ status r = stopped)
  ∧ (∀ env t n sp c p cp stp env',
      registerModule env t n sp c p cp stp = (true, env') →
      registerModule env' t n sp c p cp stp = (true, env')).
Proof.
  split; [|split; [|split]].
  - intros env t1 t2 now n sp1 c1 p1 cp1 stp1 sp2 c2 p2 cp2 stp2 env1 env2 _ Henv H1 H2.
    assert (EnvCoherent env1) as Henv1.
    { pose proof (call_coherent env t1 (OpRegister n sp1 c1 p1 cp1 stp1) Henv) as Hc.
      simpl in Hc. by rewrite H1 in Hc. }
    assert (EnvCoherent env2) as Henv2.
    { pose proof (call_coherent env1 t2 (OpRegister n sp2 c2 p2 cp2 stp2) Henv1) as Hc.
      simpl in Hc. by rewrite H2 in Hc. }
    destruct (registerModule_true _ _ _ _ _ _ _ _ _ H1) as (cfg1 & -> & Hf1).
    destruct (registerModule_true _ _ _ _ _ _ _ _ _ H2) as (cfg2 & -> & Hf2).
    exists cfg2. split; [done|].
    rewrite (loadRegistry_file env1 t2 _ Hf1) in Hf2. simpl in Hf2.
    split; [|split].
    + rewrite (getModuleStatus_file env2 now _ n Hf2). simpl. apply lookup_insert_eq.
    + intros r [k Hk]%moduleValues_elem Hr.
      pose proof (loadRegistry_coherent env2 now Henv2 k r Hk) as Hkr.
      rewrite (loadRegistry_file env2 now _ Hf2) in Hk. simpl in Hk.
      rewrite Hr in Hkr. subst k. rewrite lookup_insert_eq in Hk. by injection Hk.
    + rewrite (loadRegistry_file env2 now _ Hf2), (loadRegistry_file env1 now _ Hf1).
      simpl. apply map_size_insert_Some. rewrite lookup_insert_eq. eauto.
  - intros loadTime w ops now table.
    pose proof (loadRegistry_coherent _ now
                  (calls_coherent ops _ (freshEnv_coherent loadTime w))) as Hc.
    split; [by apply coherent_NoDup_names|].
    intros k1 k2 r1 r2 H1 H2 Heq.
    rewrite <- (Hc k1 r1 H1), <- (Hc k2 r2 H2). done.
  - intros env t now n sp c p cp stp env' _ Hreg.
    destruct (registerModule_true _ _ _ _ _ _ _ _ _ Hreg) as (cfg & -> & Hf).
    exists (newRecord t n sp cfg p cp stp). split; [|done].
    rewrite (getModuleStatus_file env' now _ n Hf). simpl. apply lookup_insert_eq.
  - intros env t n sp c p cp stp env' Hreg.
    destruct (registerModule_true _ _ _ _ _ _ _ _ _ Hreg) as (cfg & -> & Hf).
    assert (writable env' = true) as Hw.
    { revert Hreg. unfold registerModule, saveRegistry, mutateModules.
      destruct (registryFile env); simpl; destruct (writable env) eqn:Hw; simpl;
        by intros [= <-]. }
    unfold registerModule, saveRegistry, mutateModules.
    rewrite (loadRegistry_file env' t _ Hf), Hf. simpl. rewrite Hw, insert_insert_eq.
    destruct env' as [file dm dl w]. simpl in *. by subst.
Qed.

Lemma X26_register_upsert_witness :
  "xp" ≠ "__proto__"
  ∧ EnvCoherent (freshEnv 0 true)
  ∧ registerModule (freshEnv 0 true) 1 "xp" "/xp.ts" (Some configA) 90 1 2
    = (true, envRegistered)
  ∧ registerModule envRegistered 2 "xp" "/xp2.ts" (Some configB) 80 3 4
    = (true, envReregistered)
  ∧ ∃ cfg2, Some configB = Some cfg2
      ∧ getModuleStatus envReregistered 5 "xp"
        = Some (newRecord 2 "xp" "/xp2.ts" cfg2 80 3 4)
      ∧ (∀ r, r ∈ moduleValues envReregistered 5 → Registry.name r = "xp" →
              r = newRecord 2 "xp" "/xp2.ts" cfg2 80 3 4)
      ∧ size (modules (loadRegistry envReregistered 5))
        = size (modules (loadRegistry envRegistered 5)).
Proof.
  assert ("xp" ≠ "__proto__") as Hn by discriminate.
  assert (EnvCoherent (freshEnv 0 true)) as Henv by apply freshEnv_coherent.
  assert (registerModule (freshEnv 0 true) 1 "xp" "/xp.ts" (Some configA) 90 1 2
          = (true, envRegistered)) as H1 by reflexivity.
  assert (registerModule envRegistered 2 "xp" "/xp2.ts" (Some configB) 80 3 4
          = (true, envReregistered)) as H2 by reflexivity.
  split; [exact Hn|]. split; [exact Henv|]. split; [exact H1|]. split; [exact H2|].
  exact (proj1 X26_register_upsert (freshEnv 0 true) 1 2 5 "xp" "/xp.ts" (Some configA)
           90 1 2 "/xp2.ts" (Some configB) 80 3 4 envRegistered envReregistered
           Hn Henv H1 H2).
Defined.

(** X27 (re-registration replaces the record).  If a name other than
    ["__proto__"] is registered, whatever its record holds, a successful
    [registerModule] for that name stores the freshly built record in its
    place: state [stopped], no [pid], [allocated] and [actual] zero, and
    nothing of the old record. *)
Theorem X27_reregister_replaces env t now n sp c p cp stp env' old :
  n ≠ "__proto__" →
  getModuleStatus env t n = Some old →
  registerModule env t n sp c p cp stp = (true, env') →
  ∃ cfg r,
    c = Some cfg
    ∧ getModuleStatus env' now n = Some r
    ∧ r = newRecord t n sp cfg p cp stp
    ∧ status r = stopped
    ∧ pid r = None
    ∧ allocated (ramAllocation r) = 0
    ∧ actual (ramAllocation r) = 0.
Proof.
  intros _ _ Hreg.
  destruct (registerModule_true _ _ _ _ _ _ _ _ _ Hreg) as (cfg & -> & Hf).
  exists cfg, (newRecord t n sp cfg p cp stp).
  split; [done|]. split; [|done].
  rewrite (getModuleStatus_file env' now _ n Hf). simpl. apply lookup_insert_eq.
Qed.

End registry_claims.

(** ** Topology scan and change detection *)

Section network_facts.
Import Network.

(** On a network whose hosts all lie in a finite [universe] closed under
    [scan], the loop finishes within the pending work. *)
Lemma scanLoop_terminates ns universe :
  (∀ h n, h ∈ universe → n ∈ scan ns h → n ∈ universe) →
  ∀ fuel discovered queue,
    (∀ h, h ∈ queue → h ∈ universe) →
    (length queue + pending (scan ns) universe discovered ≤ fuel)%nat →
    is_Some (scanLoop fuel ns discovered queue).
Proof.
  intros Hclosed fuel.
  induction fuel as [|fuel IH]; intros discovered queue Hq Hfuel.
  - destruct queue; simpl in *; [eauto|lia].
  - destruct queue as [|current rest]; simpl; [eauto|].
    case_bool_decide as Hd.
    + apply IH; [intros h Hh; apply Hq; by constructor|]. simpl in Hfuel. lia.
    + assert (current ∈ universe) as Hcur by (apply Hq; by constructor).
      apply IH.
      * intros h [Hh|Hh]%elem_of_app; [apply Hq; by constructor|].
        apply list_elem_of_filter in Hh as [_ Hh]. by eapply Hclosed.
      * pose proof (pending_discover (scan ns) universe discovered current Hcur Hd).
        pose proof (length_filter (λ neighbor, neighbor ∉ discovered ++ [current])
                      (scan ns current)).
        rewrite length_app. simpl in Hfuel. lia.
Qed.

(** More fuel never changes a result. *)
Lemma scanLoop_fuel_mono ns fuel fuel' discovered queue result :
  (fuel ≤ fuel')%nat →
  scanLoop fuel ns discovered queue = Some result →
  scanLoop fuel' ns discovered queue = Some result.
Proof.
  revert fuel' discovered queue.
  induction fuel as [|fuel IH]; intros fuel' discovered queue Hle Hres.
  - destruct queue; simpl in Hres; [|done]. by destruct fuel'.
  - destruct fuel' as [|fuel'']; [lia|].
    destruct queue as [|current rest]; simpl in *; [done|].
    case_bool_decide; apply IH; (lia || done).
Qed.

Lemma detectNetworkChanges_Some fuel ns current oldState :
  scanEntireNetwork fuel ns = Some current →
  ∃ changes,
    detectNetworkChanges fuel ns (Some oldState) = Some changes
    ∧ newServers changes = notIn (allServers oldState) current
    ∧ newlyRooted changes
      = notIn (rootedServers oldState) (filter (λ h, hasRootAccess ns h = true) current)
    ∧ newlyPurchased changes
      = notIn (purchasedServers oldState)
          (filter (λ h, purchasedByPlayer (getServer ns h) = true) current).
Proof.
  intros Hscan. unfold detectNetworkChanges, getPurchasedServers, getHackableServers.
  rewrite Hscan. simpl. eauto.
Qed.

Lemma detectNetworkChanges_None fuel ns current :
  scanEntireNetwork fuel ns = Some current →
  detectNetworkChanges fuel ns None
  = Some (mkChanges current
            (filter (λ h, hasRootAccess ns h = true) current)
            (filter (λ h, purchasedByPlayer (getServer ns h) = true) current)
            false (Z.of_nat (length current))).
Proof.
  intros Hscan. unfold detectNetworkChanges, getPurchasedServers.
  rewrite Hscan. done.
Qed.

(** C8 (change detection).  Once the scan has produced the current list of
    servers, [detectNetworkChanges] reports as new exactly the current
    servers absent from the previous [allServers], and as newly rooted
    exactly the currently rooted servers absent from the previous
    [rootedServers]; with no previous state it reports every current server
    and every currently rooted server.  The scan does produce its list on
    every finite network, given fuel for the pending work.  On the network
    home - B - C with home and B rooted, against the previous state
    [{home, B}] with [{home}] rooted, the report is [newServers = [C]] and
    [newlyRooted = [B]]. *)
Theorem C8_change_detection :
  (∀ fuel ns current oldState,
      scanEntireNetwork fuel ns = Some current →
      ∃ changes,
        detectNetworkChanges fuel ns (Some oldState) = Some changes
        ∧ (∀ h, h ∈ newServers changes ↔ h ∈ current ∧ h ∉ allServers oldState)
        ∧ (∀ h, h ∈ newlyRooted changes ↔
                (h ∈ current ∧ hasRootAccess ns h = true) ∧ h ∉ rootedServers oldState))
  ∧ (∀ fuel ns current,
      scanEntireNetwork fuel ns = Some current →
      ∃ changes,
        detectNetworkChanges fuel ns None = Some changes
        ∧ newServers changes = current
        ∧ (∀ h, h ∈ newlyRooted changes ↔ h ∈ current ∧ hasRootAccess ns h = true))
  ∧ (∀ ns universe fuel,
      "home" ∈ universe →
      (∀ h n, h ∈ universe → n ∈ scan ns h → n ∈ universe) →
      (1 + sum_list_with (λ h, length (scan ns h)) universe ≤ fuel)%nat →
      ∀ oldState, is_Some (detectNetworkChanges fuel ns oldState))
  ∧ scanEntireNetwork 10 nsABC = Some ["home"; "B"; "C"]
  ∧ detectNetworkChanges 10 nsABC (Some oldAB) = Some (mkChanges ["C"] ["B"] [] false 2)
  ∧ detectNetworkChanges 10 nsABC None
    = Some (mkChanges ["home"; "B"; "C"] ["home"; "B"] [] false 3).
Proof.
  split; [|split; [|split; [|split; [|split]]]].
  - intros fuel ns current oldState Hscan.
    destruct (detectNetworkChanges_Some fuel ns current oldState Hscan)
      as (changes & Hd & Hnew & Hroot & _).
    exists changes. split; [done|]. rewrite Hnew, Hroot. unfold notIn.
    split; intros h; rewrite !list_elem_of_filter; tauto.
  - intros fuel ns current Hscan. eexists. split; [by apply detectNetworkChanges_None|].
    simpl. split; [done|]. intros h. rewrite list_elem_of_filter. tauto.
  - intros ns universe fuel Hhome Hclosed Hfuel oldState.
    assert (is_Some (scanEntireNetwork fuel ns)) as [current Hscan].
    { apply (scanLoop_terminates ns universe Hclosed).
      - intros h ->%list_elem_of_singleton. done.
      - rewrite pending_nil. simpl. lia. }
    destruct oldState as [oldState|].
    + destruct (detectNetworkChanges_Some fuel ns current oldState Hscan) as (c & -> & _).
      eauto.
    + rewrite (detectNetworkChanges_None fuel ns current Hscan). eauto.
  - vm_compute. reflexivity.
  - vm_compute. reflexivity.
  - vm_compute. reflexivity.
Qed.

End network_facts.

Section network_witness.
Import Network.

Lemma C8_change_detection_witness :
  (scanEntireNetwork 10 nsABC = Some ["home"; "B"; "C"]
   ∧ ∃ changes,
       detectNetworkChanges 10 nsABC (Some oldAB) = Some changes
       ∧ (∀ h, h ∈ newServers changes ↔ h ∈ ["home"; "B"; "C"] ∧ h ∉ allServers oldAB)
       ∧ (∀ h, h ∈ newlyRooted changes ↔
               (h ∈ ["home"; "B"; "C"] ∧ hasRootAccess nsABC h = true)
               ∧ h ∉ rootedServers oldAB))
  ∧ ("home" ∈ ["home"; "B"; "C"]
     ∧ (∀ h n, h ∈ ["home"; "B"; "C"] → n ∈ scan nsABC h → n ∈ ["home"; "B"; "C"])
     ∧ (1 + sum_list_with (λ h, length (scan nsABC h)) ["home"; "B"; "C"] ≤ 5)%nat
     ∧ is_Some (detectNetworkChanges 5 nsABC (Some oldAB))).
Proof.
  assert (scanEntireNetwork 10 nsABC = Some ["home"; "B"; "C"]) as Hscan
    by (vm_compute; reflexivity).
  assert ("home" ∈ ["home"; "B"; "C"]) as Hhome by constructor.
  assert (∀ h n, h ∈ ["home"; "B"; "C"] → n ∈ scan nsABC h → n ∈ ["home"; "B"; "C"])
    as Hclosed.
  { intros h n Hh. repeat (apply elem_of_cons in Hh as [->|Hh]);
      [..|by apply elem_of_nil in Hh]; simpl; unfold scanABC; simpl; intros Hn;
      repeat (apply elem_of_cons in Hn as [->|Hn]);
      try (by apply elem_of_nil in Hn);
      apply (bool_decide_unpack _); vm_compute; exact I. }
  assert (1 + sum_list_with (λ h, length (scan nsABC h)) ["home"; "B"; "C"] ≤ 5)%nat
    as Hfuel by (vm_compute; lia).
  split.
  - split; [exact Hscan|].
    exact (proj1 C8_change_detection 10%nat nsABC ["home"; "B"; "C"] oldAB Hscan).
  - split; [exact Hhome|]. split; [exact Hclosed|]. split; [exact Hfuel|].
    exact (proj1 (proj2 (proj2 C8_change_detection)) nsABC ["home"; "B"; "C"] 5%nat
             Hhome Hclosed Hfuel (Some oldAB)).
Defined.

End network_witness.

(** ** Mailbox *)

Section mailbox_facts.
Import Mailbox.
Context {D : Type} (capacity : nat) (validPort : Z → bool).

Lemma portQueue_insert (ports : gmap Z (list (MessageData D))) port q :
  portQueue (<[port := q]> ports) port = q.
Proof. unfold portQueue. by rewrite lookup_insert_eq. Qed.

(** The queue a send leaves: the message alone if the port was full, the
    message behind the waiting ones otherwise. *)
Lemma sendMessage_queue (ports : gmap Z (list (MessageData D))) now port (message : D) :
  validPort port = true →
  (0 < capacity)%nat →
  (length (portQueue ports port) ≤ capacity)%nat →
  (sendMessage capacity validPort ports now port message).1 = true
  ∧ portQueue (sendMessage capacity validPort ports now port message).2 port
    = (if full capacity (portQueue ports port) then [] else portQueue ports port)
      ++ [mkMessage now message].
Proof.
  intros Hvalid Hcap Hlen. unfold sendMessage. rewrite Hvalid. simpl.
  split; [done|]. rewrite portQueue_insert. unfold write, full, clear.
  destruct (decide (length (portQueue ports port) = capacity)) as [Hfull|Hfull].
  - rewrite (bool_decide_eq_true_2 _ Hfull). simpl.
    rewrite bool_decide_eq_false_2; [done|lia].
  - rewrite (bool_decide_eq_false_2 _ Hfull).
    rewrite bool_decide_eq_false_2; [done|]. rewrite length_app. simpl. lia.
Qed.

Lemma hasMessages_nonempty (ports : gmap Z (list (MessageData D))) port :
  validPort port = true →
  hasMessages validPort ports port = true ↔ portQueue ports port ≠ [].
Proof.
  intros Hvalid. unfold hasMessages, empty. rewrite Hvalid.
  destruct (portQueue ports port); simpl; by split.
Qed.

End mailbox_facts.

Section mailbox_claims.
Import Mailbox.

(** C9 (overwrite on full).  On a valid port a send succeeds; if the port
    was full the send clears it and leaves the new message alone in it,
    otherwise the message joins the queue; after a send [hasMessages] is
    true.  With capacity 1, three sends without a read leave exactly the
    third message; [hasMessages] is true after each send, and false once
    that message has been received. *)
Theorem C9_overwrite_on_full (D : Type) (validPort : Z → bool)
    (ports : gmap Z (list (MessageData D))) (port : Z) :
  validPort port = true →
  (∀ capacity now (message : D),
      (0 < capacity)%nat →
      (length (portQueue ports port) ≤ capacity)%nat →
      let sent := sendMessage capacity validPort ports now port message in
      sent.1 = true
      ∧ portQueue sent.2 port
        = (if full capacity (portQueue ports port) then [] else portQueue ports port)
          ++ [mkMessage now message]
      ∧ hasMessages validPort sent.2 port = true)
  ∧ (∀ t1 t2 t3 (m1 m2 m3 : D),
      (length (portQueue ports port) ≤ 1)%nat →
      let ports1 := (sendMessage 1 validPort ports t1 port m1).2 in
      let ports2 := (sendMessage 1 validPort ports1 t2 port m2).2 in
      let ports3 := (sendMessage 1 validPort ports2 t3 port m3).2 in
      portQueue ports3 port = [mkMessage t3 m3]
      ∧ hasMessages validPort ports1 port = true
      ∧ hasMessages validPort ports2 port = true
      ∧ hasMessages validPort ports3 port = true
      ∧ (receiveMessage validPort ports3 port).1 = Some m3
      ∧ hasMessages validPort (receiveMessage validPort ports3 port).2 port = false).
Proof.
  intros Hvalid. split.
  - intros capacity now message Hcap Hlen sent.
    destruct (sendMessage_queue capacity validPort ports now port message
                Hvalid Hcap Hlen) as [Hok Hq].
    split; [done|]. split; [done|].
    apply hasMessages_nonempty; [done|]. fold sent in Hq. rewrite Hq.
    by destruct (if full capacity (portQueue ports port) then _ else _).
  - intros t1 t2 t3 m1 m2 m3 Hlen ports1 ports2 ports3.
    assert (∀ (ps : gmap Z (list (MessageData D))) t m,
              (length (portQueue ps port) ≤ 1)%nat →
              portQueue (sendMessage 1 validPort ps t port m).2 port = [mkMessage t m])
      as Hone.
    { intros ps t m Hps.
      destruct (sendMessage_queue 1 validPort ps t port m Hvalid) as [_ Hq];
        [lia|done|].
      rewrite Hq. unfold full.
      destruct (portQueue ps port) as [|x [|y q]]; simpl in *; [done|done|lia]. }
    assert (portQueue ports1 port = [mkMessage t1 m1]) as H1 by by apply Hone.
    assert (portQueue ports2 port = [mkMessage t2 m2]) as H2
      by (apply Hone; rewrite H1; simpl; lia).
    assert (portQueue ports3 port = [mkMessage t3 m3]) as H3
      by (apply Hone; rewrite H2; simpl; lia).
    split; [done|].
    split; [apply hasMessages_nonempty; [done|by rewrite H1]|].
    split; [apply hasMessages_nonempty; [done|by rewrite H2]|].
    split; [apply hasMessages_nonempty; [done|by rewrite H3]|].
    unfold receiveMessage. rewrite Hvalid, H3. simpl. split; [done|].
    unfold hasMessages. rewrite Hvalid, portQueue_insert. done.
Qed.

Lemma C9_overwrite_on_full_witness :
  fromOne 1 = true
  ∧ (length (portQueue noMessages 1) ≤ 1)%nat
  ∧ portQueue sentThird 1 = [mkMessage 30 "third"]
  ∧ hasMessages fromOne sentFirst 1 = true
  ∧ hasMessages fromOne sentSecond 1 = true
  ∧ hasMessages fromOne sentThird 1 = true
  ∧ (receiveMessage fromOne sentThird 1).1 = Some "third"
  ∧ hasMessages fromOne (receiveMessage fromOne sentThird 1).2 1 = false.
Proof.
  assert (fromOne 1 = true) as Hvalid by reflexivity.
  assert (length (portQueue noMessages 1) ≤ 1)%nat as Hlen by (vm_compute; lia).
  split; [exact Hvalid|]. split; [exact Hlen|].
  exact (proj2 (C9_overwrite_on_full string fromOne noMessages 1 Hvalid)
           10 20 30 "first" "second" "third" Hlen).
Defined.

End mailbox_claims.

Section registry_witnesses.
Import Registry.

Lemma X27_reregister_replaces_witness :
  "xp" ≠ "__proto__"
  ∧ getModuleStatus registeredAndRunning 5 "xp" = Some recordRunning
  ∧ registerModule registeredAndRunning 5 "xp" "/xp.ts" (Some configB) 90 1 2
    = (true, envReplaced)
  ∧ ∃ cfg r,
      Some configB = Some cfg
      ∧ getModuleStatus envReplaced 6 "xp" = Some r
      ∧ r = newRecord 5 "xp" "/xp.ts" cfg 90 1 2
      ∧ status r = stopped
      ∧ pid r = None
      ∧ allocated (ramAllocation r) = 0
      ∧ actual (ramAllocation r) = 0.
Proof.
  assert (getModuleStatus registeredAndRunning 5 "xp" = Some recordRunning) as Hold
    by (vm_compute; reflexivity).
  assert (registerModule registeredAndRunning 5 "xp" "/xp.ts" (Some configB) 90 1 2
          = (true, envReplaced)) as Hreg by reflexivity.
  assert ("xp" ≠ "__proto__") as Hn by discriminate.
  split; [exact Hn|]. split; [exact Hold|]. split; [exact Hreg|].
  exact (X27_reregister_replaces registeredAndRunning 5 6 "xp" "/xp.ts" (Some configB)
           90 1 2 envReplaced recordRunning Hn Hold Hreg).
Defined.

End registry_witnesses.

Section allocator_witnesses.
Import Allocator.


End allocator_witnesses.

(** * Further properties of the code *)

(** ** What the breadth-first scan finds *)

Section scan_facts.
Import Network.

(** The loop keeps: no host twice, only reachable hosts, and every
    neighbour of a discovered host either discovered or queued. *)
Lemma scanLoop_sound ns fuel :
  ∀ discovered queue result,
    NoDup discovered →
    (∀ h, h ∈ discovered ++ queue → reachable (scan ns) h) →
    (∀ h n, h ∈ discovered → n ∈ scan ns h → n ∈ discovered ++ queue) →
    scanLoop fuel ns discovered queue = Some result →
    NoDup result
    ∧ discovered `prefix_of` result
    ∧ (∀ h, h ∈ queue → h ∈ result)
    ∧ (∀ h, h ∈ result → reachable (scan ns) h)
    ∧ (∀ h n, h ∈ result → n ∈ scan ns h → n ∈ result).
Proof.
  induction fuel as [|fuel IH]; intros discovered queue result Hnd Hreach Hclosed Hres.
  - destruct queue; simpl in Hres; [|done]. simplify_eq.
    split; [done|]. split; [done|]. split; [by intros h ?%elem_of_nil|].
    split.
    + intros h Hh. apply Hreach. by rewrite app_nil_r.
    + intros h n Hh Hn. specialize (Hclosed h n Hh Hn). by rewrite app_nil_r in Hclosed.
  - destruct queue as [|current rest]; simpl in Hres.
    { simplify_eq. split; [done|]. split; [done|]. split; [by intros h ?%elem_of_nil|].
      split.
      - intros h Hh. apply Hreach. by rewrite app_nil_r.
      - intros h n Hh Hn. specialize (Hclosed h n Hh Hn).
        by rewrite app_nil_r in Hclosed. }
    case_bool_decide as Hcur.
    + destruct (IH discovered rest result Hnd) as (H1 & H2 & H3 & H4 & H5); [| |done|].
      * intros h Hh. apply Hreach. set_solver.
      * intros h n Hh Hn. specialize (Hclosed h n Hh Hn). set_solver.
      * split; [done|]. split; [done|]. split; [|done].
        intros h [->|Hh]%elem_of_cons; [|by apply H3].
        destruct H2 as [k ->]. set_solver.
    + destruct (IH (discovered ++ [current])
                  (rest ++ filter (λ neighbor, neighbor ∉ discovered ++ [current])
                             (scan ns current))
                  result) as (H1 & H2 & H3 & H4 & H5); [| | |done|].
      * apply NoDup_app. split; [done|]. split; [|apply NoDup_singleton].
        intros h Hh ->%list_elem_of_singleton. done.
      * intros h Hh. rewrite !elem_of_app, list_elem_of_singleton in Hh.
        destruct Hh as [[Hh| ->]|[Hh|Hh]].
        -- apply Hreach. set_solver.
        -- apply Hreach. set_solver.
        -- apply Hreach. set_solver.
        -- apply list_elem_of_filter in Hh as [_ Hh].
           eapply reachable_step; [|exact Hh]. apply Hreach. set_solver.
      * intros h n Hh Hn. rewrite elem_of_app, list_elem_of_singleton in Hh.
        destruct (decide (n ∈ discovered ++ [current])) as [Hin|Hout];
          [apply elem_of_app; by left|].
        apply elem_of_app. right. destruct Hh as [Hh| ->].
        -- specialize (Hclosed h n Hh Hn). set_solver.
        -- apply elem_of_app. right. by apply list_elem_of_filter.
      * split; [done|]. split; [|split; [|done]].
        -- etrans; [|exact H2]. by apply prefix_app_r.
        -- intros h [->|Hh]%elem_of_cons; [|apply H3; set_solver].
           destruct H2 as [k ->]. set_solver.
Qed.

Lemma reachable_closed scan (found : list string) :
  "home" ∈ found →
  (∀ h n, h ∈ found → n ∈ scan h → n ∈ found) →
  ∀ h, reachable scan h → h ∈ found.
Proof. intros Hhome Hclosed h. induction 1; eauto. Qed.

Lemma scanEntireNetwork_sound fuel ns result :
  scanEntireNetwork fuel ns = Some result →
  NoDup result
  ∧ (∀ h, h ∈ result ↔ reachable (scan ns) h)
  ∧ head result = Some "home".
Proof.
  intros Hres. unfold scanEntireNetwork in Hres.
  destruct (scanLoop_sound ns fuel [] ["home"] result) as (H1 & _ & H3 & H4 & H5);
    [constructor| | |done|].
  { intros h ->%list_elem_of_singleton. constructor. }
  { by intros h n ?%elem_of_nil. }
  assert ("home" ∈ result) as Hhome by (apply H3; constructor).
  split; [done|]. split.
  - intros h. split; [apply H4|]. by apply reachable_closed.
  - destruct fuel as [|fuel]; [done|]. simpl in Hres.
    destruct (scanLoop_sound ns fuel ["home"]
                (filter (λ neighbor, neighbor ∉ ["home"]) (scan ns "home")) result)
      as (_ & [k ->] & _); [apply NoDup_singleton| | |done|done].
    + intros h [->%list_elem_of_singleton|Hh]%elem_of_app; [constructor|].
      apply list_elem_of_filter in Hh as [_ Hh].
      eapply reachable_step; [constructor|done].
    + intros h n ->%list_elem_of_singleton Hn.
      destruct (decide (n ∈ ["home"])); [set_solver|].
      apply elem_of_app. right. by apply list_elem_of_filter.
Qed.

End scan_facts.

(** ** More on the allocator *)

(** X3 (what is handed out is what left the pool).  With RAM amounts added
    and subtracted exactly, as they are for integral amounts whose sums stay
    below 2^53: for every pool and every list of requests, the total of
    [calculateTotalAllocated] over the result of [allocateResources] is
    non-negative and, together with the usable RAM left in the working
    pool, at most the usable RAM of the input pool; on a pool whose host
    names are distinct and none of which is ["__proto__"] the two add up to
    it exactly. *)
Theorem X3_total_conserved pool requests :
  0 <= calculateTotalAllocated (allocateResources pool requests)
  ∧ calculateTotalAllocated (allocateResources pool requests)
    + totalAvailable (allocateResourcesRun pool requests).2 <= totalAvailable pool
  ∧ calculateTotalAllocated (allocateResources pool requests) <= totalAvailable pool
  ∧ (NoDup (hostname <$> pool) →
     "__proto__" ∉ hostname <$> pool →
     calculateTotalAllocated (allocateResources pool requests)
     + totalAvailable (allocateResourcesRun pool requests).2 = totalAvailable pool).
Proof.
  rewrite calculateTotalAllocated_sum, allocateResources_processRequests.
  assert ((allocateResourcesRun pool requests).2
          = (processRequests (sortedRequests requests) pool).2) as ->.
  { unfold allocateResourcesRun.
    by destruct (processRequests (sortedRequests requests) pool). }
  destruct (processRequests_conserves (sortedRequests requests) pool) as (H0 & H1 & H2).
  pose proof (totalAvailable_nonneg (processRequests (sortedRequests requests) pool).2).
  split; [done|]. split; [done|]. split; [lia|done].
Qed.

Lemma X3_total_conserved_witness :
  NoDup (hostname <$> poolHomeN1)
  ∧ ("__proto__" ∉ hostname <$> poolHomeN1)
  ∧ calculateTotalAllocated (allocateResources poolHomeN1 [requestLow; requestM1])
    + totalAvailable (allocateResourcesRun poolHomeN1 [requestLow; requestM1]).2
    = totalAvailable poolHomeN1.
Proof.
  assert (NoDup (hostname <$> poolHomeN1)) as Hnd
    by (apply (bool_decide_unpack _); vm_compute; exact I).
  assert ("__proto__" ∉ hostname <$> poolHomeN1) as Hproto
    by (apply (bool_decide_unpack _); vm_compute; exact I).
  split; [exact Hnd|]. split; [exact Hproto|].
  exact (proj2 (proj2 (proj2 (X3_total_conserved poolHomeN1 [requestLow; requestM1])))
           Hnd Hproto).
Defined.

(** On the pool [["__proto__", avail 10]] the failed request [{min 20}]
    hands out nothing and leaves nothing in the pool. *)
Example proto_scenario :
  calculateTotalAllocated (allocateResources poolProto [requestFloor20]) = 0
  ∧ totalAvailable (allocateResourcesRun poolProto [requestFloor20]).2 = 0
  ∧ totalAvailable poolProto = 10.
Proof. repeat split; vm_compute; reflexivity. Qed.

(** With two records of one name the books need not balance: 15 is handed
    out, the entries keep 10 of it. *)
Example twins_scenario :
  allocateResources poolTwins [requestAll] = [ mkAllocation "m" 15 {[ "a" := 10 ]} ].
Proof. vm_compute. reflexivity. Qed.

(** Every server is visited once, so a visit finds it as the pool had it.
    An invariant kept by such visits is kept by the loop. *)
Lemma distribute_visits (pool0 : list ServerResource) targetRam order0
    (Q : LoopState → Prop) :
  (∀ st i server,
      Q st → i ∈ order0 → pool0 !! i = Some server → loopPool st !! i = Some server →
      totalAllocated st < targetRam → 0 < availableRam server →
      Q (takeStep targetRam i server st)) →
  ∀ order st,
    order ⊆ order0 →
    NoDup order →
    (∀ i, i ∈ order → loopPool st !! i = pool0 !! i) →
    Q st → Q (distribute targetRam order st).
Proof.
  intros Hstep.
  apply (distribute_cases targetRam (λ order st st',
    order ⊆ order0 → NoDup order →
    (∀ i, i ∈ order → loopPool st !! i = pool0 !! i) → Q st → Q st'));
    try done.
  - intros i rest st st' _ _ IH Hsub Hord Hsame HQ.
    apply NoDup_cons in Hord as [_ Hord]. apply IH; [|done| |done].
    + intros j Hj. apply Hsub. by constructor.
    + intros j Hj. apply Hsame. by constructor.
  - intros i rest st st' server Hlt Hi Hpos IH Hsub Hord Hsame HQ.
    apply NoDup_cons in Hord as [Hirest Hord].
    assert (pool0 !! i = Some server) as Hi0
      by (rewrite <- Hsame by constructor; done).
    apply IH; [|done| |apply Hstep; try done; apply Hsub; constructor].
    + intros j Hj. apply Hsub. by constructor.
    + intros j Hj. unfold takeStep; simpl. rewrite list_lookup_insert_ne.
      * apply Hsame. by constructor.
      * by intros ->.
Qed.

(** On distinct host names a visited server has no entry yet. *)
Lemma distribute_visits_fresh (pool0 : list ServerResource) targetRam
  (Q : LoopState → Prop) :
  NoDup (hostname <$> pool0) →
  (∀ st i server,
      Q st → pool0 !! i = Some server → loopPool st !! i = Some server →
      loopAllocations st !! hostname server = None →
      totalAllocated st < targetRam → 0 < availableRam server →
      Q (takeStep targetRam i server st)) →
  ∀ order st,
    NoDup order →
    (∀ i, i ∈ order → loopPool st !! i = pool0 !! i) →
    (∀ i s, i ∈ order → pool0 !! i = Some s → loopAllocations st !! hostname s = None) →
    Q st → Q (distribute targetRam order st).
Proof.
  intros Hnd Hstep.
  apply (distribute_cases targetRam (λ order st st',
    NoDup order →
    (∀ i, i ∈ order → loopPool st !! i = pool0 !! i) →
    (∀ i s, i ∈ order → pool0 !! i = Some s → loopAllocations st !! hostname s = None) →
    Q st → Q st')); try done.
  - intros i rest st st' _ _ IH Hord Hsame Hfresh HQ.
    apply NoDup_cons in Hord as [_ Hord]. apply IH; [done| | |done].
    + intros j Hj. apply Hsame. by constructor.
    + intros j s Hj. apply Hfresh. by constructor.
  - intros i rest st st' server Hlt Hi Hpos IH Hord Hsame Hfresh HQ.
    apply NoDup_cons in Hord as [Hirest Hord].
    assert (pool0 !! i = Some server) as Hi0
      by (rewrite <- Hsame by constructor; done).
    assert (loopAllocations st !! hostname server = None) as Hnone
      by (apply (Hfresh i); [constructor|done]).
    apply IH; [done| | |by apply Hstep].
    + intros j Hj. unfold takeStep; simpl. rewrite list_lookup_insert_ne.
      * apply Hsame. by constructor.
      * by intros ->.
    + intros j s Hj Hj0. unfold takeStep, assignNumber; simpl.
      case_bool_decide; [apply (Hfresh j); [by constructor|done]|].
      rewrite lookup_insert_ne.
      * apply (Hfresh j); [by constructor|done].
      * intros Heq. apply Hirest.
        by rewrite (NoDup_hostname_inj pool0 i j server s Hnd Hi0 Hj0 Heq).
Qed.

Lemma sortedPool_indices request pool i :
  i ∈ (sortedPool request pool).*1 → is_Some (pool !! i).
Proof.
  rewrite sortedPool_perm, imap_pair_fst, elem_of_seq. intros [_ Hi].
  apply lookup_lt_is_Some. lia.
Qed.

(** Every entry is a positive amount under the name of a server of the
    pool, no more than that server offered. *)
Lemma allocateToModule_entries request pool a k v :
  (allocateToModule request pool).1 = Some a →
  serverAllocations a !! k = Some v →
  0 < v ∧ ∃ s, s ∈ pool ∧ hostname s = k ∧ v <= availableRam s.
Proof.
  unfold allocateToModule.
  pose proof (distribute_visits pool (maxRam request) (sortedPool request pool).*1
    (λ st, ∀ k v, loopAllocations st !! k = Some v →
                  0 < v ∧ ∃ s, s ∈ pool ∧ hostname s = k ∧ v <= availableRam s))
    as Hv.
  specialize (Hv ltac:(
    intros st i server HQ _ Hi0 Hi Hlt Hpos k' v'; unfold takeStep, assignNumber; simpl;
    case_bool_decide; [apply HQ|];
    rewrite lookup_insert; case_decide as Hk;
    [intros [= <-]; split; [lia|]; exists server;
       split; [by eapply list_elem_of_lookup_2|split; [done|lia]]
    |apply HQ])
    (sortedPool request pool).*1 (mkLoop pool ∅ 0) (λ i Hi, Hi)
    (sortedPool_NoDup request pool)).
  simpl in Hv.
  specialize (Hv (λ i _, eq_refl) ltac:(intros k' v'; by rewrite lookup_empty)).
  destruct (_ <? _); simpl; [done|]. intros [= <-]. simpl. apply Hv.
Qed.

(** No allocation has an entry under ["__proto__"]. *)
Lemma allocateToModule_no_proto request pool a :
  (allocateToModule request pool).1 = Some a →
  serverAllocations a !! "__proto__" = None.
Proof.
  unfold allocateToModule.
  pose proof (distribute_visits pool (maxRam request) (sortedPool request pool).*1
    (λ st, loopAllocations st !! "__proto__" = None)) as Hv.
  specialize (Hv ltac:(
    intros st i server HQ _ Hi0 Hi Hlt Hpos; cbv beta in HQ |- *;
    unfold takeStep, assignNumber; simpl;
    case_bool_decide; [done|by rewrite lookup_insert_ne])
    (sortedPool request pool).*1 (mkLoop pool ∅ 0) (λ i Hi, Hi)
    (sortedPool_NoDup request pool)).
  simpl in Hv.
  specialize (Hv (λ i _, eq_refl) (lookup_empty _)).
  destruct (_ <? _); simpl; [done|]. by intros [= <-].
Qed.

Lemma hostname_not_proto (pool : list ServerResource) i s :
  "__proto__" ∉ hostname <$> pool → pool !! i = Some s → hostname s ≠ "__proto__".
Proof.
  intros Hproto Hi Heq. apply Hproto. rewrite <- Heq.
  apply list_elem_of_fmap_2. by eapply list_elem_of_lookup_2.
Qed.

(** On distinct host names, none of them ["__proto__"], the entries add up
    to the total. *)
Lemma allocateToModule_mapSum request pool a :
  NoDup (hostname <$> pool) →
  "__proto__" ∉ hostname <$> pool →
  (allocateToModule request pool).1 = Some a →
  allocatedRam a = mapSum (serverAllocations a).
Proof.
  intros Hnd Hproto. unfold allocateToModule.
  pose proof (distribute_visits_fresh pool (maxRam request)
    (λ st, totalAllocated st = mapSum (loopAllocations st)) Hnd) as Hv.
  specialize (Hv ltac:(
    intros st i server HQ Hi0 Hi Hnone Hlt Hpos; cbv beta in HQ |- *;
    unfold takeStep; simpl;
    rewrite (assignNumber_ne _ _ _ (hostname_not_proto pool i server Hproto Hi0));
    rewrite mapSum_insert_fresh by done; lia)
    (sortedPool request pool).*1 (mkLoop pool ∅ 0) (sortedPool_NoDup request pool)).
  simpl in Hv.
  specialize (Hv (λ i _, eq_refl) ltac:(intros; apply lookup_empty)
                ltac:(by rewrite mapSum_empty)).
  destruct (_ <? _); simpl; [done|]. by intros [= <-].
Qed.

Lemma processRequests_elem_static requests pool a :
  a ∈ (processRequests requests pool).1 →
  ∃ request pool1,
    request ∈ requests
    ∧ static <$> pool1 = static <$> pool
    ∧ (allocateToModule request pool1).1 = Some a.
Proof.
  revert pool. induction requests as [|r requests IH]; intros pool.
  - simpl. by intros ?%elem_of_nil.
  - rewrite processRequests_cons; simpl. intros [Ha|Ha]%elem_of_app.
    + exists r, pool. split; [by constructor|]. split; [done|].
      destruct (allocateToModule r pool).1; simpl in Ha.
      * by apply list_elem_of_singleton in Ha as ->.
      * by apply elem_of_nil in Ha.
    + destruct (IH _ Ha) as (r' & pool1 & Hr' & Hs & Ha').
      exists r', pool1. split; [by constructor|]. split; [|done].
      by rewrite Hs, allocateToModule_static.
Qed.

(** On distinct host names a grant leaves every record debited by its own
    entry. *)
Lemma allocateToModule_debits request pool a :
  NoDup (hostname <$> pool) →
  "__proto__" ∉ hostname <$> pool →
  (allocateToModule request pool).1 = Some a →
  (allocateToModule request pool).2 = afterTake (serverAllocations a) <$> pool.
Proof.
  intros Hnd Hproto. unfold allocateToModule.
  pose proof (distribute_exact pool (maxRam request) (sortedPool request pool).*1
                (mkLoop pool ∅ 0) Hnd Hproto (sortedPool_NoDup request pool)) as Hex.
  simpl in Hex.
  specialize (Hex ltac:(intros; apply lookup_empty)).
  destruct (_ <? _); simpl; [done|]. intros [= <-]. simpl. apply Hex.
  symmetry. erewrite list_fmap_ext; [apply list_fmap_id|].
  intros i s _. unfold afterTake. rewrite entry_empty, Z.sub_0_r.
  apply setAvailableRam_id.
Qed.

Lemma allocateToModule_entry_bounds request pool a i s :
  NoDup (hostname <$> pool) →
  (allocateToModule request pool).1 = Some a →
  pool !! i = Some s →
  0 <= entry (hostname s) (serverAllocations a) <= Z.max 0 (availableRam s).
Proof.
  intros Hnd Ha Hi. unfold entry.
  destruct (serverAllocations a !! hostname s) as [v|] eqn:Hv; simpl; [|lia].
  destruct (allocateToModule_entries _ _ _ _ _ Ha Hv) as (Hpos & s0 & Hs0 & Hname & Hle).
  apply list_elem_of_lookup_1 in Hs0 as [j Hj].
  assert (j = i) as -> by (by eapply NoDup_hostname_inj).
  rewrite Hi in Hj. injection Hj as <-. lia.
Qed.

(** The debits of all the requests served add up, record by record. *)
Lemma processRequests_debits requests pool i s :
  NoDup (hostname <$> pool) →
  "__proto__" ∉ hostname <$> pool →
  pool !! i = Some s →
  ∃ s', (processRequests requests pool).2 !! i = Some s'
        ∧ static s' = static s
        ∧ availableRam s'
          = availableRam s
            - sumZ ((λ a, entry (hostname s) (serverAllocations a))
                      <$> (processRequests requests pool).1)
        ∧ 0 <= sumZ ((λ a, entry (hostname s) (serverAllocations a))
                       <$> (processRequests requests pool).1)
            <= Z.max 0 (availableRam s).
Proof.
  revert pool s. induction requests as [|r requests IH]; intros pool s Hnd Hproto Hi.
  - exists s. simpl. split; [done|]. split; [done|]. lia.
  - rewrite processRequests_cons. cbn [fst snd].
    rewrite fmap_app, sumZ_app.
    destruct (allocateToModule r pool).1 as [a|] eqn:Ha.
    + pose proof (allocateToModule_debits r pool a Hnd Hproto Ha) as Hpool.
      pose proof (allocateToModule_entry_bounds r pool a i s Hnd Ha Hi) as Hb.
      assert (NoDup (hostname <$> (allocateToModule r pool).2)) as Hnd'.
      { by rewrite (static_hostname pool _ (allocateToModule_static r pool)). }
      assert ("__proto__" ∉ hostname <$> (allocateToModule r pool).2) as Hproto'.
      { by rewrite (static_hostname pool _ (allocateToModule_static r pool)). }
      assert ((allocateToModule r pool).2 !! i = Some (afterTake (serverAllocations a) s))
        as Hi' by (by rewrite Hpool, list_lookup_fmap, Hi).
      destruct (IH _ _ Hnd' Hproto' Hi') as (s' & Hs' & Hst & Hav & Hsum).
      exists s'. split; [done|].
      unfold afterTake in Hst, Hav, Hsum. rewrite static_setAvailableRam in Hst.
      destruct s; simpl in *. split; [done|]. lia.
    + rewrite (allocateToModule_rollback r pool Hnd Hproto Ha).
      destruct (IH _ _ Hnd Hproto Hi) as (s' & Hs' & Hst & Hav & Hsum).
      exists s'. simpl. split; [done|]. split; [done|]. lia.
Qed.

Lemma allocateResourcesRun_pool pool requests :
  (allocateResourcesRun pool requests).2
  = (processRequests (sortedRequests requests) pool).2.
Proof.
  unfold allocateResourcesRun. by destruct (processRequests (sortedRequests requests) pool).
Qed.

(** X4 (the entries of an allocation).  Every entry of every allocation that
    [allocateResources] returns is a positive amount filed under the host
    name of a server of the pool, and none is filed under ["__proto__"]:
    what is taken from a server of that name is counted in [allocatedRam]
    and appears in no entry.  With RAM amounts added exactly, on a pool
    whose host names are distinct and none of which is ["__proto__"], the
    entries of an allocation add up to its [allocatedRam]. *)
Theorem X4_entries_of_allocation pool requests a :
  a ∈ allocateResources pool requests →
  (∀ k v, serverAllocations a !! k = Some v →
          0 < v ∧ k ∈ hostname <$> pool ∧ k ≠ "__proto__")
  ∧ (NoDup (hostname <$> pool) →
     "__proto__" ∉ hostname <$> pool →
     allocatedRam a = mapSum (serverAllocations a)).
Proof.
  rewrite allocateResources_processRequests.
  intros (request & pool1 & _ & Hst & Ha)%processRequests_elem_static.
  pose proof (static_hostname _ _ Hst) as Hnames. split.
  - intros k v Hk.
    destruct (allocateToModule_entries _ _ _ _ _ Ha Hk) as (Hpos & s & Hs & Hname & _).
    split; [done|]. split.
    + rewrite <- Hnames, <- Hname. by apply list_elem_of_fmap_2.
    + intros ->. by rewrite (allocateToModule_no_proto _ _ _ Ha) in Hk.
  - intros Hnd Hproto. apply (allocateToModule_mapSum request pool1); [| |done].
    + by rewrite Hnames.
    + by rewrite Hnames.
Qed.

Lemma X4_entries_of_allocation_witness :
  mkAllocation "m1" 120 {[ "n1" := 50; "home" := 70 ]}
    ∈ allocateResources poolHomeN1 [requestM1]
  ∧ NoDup (hostname <$> poolHomeN1)
  ∧ ("__proto__" ∉ hostname <$> poolHomeN1)
  ∧ 120 = mapSum ({[ "n1" := 50; "home" := 70 ]} : gmap string Z).
Proof.
  assert (mkAllocation "m1" 120 {[ "n1" := 50; "home" := 70 ]}
            ∈ allocateResources poolHomeN1 [requestM1]) as Hin
    by (vm_compute; left).
  assert (NoDup (hostname <$> poolHomeN1)) as Hnd
    by (apply (bool_decide_unpack _); vm_compute; exact I).
  assert ("__proto__" ∉ hostname <$> poolHomeN1) as Hproto
    by (apply (bool_decide_unpack _); vm_compute; exact I).
  split; [exact Hin|]. split; [exact Hnd|]. split; [exact Hproto|].
  exact (proj2 (X4_entries_of_allocation poolHomeN1 [requestM1] _ Hin) Hnd Hproto).
Defined.

(** X28 (what a failed request leaves behind).  With RAM amounts added and
    subtracted exactly: a request that gets [null] leaves no host name with
    more usable RAM than it had, and on a pool whose host names are distinct
    and none of which is ["__proto__"] it leaves every record of the working
    pool exactly as it was before the request. *)
Theorem X28_rollback_restores request pool :
  (allocateToModule request pool).1 = None →
  (∀ h, capacityOf h (allocateToModule request pool).2 <= capacityOf h pool)
  ∧ (NoDup (hostname <$> pool) →
     "__proto__" ∉ hostname <$> pool →
     (allocateToModule request pool).2 = pool).
Proof.
  intros Hnone. split.
  - intros h. pose proof (allocateToModule_capacity request pool h) as [_ Hc].
    rewrite Hnone in Hc. simpl in Hc. lia.
  - intros Hnd Hproto. by apply allocateToModule_rollback.
Qed.

Lemma X28_rollback_restores_witness :
  (allocateToModule requestFloor20 poolN1).1 = None
  ∧ NoDup (hostname <$> poolN1)
  ∧ ("__proto__" ∉ hostname <$> poolN1)
  ∧ (allocateToModule requestFloor20 poolN1).2 = poolN1.
Proof.
  assert ((allocateToModule requestFloor20 poolN1).1 = None) as Hnone
    by (vm_compute; reflexivity).
  assert (NoDup (hostname <$> poolN1)) as Hnd
    by (apply (bool_decide_unpack _); vm_compute; exact I).
  assert ("__proto__" ∉ hostname <$> poolN1) as Hproto
    by (apply (bool_decide_unpack _); vm_compute; exact I).
  split; [exact Hnone|]. split; [exact Hnd|]. split; [exact Hproto|].
  exact (proj2 (X28_rollback_restores requestFloor20 poolN1 Hnone) Hnd Hproto).
Defined.

(** A grant out of a server named ["__proto__"]: 10 is handed out, and no
    entry says where it came from. *)
Example proto_grant_scenario :
  allocateResourcesRun poolProto [requestLow]
  = ([ mkAllocation "low" 10 ∅ ], [ mkServer "__proto__" 10 0 0 false false ]).
Proof. vm_compute. reflexivity. Qed.

(** X5 (the books of one server).  With RAM amounts added and subtracted
    exactly, on a pool whose host names are distinct and none of which is
    ["__proto__"], the working pool after [allocateResources] holds, at the
    place of every server, the same server with [availableRam] lowered by
    exactly the sum of its entries over the returned allocations; that sum
    is never negative and never more than the server offered. *)
Theorem X5_server_accounting pool requests i s :
  NoDup (hostname <$> pool) →
  "__proto__" ∉ hostname <$> pool →
  pool !! i = Some s →
  ∃ s', (allocateResourcesRun pool requests).2 !! i = Some s'
        ∧ static s' = static s
        ∧ availableRam s'
          = availableRam s
            - sumZ ((λ a, entry (hostname s) (serverAllocations a))
                      <$> allocateResources pool requests)
        ∧ 0 <= sumZ ((λ a, entry (hostname s) (serverAllocations a))
                       <$> allocateResources pool requests)
            <= Z.max 0 (availableRam s).
Proof.
  intros Hnd Hproto Hi.
  rewrite allocateResourcesRun_pool, allocateResources_processRequests.
  by apply processRequests_debits.
Qed.

Lemma X5_server_accounting_witness :
  NoDup (hostname <$> poolHomeN1)
  ∧ ("__proto__" ∉ hostname <$> poolHomeN1)
  ∧ poolHomeN1 !! 0%nat = Some (mkServer "home" 100 0 100 true false)
  ∧ ∃ s', (allocateResourcesRun poolHomeN1 [requestLow; requestM1]).2 !! 0%nat = Some s'
          ∧ static s' = static (mkServer "home" 100 0 100 true false)
          ∧ availableRam s'
            = 100 - sumZ ((λ a, entry "home" (serverAllocations a))
                           <$> allocateResources poolHomeN1 [requestLow; requestM1])
          ∧ 0 <= sumZ ((λ a, entry "home" (serverAllocations a))
                         <$> allocateResources poolHomeN1 [requestLow; requestM1])
              <= Z.max 0 100.
Proof.
  assert (NoDup (hostname <$> poolHomeN1)) as Hnd
    by (apply (bool_decide_unpack _); vm_compute; exact I).
  assert ("__proto__" ∉ hostname <$> poolHomeN1) as Hproto
    by (apply (bool_decide_unpack _); vm_compute; exact I).
  split; [exact Hnd|]. split; [exact Hproto|]. split; [reflexivity|].
  exact (X5_server_accounting poolHomeN1 [requestLow; requestM1] 0%nat _
           Hnd Hproto eq_refl).
Defined.

(** X6 (nothing but [availableRam] is written).  Whatever the pool and the
    requests, granted or rolled back, the working pool after
    [allocateResources] has the same servers at the same places with the
    same [hostname], [totalRam], [usedRam], [isHome] and [isPurchased]. *)
Theorem X6_only_availableRam_written pool requests :
  static <$> (allocateResourcesRun pool requests).2 = static <$> pool
  ∧ length (allocateResourcesRun pool requests).2 = length pool.
Proof.
  rewrite allocateResourcesRun_pool.
  pose proof (processRequests_static (sortedRequests requests) pool) as Hst.
  split; [done|].
  by rewrite <- (length_fmap static), Hst, length_fmap.
Qed.



Lemma NoDup_fmap_elem_inj {A B : Type} (f : A → B) (l : list A) x y :
  NoDup (f <$> l) → x ∈ l → y ∈ l → f x = f y → x = y.
Proof.
  intros Hnd [i Hi]%list_elem_of_lookup_1 [j Hj]%list_elem_of_lookup_1 Hf.
  assert (i = j) as ->.
  { apply (NoDup_lookup (f <$> l) i j (f x)); [done| |].
    - by rewrite list_lookup_fmap, Hi.
    - by rewrite list_lookup_fmap, Hj, Hf. }
  congruence.
Qed.

(** X8 (the order of submission does not matter between different
    priorities).  When no two requests have the same priority, the result
    of [allocateResources], and the working pool it leaves, depend only on
    which requests were submitted, not on their order in the array. *)
Theorem X8_submission_order_irrelevant pool requests requests' :
  NoDup (priority <$> requests) →
  requests' ≡ₚ requests →
  allocateResourcesRun pool requests' = allocateResourcesRun pool requests.
Proof.
  intros Hnd Hperm.
  assert (sortedRequests requests' = sortedRequests requests) as Heq; [|
    by unfold allocateResourcesRun; rewrite Heq].
  apply (StronglySorted_unique_strong (λ a b, priority b <= priority a)).
  - intros x1 x2 Hx1 Hx2 H12 H21.
    apply (NoDup_fmap_elem_inj priority requests); [done| | |lia].
    + unfold sortedRequests in Hx1. apply js_sort_elem_of in Hx1. by rewrite <- Hperm.
    + unfold sortedRequests in Hx2. by apply js_sort_elem_of in Hx2.
  - apply sortedRequests_sorted.
  - apply sortedRequests_sorted.
  - unfold sortedRequests. by rewrite !js_sort_perm.
Qed.

Lemma X8_submission_order_irrelevant_witness :
  NoDup (priority <$> [requestLow; requestM1])
  ∧ [requestM1; requestLow] ≡ₚ [requestLow; requestM1]
  ∧ allocateResourcesRun poolHomeN1 [requestM1; requestLow]
    = allocateResourcesRun poolHomeN1 [requestLow; requestM1].
Proof.
  assert (NoDup (priority <$> [requestLow; requestM1])) as Hnd
    by (apply (bool_decide_unpack _); vm_compute; exact I).
  assert ([requestM1; requestLow] ≡ₚ [requestLow; requestM1]) as Hperm
    by apply Permutation_swap.
  split; [exact Hnd|]. split; [exact Hperm|].
  exact (X8_submission_order_irrelevant poolHomeN1 _ _ Hnd Hperm).
Defined.

Lemma js_insert_class (p : Z) (x : ResourceRequest) l :
  filter (λ r, priority r = p) (js_insert cmpRequest x l)
  = filter (λ r, priority r = p) (x :: l).
Proof.
  induction l as [|y l IH]; [done|]. simpl.
  destruct (Z.leb_spec (cmpRequest x y) 0) as [_|Hgt]; [done|].
  unfold cmpRequest in Hgt.
  rewrite (filter_cons _ y), IH, !filter_cons.
  destruct (decide (priority x = p)), (decide (priority y = p)); try done. lia.
Qed.

(** X9 (requests of one priority keep their order).  The order in which
    [allocateResources] serves the requests is a stable sort of the
    submitted array: it holds the same requests, in descending priority,
    and the requests of any one priority stand in it in the order in which
    they were submitted. *)
Theorem X9_ties_in_submission_order requests :
  sortedRequests requests ≡ₚ requests
  ∧ StronglySorted (λ a b, priority b <= priority a) (sortedRequests requests)
  ∧ ∀ p, filter (λ r, priority r = p) (sortedRequests requests)
         = filter (λ r, priority r = p) requests.
Proof.
  split; [apply js_sort_perm|]. split; [apply sortedRequests_sorted|].
  intros p. unfold sortedRequests.
  induction requests as [|x l IH]; [done|].
  change (js_sort cmpRequest (x :: l)) with (js_insert cmpRequest x (js_sort cmpRequest l)).
  by rewrite js_insert_class, !filter_cons, IH.
Qed.

(** Two requests of priority 10: the one submitted first is served first
    and takes what the second then misses. *)
Example ties_scenario :
  allocateResources poolN1 [requestTie; mkRequest "late" 10 10 20 None]
  = [ mkAllocation "tie" 10 {[ "n1" := 10 ]} ].
Proof. vm_compute. reflexivity. Qed.

(** *** Preferred servers that suffice *)








(** *** [buildResourcePool] *)

(** The scan files the hosts in the order it discovers them: the records of
    the rooted hosts with RAM among the hosts it has visited. *)
Lemma buildLoop_spec ns reserveHomeRam fuel :
  ∀ visited queue pool result,
    NoDup visited →
    (∀ h, h ∈ visited ++ queue → reachable (scan ns) h) →
    (∀ h n, h ∈ visited → n ∈ scan ns h → n ∈ visited ++ queue) →
    pool = poolRecord ns reserveHomeRam
             <$> filter (λ h, hasRootAccess ns h = true ∧ 0 < getServerMaxRam ns h) visited →
    buildLoop fuel ns reserveHomeRam visited queue pool = Some result →
    ∃ found,
      NoDup found
      ∧ visited `prefix_of` found
      ∧ (∀ h, h ∈ queue → h ∈ found)
      ∧ (∀ h, h ∈ found → reachable (scan ns) h)
      ∧ (∀ h n, h ∈ found → n ∈ scan ns h → n ∈ found)
      ∧ result = poolRecord ns reserveHomeRam
                   <$> filter (λ h, hasRootAccess ns h = true ∧ 0 < getServerMaxRam ns h)
                         found.
Proof.
  induction fuel as [|fuel IH]; intros visited queue pool result Hnd Hreach Hclosed Hpool Hres.
  - destruct queue as [|h rest]; [|done]. simpl in Hres. injection Hres as <-.
    exists visited. split; [done|]. split; [done|]. split; [by intros h ?%elem_of_nil|].
    split; [intros h Hh; apply Hreach; by rewrite app_nil_r|].
    split; [|done]. intros h n Hh Hn. specialize (Hclosed h n Hh Hn).
    by rewrite app_nil_r in Hclosed.
  - destruct queue as [|h rest].
    { simpl in Hres. injection Hres as <-.
      exists visited. split; [done|]. split; [done|]. split; [by intros h ?%elem_of_nil|].
      split; [intros h Hh; apply Hreach; by rewrite app_nil_r|].
      split; [|done]. intros h n Hh Hn. specialize (Hclosed h n Hh Hn).
      by rewrite app_nil_r in Hclosed. }
    simpl in Hres. destruct (decide (h ∈ visited)) as [Hin|Hnin].
    + rewrite (bool_decide_eq_true_2 _ Hin) in Hres.
      destruct (IH visited rest pool result) as (found & H1 & H2 & H3 & H4 & H5 & H6);
        [done| | |done|done|].
      * intros x Hx. apply Hreach. set_solver.
      * intros x n Hx Hn. specialize (Hclosed x n Hx Hn). set_solver.
      * exists found. split; [done|]. split; [done|]. split; [|done].
        intros x [->|Hx]%elem_of_cons; [|by apply H3].
        destruct H2 as [k ->]. set_solver.
    + rewrite (bool_decide_eq_false_2 _ Hnin) in Hres.
      assert (reachable (scan ns) h) as Hh by (apply Hreach; set_solver).
      assert (NoDup (visited ++ [h])) as Hnd'.
      { apply NoDup_app. split; [done|]. split; [|apply NoDup_singleton].
        intros x Hx ->%list_elem_of_singleton. done. }
      assert (∀ x, x ∈ (visited ++ [h])
                         ++ rest ++ filter (λ neighbor, neighbor ∉ visited ++ [h]) (scan ns h) →
                   reachable (scan ns) x) as Hreach'.
      { intros x [[Hx| ->%list_elem_of_singleton]%elem_of_app|[Hx|Hx]%elem_of_app]%elem_of_app.
        - apply Hreach. set_solver.
        - done.
        - apply Hreach. set_solver.
        - apply list_elem_of_filter in Hx as [_ Hx]. by eapply reachable_step. }
      assert (∀ x n, x ∈ visited ++ [h] → n ∈ scan ns x →
                     n ∈ (visited ++ [h])
                           ++ rest ++ filter (λ neighbor, neighbor ∉ visited ++ [h]) (scan ns h))
        as Hclosed'.
      { intros x n [Hx| ->%list_elem_of_singleton]%elem_of_app Hn.
        - specialize (Hclosed x n Hx Hn). set_solver.
        - destruct (decide (n ∈ visited ++ [h])) as [Hv|Hv]; [set_solver|].
          apply elem_of_app. right. apply elem_of_app. right.
          by apply list_elem_of_filter. }
      assert (∀ pool',
                pool' = poolRecord ns reserveHomeRam
                          <$> filter (λ h, hasRootAccess ns h = true
                                           ∧ 0 < getServerMaxRam ns h) (visited ++ [h]) →
                buildLoop fuel ns reserveHomeRam (visited ++ [h])
                  (rest ++ filter (λ neighbor, neighbor ∉ visited ++ [h]) (scan ns h)) pool'
                = Some result →
                ∃ found,
                  NoDup found
                  ∧ visited `prefix_of` found
                  ∧ (∀ x, x ∈ h :: rest → x ∈ found)
                  ∧ (∀ x, x ∈ found → reachable (scan ns) x)
                  ∧ (∀ x n, x ∈ found → n ∈ scan ns x → n ∈ found)
                  ∧ result = poolRecord ns reserveHomeRam
                               <$> filter (λ h, hasRootAccess ns h = true
                                                ∧ 0 < getServerMaxRam ns h) found) as Hnext.
      { intros pool' Hpool' Hres'.
        destruct (IH _ _ _ _ Hnd' Hreach' Hclosed' Hpool' Hres')
          as (found & H1 & H2 & H3 & H4 & H5 & H6).
        exists found. split; [done|]. split; [by eapply prefix_app_l|].
        split; [|done]. intros x [->|Hx]%elem_of_cons.
        - destruct H2 as [k ->]. set_solver.
        - apply H3. set_solver. }
      rewrite filter_app, fmap_app, <- Hpool in Hnext.
      rewrite filter_cons, filter_nil in Hnext.
      destruct (hasRootAccess ns h) eqn:Hroot; simpl in Hres.
      * destruct (Z.ltb_spec 0 (getServerMaxRam ns h)) as [Hram|Hram].
        -- refine (Hnext _ _ Hres). by rewrite decide_True by done.
        -- refine (Hnext _ _ Hres). rewrite decide_False by lia. by rewrite app_nil_r.
      * refine (Hnext _ _ Hres). rewrite decide_False by (by intros [? _]).
        by rewrite app_nil_r.
Qed.

Lemma buildResourcePool_spec fuel ns reserveHomeRam pool :
  buildResourcePool fuel ns reserveHomeRam = Some pool →
  ∃ found,
    NoDup found
    ∧ (∀ h, h ∈ found ↔ reachable (scan ns) h)
    ∧ pool = js_sort (λ a b, availableRam b - availableRam a)
               (poolRecord ns reserveHomeRam
                  <$> filter (λ h, hasRootAccess ns h = true ∧ 0 < getServerMaxRam ns h)
                        found).
Proof.
  unfold buildResourcePool.
  destruct (buildLoop fuel ns reserveHomeRam [] ["home"] []) as [built|] eqn:Hb;
    simpl; [|done].
  intros [= <-].
  destruct (buildLoop_spec ns reserveHomeRam fuel [] ["home"] [] built)
    as (found & H1 & _ & H3 & H4 & H5 & ->); [constructor| | |done|done|].
  { intros h ->%list_elem_of_singleton. constructor. }
  { by intros h n ?%elem_of_nil. }
  exists found. split; [done|]. split; [|done].
  intros h. split; [apply H4|].
  apply reachable_closed; [apply H3; constructor|done].
Qed.

Lemma buildResourcePool_listed fuel ns reserveHomeRam pool :
  buildResourcePool fuel ns reserveHomeRam = Some pool →
  NoDup (hostname <$> pool)
  ∧ ∀ s, s ∈ pool ↔
         ∃ h, reachable (scan ns) h
              ∧ hasRootAccess ns h = true
              ∧ 0 < getServerMaxRam ns h
              ∧ s = poolRecord ns reserveHomeRam h.
Proof.
  intros (found & Hnd & Hfound & ->)%buildResourcePool_spec. split.
  - rewrite js_sort_perm, <- list_fmap_compose.
    erewrite list_fmap_ext; [rewrite list_fmap_id; by apply NoDup_filter|done].
  - intros s. rewrite js_sort_perm, list_elem_of_fmap. split.
    + intros (h & -> & ((Hroot & Hram) & Hh)%list_elem_of_filter).
      exists h. by rewrite <- Hfound.
    + intros (h & Hh & Hroot & Hram & ->). exists h. split; [done|].
      apply list_elem_of_filter. by rewrite Hfound.
Qed.

(** X1 (what goes into the pool).  When [buildResourcePool] returns, the
    pool holds exactly one record for every host that can be reached from
    home, is rooted and has RAM, and no other record: its [availableRam] is
    the free RAM the game reports, less the reserve and not below zero on
    home.  No two records share a host name and the records come by
    descending [availableRam]. *)
Theorem X1_pool_contents fuel ns reserveHomeRam pool :
  buildResourcePool fuel ns reserveHomeRam = Some pool →
  NoDup (hostname <$> pool)
  ∧ (∀ s, s ∈ pool ↔
          ∃ h, reachable (scan ns) h
               ∧ hasRootAccess ns h = true
               ∧ 0 < getServerMaxRam ns h
               ∧ s = poolRecord ns reserveHomeRam h)
  ∧ StronglySorted (λ a b, availableRam b <= availableRam a) pool.
Proof.
  intros Hpool.
  destruct (buildResourcePool_listed _ _ _ _ Hpool) as [Hnd Hin].
  split; [done|]. split; [done|].
  apply buildResourcePool_spec in Hpool as (found & _ & _ & ->).
  eapply StronglySorted_weaken; [|apply js_sort_sorted].
  - intros x y. simpl. lia.
  - intros x y. lia.
  - intros x y z. lia.
Qed.

Lemma X1_pool_contents_witness :
  buildResourcePool 10 nsLine DEFAULT_RESERVE_HOME_RAM
  = Some [ mkServer "n3" 32 0 32 false false;
           mkServer "home" 64 8 24 true false;
           mkServer "n1" 16 0 16 false false ]
  ∧ StronglySorted (λ a b, availableRam b <= availableRam a)
      [ mkServer "n3" 32 0 32 false false;
        mkServer "home" 64 8 24 true false;
        mkServer "n1" 16 0 16 false false ].
Proof.
  assert (buildResourcePool 10 nsLine DEFAULT_RESERVE_HOME_RAM
          = Some [ mkServer "n3" 32 0 32 false false;
                   mkServer "home" 64 8 24 true false;
                   mkServer "n1" 16 0 16 false false ]) as Hpool
    by (vm_compute; reflexivity).
  split; [exact Hpool|].
  exact (proj2 (proj2 (X1_pool_contents 10 nsLine DEFAULT_RESERVE_HOME_RAM _ Hpool))).
Defined.

Lemma buildResourcePool_terminates ns universe fuel reserveHomeRam :
  "home" ∈ universe →
  (∀ h n, h ∈ universe → n ∈ scan ns h → n ∈ universe) →
  (1 + sum_list_with (λ h, length (scan ns h)) universe ≤ fuel)%nat →
  is_Some (buildResourcePool fuel ns reserveHomeRam).
Proof.
  intros Hhome Hclosed Hfuel.
  destruct (buildLoop_terminates ns reserveHomeRam universe Hclosed fuel [] ["home"] [])
    as [built Hbuilt].
  { by intros h ->%list_elem_of_singleton. }
  { rewrite pending_nil. simpl. lia. }
  unfold buildResourcePool. rewrite Hbuilt. by eexists.
Qed.

Lemma allocatedOn_nonneg pool requests h :
  0 <= allocatedOn h (allocateResources pool requests).
Proof.
  rewrite allocateResources_processRequests. apply processRequests_capacity.
Qed.

(** X2 (a whole allocation pass never over-commits a host).  With RAM
    amounts added and subtracted exactly, as integral readings are: on a
    finite network and with fuel for the scan, [performAllocation] returns;
    over the allocations it returns, the entries for any host add up to no
    more than the free RAM the game reports for it (less the reserve on
    home), and to nothing for a host that is out of reach, not rooted or
    without RAM. *)
Theorem X2_pass_within_free_ram ns universe fuel requests reserveHomeRam :
  "home" ∈ universe →
  (∀ h n, h ∈ universe → n ∈ scan ns h → n ∈ universe) →
  (1 + sum_list_with (λ h, length (scan ns h)) universe ≤ fuel)%nat →
  ∃ allocations pool,
    performAllocation fuel ns requests reserveHomeRam = Some (allocations, pool)
    ∧ ∀ h,
        0 <= allocatedOn h allocations
             <= Z.max 0 (availableRam (poolRecord ns reserveHomeRam h))
        ∧ (¬ (reachable (scan ns) h
              ∧ hasRootAccess ns h = true
              ∧ 0 < getServerMaxRam ns h) →
           allocatedOn h allocations = 0).
Proof.
  intros Hhome Hclosed Hfuel.
  destruct (buildResourcePool_terminates ns universe fuel reserveHomeRam
              Hhome Hclosed Hfuel) as [pool Hpool].
  destruct (buildResourcePool_listed _ _ _ _ Hpool) as [Hnd Hin].
  exists (allocateResources pool requests), pool. split.
  { unfold performAllocation. by rewrite Hpool. }
  intros h.
  pose proof (allocatedOn_nonneg pool requests h) as H0.
  pose proof (allocateResources_capacity pool requests h) as Hcap.
  assert (¬ (reachable (scan ns) h ∧ hasRootAccess ns h = true
             ∧ 0 < getServerMaxRam ns h) →
          allocatedOn h (allocateResources pool requests) = 0) as Hout.
  { intros Hno. rewrite capacityOf_absent in Hcap; [lia|].
    intros s Hs Hname. apply Hin in Hs as (h' & Hh' & Hroot & Hram & ->).
    simpl in Hname. subst h'. by apply Hno. }
  split; [|done]. split; [done|].
  destruct (decide (h ∈ hostname <$> pool)) as [Hh|Hh].
  - apply list_elem_of_fmap in Hh as (s & -> & Hs).
    rewrite (capacityOf_unique pool s Hnd Hs) in Hcap.
    apply Hin in Hs as (h' & _ & _ & _ & ->). exact Hcap.
  - rewrite capacityOf_absent in Hcap; [lia|].
    intros s Hs <-. apply Hh. by apply list_elem_of_fmap_2.
Qed.

Lemma X2_pass_within_free_ram_witness :
  ∃ allocations pool,
    performAllocation 10 nsLine [requestM1] DEFAULT_RESERVE_HOME_RAM
    = Some (allocations, pool)
    ∧ ∀ h,
        0 <= allocatedOn h allocations
             <= Z.max 0 (availableRam (poolRecord nsLine DEFAULT_RESERVE_HOME_RAM h))
        ∧ (¬ (reachable (scan nsLine) h
              ∧ hasRootAccess nsLine h = true
              ∧ 0 < getServerMaxRam nsLine h) →
           allocatedOn h allocations = 0).
Proof.
  assert ("home" ∈ ["home"; "n1"; "n2"; "n3"]) as Hhome by constructor.
  assert (∀ h n, h ∈ ["home"; "n1"; "n2"; "n3"] → n ∈ scan nsLine h →
                 n ∈ ["home"; "n1"; "n2"; "n3"]) as Hclosed.
  { intros h n Hh. repeat (apply elem_of_cons in Hh as [->|Hh]);
      [..|by apply elem_of_nil in Hh]; simpl; intros Hn;
      repeat (apply elem_of_cons in Hn as [->|Hn]);
      try (by apply elem_of_nil in Hn);
      apply (bool_decide_unpack _); vm_compute; exact I. }
  assert (1 + sum_list_with (λ h, length (scan nsLine h)) ["home"; "n1"; "n2"; "n3"]
          ≤ 10)%nat as Hfuel by (vm_compute; lia).
  exact (X2_pass_within_free_ram nsLine _ 10%nat [requestM1] DEFAULT_RESERVE_HOME_RAM
           Hhome Hclosed Hfuel).
Defined.

(** On the line home - n1, home - n2 - n3 with n2 not rooted, a request for
    up to 120 GB gets all of n3, n1 and what home has beyond the reserve. *)
Example pass_scenario :
  performAllocation 10 nsLine [requestM1] DEFAULT_RESERVE_HOME_RAM
  = Some ([ mkAllocation "m1" 72 {[ "n3" := 32; "n1" := 16; "home" := 24 ]} ],
          [ mkServer "n3" 32 0 32 false false;
            mkServer "home" 64 8 24 true false;
            mkServer "n1" 16 0 16 false false ]).
Proof. vm_compute. reflexivity. Qed.

(** ** More on the registry *)

Section registry_more.
Import Registry.

(** What a later read finds after a save: the saved table, unless the write
    failed with a registry file on disk. *)
Lemma saveRegistry_read env now modules' t :
  modules (loadRegistry (saveRegistry env now modules').2 t)
  = match registryFile env with
    | Some registry => if writable env then modules' else modules registry
    | None => modules'
    end.
Proof.
  unfold saveRegistry, mutateModules, loadRegistry.
  destruct (registryFile env) as [registry|] eqn:Hf; simpl;
    destruct (writable env); simpl; by rewrite ?Hf.
Qed.

Lemma saveRegistry_result env now modules' :
  (saveRegistry env now modules').1 = writable env.
Proof.
  unfold saveRegistry, mutateModules.
  destruct (registryFile env); simpl; by destruct (writable env).
Qed.

Lemma saveRegistry_read_true env now modules' env' t :
  saveRegistry env now modules' = (true, env') →
  modules (loadRegistry env' t) = modules'.
Proof.
  intros Hsave.
  pose proof (saveRegistry_read env now modules' t) as Hread.
  pose proof (saveRegistry_result env now modules') as Hres.
  rewrite Hsave in Hread, Hres. simpl in *. rewrite <- Hres in Hread.
  by destruct (registryFile env).
Qed.

Lemma loadRegistry_modules_now env now t :
  modules (loadRegistry env now) = modules (loadRegistry env t).
Proof. unfold loadRegistry. by destruct (registryFile env). Qed.

Lemma call_update env now op n :
  isUpdate op = true → target op = Some n →
  call env now op = updateRecord env now n (updated now op).
Proof. destruct op; try done; by intros _ [= <-]. Qed.

(** X11 (an update touches one record).  For a name that a plain object
    does not answer for without holding it: each of [updateModuleStatus],
    [updateModulePID], [updateModuleAllocation] and [updateModulePorts]
    returns [false] and changes nothing when the name is not registered; when
    it returns [true], later reads find the named record with the given
    fields and [lastStatusUpdate] replaced and everything else as it was,
    and find every other name exactly as before. *)
Theorem X11_update_touches_one_record env now op n :
  plainName n →
  isUpdate op = true →
  target op = Some n →
  (getModuleStatus env now n = None → call env now op = (false, env))
  ∧ (∀ m env' t,
       getModuleStatus env now n = Some m →
       call env now op = (true, env') →
       getModuleStatus env' t n = Some (updated now op m)
       ∧ ∀ n', n' ≠ n → getModuleStatus env' t n' = getModuleStatus env now n').
Proof.
  intros _ Hop Hn. rewrite (call_update env now op n Hop Hn).
  unfold updateRecord, getModuleStatus. split.
  - by intros ->.
  - intros m env' t -> Hsave.
    rewrite (saveRegistry_read_true _ _ _ _ t Hsave). split.
    + by rewrite lookup_insert_eq.
    + intros n' Hn'. by rewrite lookup_insert_ne.
Qed.

Lemma X11_update_touches_one_record_witness :
  getModuleStatus
    (call envRegistered 7 (OpUpdateStatus "xp" running)).2 8 "xp"
  = Some (mkModule "xp" "/xp.ts" configA 90 running None 1 2 7 (mkRam 8 0 0)).
Proof.
  assert (getModuleStatus envRegistered 7 "xp"
          = Some (mkModule "xp" "/xp.ts" configA 90 stopped None 1 2 1 (mkRam 8 0 0)))
    as Hm by (vm_compute; reflexivity).
  assert (call envRegistered 7 (OpUpdateStatus "xp" running)
          = (true, (call envRegistered 7 (OpUpdateStatus "xp" running)).2)) as Hcall
    by (vm_compute; reflexivity).
  assert (plainName "xp") as Hplain
    by (apply (bool_decide_unpack _); vm_compute; exact I).
  exact (proj1 (proj2 (X11_update_touches_one_record envRegistered 7
                         (OpUpdateStatus "xp" running) "xp" Hplain eq_refl eq_refl)
                  _ _ 8 Hm Hcall)).
Defined.

(** X12 (unregistering, and undoing a registration).  For a name that a
    plain object does not answer for without holding it: a successful
    [unregisterModule] removes the named record and no other; on a name that
    is not registered it returns [false] and changes nothing.  Registering a
    name that was not registered and unregistering it again leaves every
    name as it was before the two calls. *)
Theorem X12_unregister_removes_one env now n :
  plainName n →
  (getModuleStatus env now n = None → unregisterModule env now n = (false, env))
  ∧ (∀ env' t,
       unregisterModule env now n = (true, env') →
       getModuleStatus env' t n = None
       ∧ ∀ n', n' ≠ n → getModuleStatus env' t n' = getModuleStatus env now n')
  ∧ (∀ t1 sp c p cp stp env1,
       getModuleStatus env now n = None →
       registerModule env t1 n sp c p cp stp = (true, env1) →
       ∃ env2,
         unregisterModule env1 now n = (true, env2)
         ∧ ∀ t n', getModuleStatus env2 t n' = getModuleStatus env now n').
Proof.
  intros _. unfold getModuleStatus. split; [|split].
  - unfold unregisterModule. by intros ->.
  - intros env' t. unfold unregisterModule.
    destruct (modules (loadRegistry env now) !! n) as [m|] eqn:Hm; [|done].
    intros Hsave. rewrite (saveRegistry_read_true _ _ _ _ t Hsave). split.
    + by rewrite lookup_delete_eq.
    + intros n' Hn'. by rewrite lookup_delete_ne.
  - intros t1 sp c p cp stp env1 Hfresh Hreg.
    unfold registerModule in Hreg. destruct c as [cfg|]; [|done].
    pose proof (saveRegistry_result env t1
                  (<[n := mkModule n sp cfg p stopped None cp stp t1
                            (mkRam (orElse (default 0 (minRamRequired cfg)) 0) 0 0)]>
                     (modules (loadRegistry env t1)))) as Hw.
    rewrite Hreg in Hw. simpl in Hw.
    pose proof (saveRegistry_read_true _ _ _ _ now Hreg) as Hread.
    assert (writable env1 = true) as Hw1.
    { unfold saveRegistry, mutateModules in Hreg.
      destruct (registryFile env); simpl in Hreg; rewrite <- Hw in Hreg;
        by injection Hreg as <-. }
    unfold unregisterModule. rewrite Hread, lookup_insert_eq.
    eexists. split.
    + rewrite (surjective_pairing (saveRegistry _ _ _)).
      by rewrite saveRegistry_result, Hw1.
    + intros t n'. rewrite saveRegistry_read.
      assert (delete n (<[n := mkModule n sp cfg p stopped None cp stp t1
                                 (mkRam (orElse (default 0 (minRamRequired cfg)) 0) 0 0)]>
                          (modules (loadRegistry env t1)))
              = modules (loadRegistry env now)) as Hdel.
      { rewrite delete_insert_eq, (loadRegistry_modules_now env t1 now).
        by apply delete_id. }
      rewrite Hw1, Hdel. by destruct (registryFile env1).
Qed.

Lemma X12_unregister_removes_one_witness :
  getModuleStatus (freshEnv 0 true) 3 "xp" = None
  ∧ ∃ env2,
      unregisterModule envRegistered 3 "xp" = (true, env2)
      ∧ ∀ t n', getModuleStatus env2 t n' = getModuleStatus (freshEnv 0 true) 3 n'.
Proof.
  assert (getModuleStatus (freshEnv 0 true) 3 "xp" = None) as Hfresh
    by (vm_compute; reflexivity).
  assert (registerModule (freshEnv 0 true) 1 "xp" "/xp.ts" (Some configA) 90 1 2
          = (true, envRegistered)) as Hreg by (vm_compute; reflexivity).
  assert (plainName "xp") as Hplain
    by (apply (bool_decide_unpack _); vm_compute; exact I).
  split; [exact Hfresh|].
  exact (proj2 (proj2 (X12_unregister_removes_one (freshEnv 0 true) 3 "xp" Hplain))
           1 "/xp.ts" (Some configA) 90 1 2 envRegistered Hfresh Hreg).
Defined.

End registry_more.

Section registry_queries.
Import Registry.

(** X13 (a save that fails).  When the write fails, [registerModule]
    returns [false].  With a registry file on disk nothing has changed; with
    no file, the record was put into the default table that [loadRegistry]
    hands out, so later reads in the same script find the module although
    the call reported failure. *)
Theorem X13_failed_save env now n sp cfg p cp stp :
  writable env = false →
  (registerModule env now n sp (Some cfg) p cp stp).1 = false
  ∧ (is_Some (registryFile env) →
     (registerModule env now n sp (Some cfg) p cp stp).2 = env)
  ∧ (registryFile env = None →
     ∀ t, getModuleStatus (registerModule env now n sp (Some cfg) p cp stp).2 t n
          = Some (newRecord now n sp cfg p cp stp)
          ∧ isModuleRegistered (registerModule env now n sp (Some cfg) p cp stp).2 t n
            = true).
Proof.
  intros Hw. unfold registerModule. split; [|split].
  - by rewrite saveRegistry_result.
  - intros [registry Hf]. unfold saveRegistry, mutateModules. rewrite Hf, Hw. done.
  - intros Hf t. unfold getModuleStatus, isModuleRegistered.
    rewrite saveRegistry_read, Hf, lookup_insert_eq. split; [done|].
    by apply bool_decide_eq_true_2.
Qed.

Lemma X13_failed_save_witness :
  (registerModule (freshEnv 0 false) 1 "xp" "/xp.ts" (Some configA) 90 1 2).1 = false
  ∧ getModuleStatus
      (registerModule (freshEnv 0 false) 1 "xp" "/xp.ts" (Some configA) 90 1 2).2 2 "xp"
    = Some (newRecord 1 "xp" "/xp.ts" configA 90 1 2).
Proof.
  pose proof (X13_failed_save (freshEnv 0 false) 1 "xp" "/xp.ts" configA 90 1 2 eq_refl)
    as (H1 & _ & H3).
  split; [exact H1|]. exact (proj1 (H3 eq_refl 2)).
Defined.

Lemma js_sort_key_class {A : Type} (key : A → Z) (p : Z) (l : list A) :
  filter (λ r, key r = p) (js_sort (λ a b, key b - key a) l)
  = filter (λ r, key r = p) l.
Proof.
  assert (∀ x l', filter (λ r, key r = p) (js_insert (λ a b, key b - key a) x l')
                  = filter (λ r, key r = p) (x :: l')) as Hins.
  { intros x l'. induction l' as [|y l' IH]; [done|]. simpl.
    destruct (Z.leb_spec (key y - key x) 0) as [_|Hgt]; [done|].
    rewrite (filter_cons _ y), IH, !filter_cons.
    destruct (decide (key x = p)), (decide (key y = p)); try done. lia. }
  induction l as [|x l IH]; [done|].
  change (js_sort (λ a b, key b - key a) (x :: l))
    with (js_insert (λ a b, key b - key a) x (js_sort (λ a b, key b - key a) l)).
  by rewrite Hins, !filter_cons, IH.
Qed.

(** X14 (modules by priority).  Whatever the order in which
    [Object.values] lists the registered records, [getModulesByPriority]
    returns every registered record exactly once, highest priority first,
    with the records of one priority in the order of that listing; when
    every record is filed under its own name, as it is after any sequence
    of registry calls on a fresh registry, no two of the returned records
    share a name. *)
Theorem X14_modules_by_priority env now values :
  values ≡ₚ moduleValues env now →
  getModulesByPriority values ≡ₚ moduleValues env now
  ∧ StronglySorted (λ a b, priority b <= priority a) (getModulesByPriority values)
  ∧ (∀ p, filter (λ m, priority m = p) (getModulesByPriority values)
          = filter (λ m, priority m = p) values)
  ∧ (∀ r, r ∈ getModulesByPriority values ↔ ∃ n, getModuleStatus env now n = Some r)
  ∧ (EnvCoherent env → NoDup (Registry.name <$> getModulesByPriority values))
  ∧ (∀ ops t0 w,
       env = calls (freshEnv t0 w) ops →
       NoDup (Registry.name <$> getModulesByPriority values)).
Proof.
  intros Hvalues.
  assert (getModulesByPriority values ≡ₚ moduleValues env now) as Hperm
    by (etrans; [apply js_sort_perm|done]).
  assert (EnvCoherent env → NoDup (Registry.name <$> getModulesByPriority values))
    as Hnd.
  { intros Henv. rewrite Hperm. unfold moduleValues.
    by apply coherent_NoDup_names, loadRegistry_coherent. }
  split; [done|]. split; [|split; [|split; [|split]]].
  - eapply StronglySorted_weaken; [|apply js_sort_sorted].
    + intros x y. simpl. lia.
    + intros x y. lia.
    + intros x y z. lia.
  - intros p. apply (js_sort_key_class priority).
  - intros r. rewrite Hperm. apply moduleValues_elem.
  - done.
  - intros ops t0 w ->. apply Hnd, calls_coherent, freshEnv_coherent.
Qed.

Lemma valuesThree_listed : valuesThree ≡ₚ moduleValues envThree 9.
Proof. apply (bool_decide_unpack _). vm_compute. exact I. Qed.

Lemma X14_modules_by_priority_witness :
  valuesThree ≡ₚ moduleValues envThree 9
  ∧ StronglySorted (λ a b, priority b <= priority a) (getModulesByPriority valuesThree)
  ∧ filter (λ m, priority m = 5) (getModulesByPriority valuesThree)
    = filter (λ m, priority m = 5) valuesThree.
Proof.
  split; [exact valuesThree_listed|].
  pose proof (X14_modules_by_priority envThree 9 valuesThree valuesThree_listed)
    as (_ & Hsorted & Hties & _).
  split; [exact Hsorted|exact (Hties 5)].
Defined.

(** The three modules by priority: ["c"] first, then ["b"] and ["a"] as
    they were registered; and the module found for the PID they share is
    the one registered first. *)
Example three_scenario :
  getModulesByPriority valuesThree = [recordC; recordB; recordA]
  ∧ getModuleByPID valuesThree 7 = Some recordB
  ∧ getModuleByPID valuesThree 8 = None.
Proof. vm_compute. by repeat split. Qed.

Lemma head_filter_first {A : Type} (P : A → Prop) `{!∀ x, Decision (P x)} (l : list A) x :
  head (filter P l) = Some x →
  P x ∧ ∃ before after, l = before ++ x :: after ∧ ∀ y, y ∈ before → ¬ P y.
Proof.
  induction l as [|y l IH]; [done|]. rewrite filter_cons.
  destruct (decide (P y)) as [Hy|Hy].
  - intros [= ->]. split; [done|]. exists [], l. split; [done|].
    by intros ? ?%elem_of_nil.
  - intros Hh. destruct (IH Hh) as (Hx & before & after & -> & Hbefore).
    split; [done|]. exists (y :: before), after. split; [done|].
    intros z [->|Hz]%elem_of_cons; [done|by apply Hbefore].
Qed.

Lemma head_filter_None {A : Type} (P : A → Prop) `{!∀ x, Decision (P x)} (l : list A) :
  head (filter P l) = None ↔ ∀ x, x ∈ l → ¬ P x.
Proof.
  split.
  - intros Hh x Hx HP.
    assert (x ∈ filter P l) as Hin by (by apply list_elem_of_filter).
    destruct (filter P l); [by apply elem_of_nil in Hin|done].
  - intros Hno. destruct (filter P l) as [|y l'] eqn:Hf; [done|].
    assert (y ∈ filter P l) as Hy by (rewrite Hf; constructor).
    apply list_elem_of_filter in Hy as [HP Hy]. by destruct (Hno y Hy).
Qed.

(** X15 (finding a module by its PID).  Whatever the order in which
    [Object.values] lists the registered records, [getModuleByPID] returns
    the first record of that listing with the given PID when there is one,
    and [null] exactly when no registered record has it. *)
Theorem X15_module_by_pid env now values p :
  values ≡ₚ moduleValues env now →
  (∀ m, getModuleByPID values p = Some m →
        pid m = Some p
        ∧ (∃ n, getModuleStatus env now n = Some m)
        ∧ ∃ before after,
            values = before ++ m :: after ∧ ∀ r, r ∈ before → pid r ≠ Some p)
  ∧ (getModuleByPID values p = None ↔
     ∀ n m, getModuleStatus env now n = Some m → pid m ≠ Some p).
Proof.
  intros Hvalues. unfold getModuleByPID. split.
  - intros m Hm.
    destruct (head_filter_first _ _ _ Hm) as (Hp & before & after & Heq & Hbefore).
    split; [done|]. split; [|by exists before, after].
    apply moduleValues_elem. rewrite <- Hvalues, Heq. set_solver.
  - rewrite head_filter_None. split.
    + intros Hno n m Hn. apply Hno. rewrite Hvalues. apply moduleValues_elem. by exists n.
    + intros Hno m Hm. rewrite Hvalues in Hm.
      apply moduleValues_elem in Hm as [n Hn]. by eapply Hno.
Qed.

Lemma X15_module_by_pid_witness :
  valuesThree ≡ₚ moduleValues envThree 9
  ∧ getModuleByPID valuesThree 7 = Some recordB
  ∧ pid recordB = Some 7
  ∧ (∃ n, getModuleStatus envThree 9 n = Some recordB)
  ∧ ∃ before after,
      valuesThree = before ++ recordB :: after ∧ ∀ r, r ∈ before → pid r ≠ Some 7.
Proof.
  assert (getModuleByPID valuesThree 7 = Some recordB) as Hm by (vm_compute; reflexivity).
  split; [exact valuesThree_listed|]. split; [exact Hm|].
  exact (proj1 (X15_module_by_pid envThree 9 valuesThree 7 valuesThree_listed)
           recordB Hm).
Defined.

Lemma foldl_countModule stats l :
  total (foldl countModule stats l) = total stats
  ∧ (∀ s, byStatus (foldl countModule stats l) s
          = byStatus stats s + Z.of_nat (length (filter (λ m, status m = s) l)))
  ∧ totalRamRequested (foldl countModule stats l)
    = totalRamRequested stats + sumZ ((λ m, requested (ramAllocation m)) <$> l)
  ∧ totalRamAllocated (foldl countModule stats l)
    = totalRamAllocated stats + sumZ ((λ m, allocated (ramAllocation m)) <$> l)
  ∧ totalRamActual (foldl countModule stats l)
    = totalRamActual stats + sumZ ((λ m, actual (ramAllocation m)) <$> l).
Proof.
  revert stats. induction l as [|m l IH]; intros stats.
  - simpl. split; [done|]. split; [intros s; lia|]. lia.
  - change (foldl countModule stats (m :: l))
      with (foldl countModule (countModule stats m) l).
    destruct (IH (countModule stats m)) as (H1 & H2 & H3 & H4 & H5).
    rewrite H1, H3, H4, H5, !fmap_cons, !sumZ_cons. simpl.
    split; [done|]. split; [|lia].
    intros s. rewrite H2, filter_cons. simpl.
    destruct (decide (s = status m)) as [->|Hs].
    + rewrite decide_True by done. simpl. lia.
    + rewrite decide_False by done. lia.
Qed.

Lemma length_by_status (l : list RegisteredModule) :
  Z.of_nat (length l)
  = Z.of_nat (length (filter (λ m, status m = stopped) l))
    + Z.of_nat (length (filter (λ m, status m = starting) l))
    + Z.of_nat (length (filter (λ m, status m = running) l))
    + Z.of_nat (length (filter (λ m, status m = paused) l))
    + Z.of_nat (length (filter (λ m, status m = error) l)).
Proof.
  induction l as [|m l IH]; [done|].
  rewrite !filter_cons. destruct (status m); simpl length; lia.
Qed.

Lemma length_running (l : list RegisteredModule) :
  (length (filter (λ m, pid m ≠ None ∧ status m = running) l)
   ≤ length (filter (λ m, status m = running) l))%nat.
Proof.
  induction l as [|m l IH]; [done|].
  rewrite !filter_cons.
  destruct (decide (pid m ≠ None ∧ status m = running)) as [[_ Hs]|Hno].
  - rewrite decide_True by done. simpl. lia.
  - destruct (decide (status m = running)); simpl; lia.
Qed.

(** X16 (the statistics add up).  In [getRegistryStats], [total] is the
    number of registered modules, the count for each status is the number of
    modules [getModulesByStatus] returns for it, the five counts add up to
    [total], and the three RAM figures are the sums over the registered
    records.  [getRunningModules] never returns more modules than the count
    for [running]. *)
Theorem X16_stats_add_up env now :
  let stats := getRegistryStats env now in
  total stats = Z.of_nat (length (moduleValues env now))
  ∧ (∀ s, byStatus stats s = Z.of_nat (length (getModulesByStatus env now s)))
  ∧ byStatus stats stopped + byStatus stats starting + byStatus stats running
    + byStatus stats paused + byStatus stats error = total stats
  ∧ totalRamRequested stats
    = sumZ ((λ m, requested (ramAllocation m)) <$> moduleValues env now)
  ∧ totalRamAllocated stats
    = sumZ ((λ m, allocated (ramAllocation m)) <$> moduleValues env now)
  ∧ totalRamActual stats
    = sumZ ((λ m, actual (ramAllocation m)) <$> moduleValues env now)
  ∧ Z.of_nat (length (getRunningModules env now)) <= byStatus stats running.
Proof.
  simpl. unfold getRegistryStats, getModulesByStatus, getRunningModules.
  destruct (foldl_countModule
              (mkStats (Z.of_nat (length (moduleValues env now))) (λ _, 0) 0 0 0)
              (moduleValues env now)) as (H1 & H2 & H3 & H4 & H5).
  simpl in *. rewrite H1, !H2, H3, H4, H5.
  split; [done|]. split; [done|].
  split; [symmetry; apply length_by_status|].
  split; [done|]. split; [done|]. split; [done|].
  apply inj_le, length_running.
Qed.

(** The registry after a registration, a start and an allocation. *)
Example stats_scenario :
  total (getRegistryStats registeredAndRunning 9) = 1
  ∧ byStatus (getRegistryStats registeredAndRunning 9) running = 1
  ∧ totalRamAllocated (getRegistryStats registeredAndRunning 9) = 64
  ∧ getRunningModules registeredAndRunning 9 = [recordRunning].
Proof. vm_compute. by repeat split. Qed.

End registry_queries.

(** ** More on the network scans *)

Section scan_more.
Import Network.

(** X17 (what the scan finds).  [scanEntireNetwork] returns the hosts that
    can be reached from home along [ns.scan], each once, home first, and the
    same list for any larger fuel.  [getHackableServers] and
    [getPurchasedServers] then return, in the order of the scan, the
    reachable hosts that pass their test. *)
Theorem X17_scan_finds_the_reachable fuel ns result :
  scanEntireNetwork fuel ns = Some result →
  NoDup result
  ∧ (∀ h, h ∈ result ↔ reachable (scan ns) h)
  ∧ head result = Some "home"
  ∧ (∀ fuel', (fuel ≤ fuel')%nat → scanEntireNetwork fuel' ns = Some result)
  ∧ ∃ hackable purchased,
      getHackableServers fuel ns = Some hackable
      ∧ getPurchasedServers fuel ns = Some purchased
      ∧ hackable `sublist_of` result
      ∧ purchased `sublist_of` result
      ∧ (∀ h, h ∈ hackable ↔ reachable (scan ns) h ∧ isHackable ns h = true)
      ∧ (∀ h, h ∈ purchased ↔
              reachable (scan ns) h ∧ purchasedByPlayer (getServer ns h) = true).
Proof.
  intros Hscan.
  destruct (scanEntireNetwork_sound fuel ns result Hscan) as (Hnd & Hin & Hhead).
  split; [done|]. split; [done|]. split; [done|]. split.
  { intros fuel' Hle. unfold scanEntireNetwork in *. by eapply scanLoop_fuel_mono. }
  unfold getHackableServers, getPurchasedServers. rewrite Hscan. simpl.
  eexists _, _. split; [done|]. split; [done|].
  split; [apply sublist_filter|]. split; [apply sublist_filter|].
  split; intros h; rewrite list_elem_of_filter, Hin; tauto.
Qed.

Lemma X17_scan_finds_the_reachable_witness :
  scanEntireNetwork 10 nsABC = Some ["home"; "B"; "C"]
  ∧ ∀ h, h ∈ ["home"; "B"; "C"] ↔ reachable (scan nsABC) h.
Proof.
  assert (scanEntireNetwork 10 nsABC = Some ["home"; "B"; "C"]) as Hscan
    by (vm_compute; reflexivity).
  split; [exact Hscan|].
  exact (proj1 (proj2 (X17_scan_finds_the_reachable 10 nsABC _ Hscan))).
Defined.

(** X18 (only gains are reported).  When every host the scan finds was
    already in the old state, every rooted or purchased one among them was
    already listed as such, and no more hosts are hackable than the old
    state lists, [detectNetworkChanges] reports no change at all, whatever
    the old state holds beyond that: hosts that disappeared or lost root
    are never reported. *)
Theorem X18_only_gains_reported fuel ns current oldState :
  scanEntireNetwork fuel ns = Some current →
  (∀ h, h ∈ current → h ∈ allServers oldState) →
  (∀ h, h ∈ current → hasRootAccess ns h = true → h ∈ rootedServers oldState) →
  (∀ h, h ∈ current → purchasedByPlayer (getServer ns h) = true →
        h ∈ purchasedServers oldState) →
  (length (filter (λ h, isHackable ns h = true) current)
   ≤ length (hackableServers oldState))%nat →
  detectNetworkChanges fuel ns (Some oldState) = Some (mkChanges [] [] [] false 0).
Proof.
  intros Hscan Hall Hroot Hpurch Hhack.
  unfold detectNetworkChanges, getPurchasedServers, getHackableServers.
  rewrite Hscan. simpl.
  assert (∀ (P : string → Prop) `{!∀ h, Decision (P h)} (l : list string),
            (∀ h, h ∈ l → ¬ P h) → filter P l = []) as Hnone.
  { intros P ? l Hl. apply (head_filter_None P l) in Hl. by destruct (filter P l). }
  unfold notIn.
  rewrite (Hnone (λ h, h ∉ allServers oldState) _ current).
  2: { intros h Hh Hno. apply Hno. by apply Hall. }
  rewrite (Hnone (λ h, h ∉ rootedServers oldState) _
             (filter (λ h, hasRootAccess ns h = true) current)).
  2: { intros h [Hr Hh]%list_elem_of_filter Hno. apply Hno. by apply Hroot. }
  rewrite (Hnone (λ h, h ∉ purchasedServers oldState) _
             (filter (λ h, purchasedByPlayer (getServer ns h) = true) current)).
  2: { intros h [Hp Hh]%list_elem_of_filter Hno. apply Hno. by apply Hpurch. }
  rewrite bool_decide_eq_false_2 by lia. done.
Qed.

Lemma X18_only_gains_reported_witness :
  detectNetworkChanges 10 nsABC
    (Some (mkState ["home"; "B"; "C"; "gone"] ["home"; "B"; "C"] [] [] 0 0))
  = Some (mkChanges [] [] [] false 0).
Proof.
  assert (scanEntireNetwork 10 nsABC = Some ["home"; "B"; "C"]) as Hscan
    by (vm_compute; reflexivity).
  apply (X18_only_gains_reported 10 nsABC ["home"; "B"; "C"] _ Hscan).
  - intros h Hh. simpl. set_solver.
  - intros h Hh _. simpl. set_solver.
  - intros h Hh Hp. simpl in Hp. discriminate.
  - vm_compute. lia.
Defined.

End scan_more.

Section two_scanners.
Import Network.

Lemma scanNetworkLoop_sound (scan : string → list string) fuel :
  ∀ servers scanQueue result,
    NoDup servers →
    (∀ h, h ∈ servers ++ scanQueue → reachable scan h) →
    (∀ h n, h ∈ servers → n ∈ scan h → n ∈ servers ++ scanQueue) →
    Utils.scanNetworkLoop fuel scan servers scanQueue = Some result →
    NoDup result
    ∧ servers `prefix_of` result
    ∧ (∀ h, h ∈ scanQueue → h ∈ result)
    ∧ (∀ h, h ∈ result → reachable scan h)
    ∧ (∀ h n, h ∈ result → n ∈ scan h → n ∈ result).
Proof.
  induction fuel as [|fuel IH]; intros servers queue result Hnd Hreach Hclosed Hres.
  - destruct queue; simpl in Hres; [|done]. simplify_eq.
    split; [done|]. split; [done|]. split; [by intros h ?%elem_of_nil|].
    split.
    + intros h Hh. apply Hreach. by rewrite app_nil_r.
    + intros h n Hh Hn. specialize (Hclosed h n Hh Hn). by rewrite app_nil_r in Hclosed.
  - destruct queue as [|current rest]; simpl in Hres.
    { simplify_eq. split; [done|]. split; [done|]. split; [by intros h ?%elem_of_nil|].
      split.
      - intros h Hh. apply Hreach. by rewrite app_nil_r.
      - intros h n Hh Hn. specialize (Hclosed h n Hh Hn).
        by rewrite app_nil_r in Hclosed. }
    case_bool_decide as Hcur.
    + destruct (IH servers rest result Hnd) as (H1 & H2 & H3 & H4 & H5); [| |done|].
      * intros h Hh. apply Hreach. set_solver.
      * intros h n Hh Hn. specialize (Hclosed h n Hh Hn). set_solver.
      * split; [done|]. split; [done|]. split; [|done].
        intros h [->|Hh]%elem_of_cons; [|by apply H3].
        destruct H2 as [k ->]. set_solver.
    + assert (reachable scan current) as Hc by (apply Hreach; set_solver).
      destruct (IH (servers ++ [current]) (reverse (scan current) ++ rest) result)
        as (H1 & H2 & H3 & H4 & H5); [| | |done|].
      * apply NoDup_app. split; [done|]. split; [|apply NoDup_singleton].
        intros h Hh ->%list_elem_of_singleton. done.
      * intros h Hh. rewrite !elem_of_app, list_elem_of_singleton, elem_of_reverse in Hh.
        destruct Hh as [[Hh| ->]|[Hh|Hh]].
        -- apply Hreach. set_solver.
        -- done.
        -- by eapply reachable_step.
        -- apply Hreach. set_solver.
      * intros h n Hh Hn. rewrite elem_of_app, list_elem_of_singleton in Hh.
        rewrite !elem_of_app, elem_of_reverse, list_elem_of_singleton.
        destruct Hh as [Hh| ->]; [|tauto].
        specialize (Hclosed h n Hh Hn).
        rewrite elem_of_app, elem_of_cons in Hclosed. tauto.
      * split; [done|]. split; [|split; [|done]].
        -- etrans; [|exact H2]. by apply prefix_app_r.
        -- intros h [->|Hh]%elem_of_cons; [|apply H3; set_solver].
           destruct H2 as [k ->]. set_solver.
Qed.

Lemma scanNetworkLoop_terminates (scan : string → list string) universe :
  (∀ h n, h ∈ universe → n ∈ scan h → n ∈ universe) →
  ∀ fuel servers scanQueue,
    (∀ h, h ∈ scanQueue → h ∈ universe) →
    (length scanQueue + pending scan universe servers ≤ fuel)%nat →
    is_Some (Utils.scanNetworkLoop fuel scan servers scanQueue).
Proof.
  intros Hclosed fuel.
  induction fuel as [|fuel IH]; intros servers queue Hq Hfuel.
  - destruct queue; simpl in *; [eauto|lia].
  - destruct queue as [|h rest]; simpl; [eauto|].
    case_bool_decide as Hd.
    + apply IH; [intros x Hx; apply Hq; by constructor|]. simpl in Hfuel. lia.
    + assert (h ∈ universe) as Hcur by (apply Hq; by constructor).
      apply IH.
      * intros x [Hx|Hx]%elem_of_app;
          [rewrite elem_of_reverse in Hx; exact (Hclosed h x Hcur Hx)|].
        apply Hq. by constructor.
      * pose proof (pending_discover scan universe servers h Hcur Hd).
        rewrite length_app, length_reverse. simpl in Hfuel. lia.
Qed.

Lemma scanNetwork_sound (scan : string → list string) fuel servers :
  Utils.scanNetwork fuel scan = Some servers →
  NoDup servers ∧ (∀ h, h ∈ servers ↔ reachable scan h) ∧ head servers = Some "home".
Proof.
  intros Hres. unfold Utils.scanNetwork in Hres.
  destruct (scanNetworkLoop_sound scan fuel [] ["home"] servers)
    as (H1 & _ & H3 & H4 & H5); [constructor| | |done|].
  { intros h ->%list_elem_of_singleton. constructor. }
  { by intros h n ?%elem_of_nil. }
  split; [done|]. split.
  - intros h. split; [apply H4|].
    apply reachable_closed; [apply H3; constructor|done].
  - destruct fuel as [|fuel]; [done|]. simpl in Hres.
    destruct (scanNetworkLoop_sound scan fuel ["home"] (reverse (scan "home") ++ []) servers)
      as (_ & [k ->] & _); [apply NoDup_singleton| | |done|done].
    + intros h [->%list_elem_of_singleton|Hh]%elem_of_app; [constructor|].
      rewrite app_nil_r, elem_of_reverse in Hh.
      eapply reachable_step; [constructor|done].
    + intros h n ->%list_elem_of_singleton Hn.
      rewrite !elem_of_app, elem_of_reverse. tauto.
Qed.

(** X19 (the two scanners agree).  [scanNetwork] of [ns-utils], which walks
    the network depth first, and [scanEntireNetwork], which walks it breadth
    first, both start with home and return the same hosts, each once, though
    not in the same order; so [getRootedServers] holds the rooted hosts that
    [scanEntireNetwork] finds.  On a finite network [scanNetwork] returns
    with the fuel that pays for one visit per host and per neighbour. *)
Theorem X19_two_scanners_agree fuel fuel' ns servers result :
  Utils.scanNetwork fuel (scan ns) = Some servers →
  scanEntireNetwork fuel' ns = Some result →
  servers ≡ₚ result
  ∧ head servers = head result
  ∧ (∃ rooted,
       Utils.getRootedServers fuel (scan ns) (hasRootAccess ns) = Some rooted
       ∧ rooted ≡ₚ filter (λ h, hasRootAccess ns h = true) result)
  ∧ (∀ universe,
       "home" ∈ universe →
       (∀ h n, h ∈ universe → n ∈ scan ns h → n ∈ universe) →
       ∀ fuel'',
         (1 + sum_list_with (λ h, length (scan ns h)) universe ≤ fuel'')%nat →
         is_Some (Utils.scanNetwork fuel'' (scan ns))).
Proof.
  intros Hdfs Hbfs.
  destruct (scanNetwork_sound _ _ _ Hdfs) as (Hnd1 & Hin1 & Hhead1).
  destruct (scanEntireNetwork_sound _ _ _ Hbfs) as (Hnd2 & Hin2 & Hhead2).
  assert (servers ≡ₚ result) as Hperm.
  { apply NoDup_Permutation; [done|done|]. intros h. by rewrite Hin1, Hin2. }
  split; [done|]. split; [by rewrite Hhead1, Hhead2|]. split.
  - unfold Utils.getRootedServers. rewrite Hdfs. simpl.
    eexists. split; [done|]. by rewrite Hperm.
  - intros universe Hhome Hclosed fuel'' Hfuel.
    apply (scanNetworkLoop_terminates (scan ns) universe Hclosed).
    + by intros h ->%list_elem_of_singleton.
    + rewrite pending_nil. simpl. lia.
Qed.

Lemma X19_two_scanners_agree_witness :
  Utils.scanNetwork 10 (scan nsABC) = Some ["home"; "B"; "C"]
  ∧ ["home"; "B"; "C"] ≡ₚ ["home"; "B"; "C"].
Proof.
  assert (Utils.scanNetwork 10 (scan nsABC) = Some ["home"; "B"; "C"]) as Hdfs
    by (vm_compute; reflexivity).
  assert (scanEntireNetwork 10 nsABC = Some ["home"; "B"; "C"]) as Hbfs
    by (vm_compute; reflexivity).
  split; [exact Hdfs|].
  exact (proj1 (X19_two_scanners_agree 10 10 nsABC _ _ Hdfs Hbfs)).
Defined.

(** On a triangle the two walks differ in order: depth first takes the
    neighbour that was pushed last. *)
Example triangle_scenario :
  Utils.scanNetwork 10 Utils.scanTriangle = Some ["home"; "b"; "a"]
  ∧ scanEntireNetwork 10 (mkNS Utils.scanTriangle (λ _, true)
                            (λ _, mkServer false None None) 1)
    = Some ["home"; "a"; "b"].
Proof. by vm_compute. Qed.

End two_scanners.

(** ** More on the ports *)

Section mailbox_more.
Import Mailbox.
Context {D : Type} (capacity : nat) (validPort : Z → bool) (isNull : D → bool).

Lemma portQueue_insert_ne (ports : gmap Z (list (MessageData D))) port p q :
  p ≠ port → portQueue (<[port := q]> ports) p = portQueue ports p.
Proof. intros Hp. unfold portQueue. by rewrite lookup_insert_ne. Qed.

Lemma collectLoop_drains port :
  validPort port = true →
  ∀ fuel (ports : gmap Z (list (MessageData D))) messages,
    (length (portQueue ports port) ≤ fuel)%nat →
    ∃ ports',
      collectLoop validPort isNull fuel ports port messages
      = Some (messages ++ filter (λ d, isNull d = false) (data <$> portQueue ports port),
              ports')
      ∧ portQueue ports' port = []
      ∧ ∀ p, p ≠ port → portQueue ports' p = portQueue ports p.
Proof.
  intros Hvalid fuel.
  induction fuel as [|fuel IH]; intros ports messages Hlen.
  - destruct (portQueue ports port) as [|m q] eqn:Hq; [|simpl in Hlen; lia].
    exists ports. simpl. unfold hasMessages, empty. rewrite Hvalid, Hq. simpl.
    by rewrite app_nil_r.
  - destruct (portQueue ports port) as [|m q] eqn:Hq.
    + exists ports. simpl. unfold hasMessages, empty. rewrite Hvalid, Hq. simpl.
      by rewrite app_nil_r.
    + simpl. unfold hasMessages, empty, receiveMessage. rewrite Hvalid, Hq. simpl.
      destruct (IH (<[port := q]> ports)
                  (if isNull (data m) then messages else messages ++ [data m]))
        as (ports' & Hres & Hempty & Hother).
      { rewrite portQueue_insert. simpl in Hlen. lia. }
      exists ports'. rewrite Hres, portQueue_insert. split; [|split; [done|]].
      * rewrite filter_cons. destruct (isNull (data m)) eqn:Hnull.
        -- by rewrite decide_False by done.
        -- rewrite decide_True by done. by rewrite <- app_assoc.
      * intros p Hp. rewrite Hother by done. by apply portQueue_insert_ne.
Qed.

(** X20 (collecting empties the port).  With fuel for the messages that
    wait, [collectStatusMessages] returns the [data] of every waiting message
    that is not [null], oldest first, leaves the port empty and touches no
    other port.  On a port number that [ns.getPortHandle] rejects it
    returns the empty list. *)
Theorem X20_collect_drains (ports : gmap Z (list (MessageData D))) port fuel :
  (validPort port = true →
   (length (portQueue ports port) ≤ fuel)%nat →
   ∃ ports',
     collectStatusMessages validPort isNull fuel ports port
     = Some (filter (λ d, isNull d = false) (data <$> portQueue ports port), ports')
     ∧ hasMessages validPort ports' port = false
     ∧ portQueue ports' port = []
     ∧ ∀ p, p ≠ port → portQueue ports' p = portQueue ports p)
  ∧ (validPort port = false →
     collectStatusMessages validPort isNull fuel ports port = Some ([], ports)).
Proof.
  split.
  - intros Hvalid Hlen.
    destruct (collectLoop_drains port Hvalid fuel ports [] Hlen)
      as (ports' & Hres & Hempty & Hother).
    exists ports'. split; [done|]. split; [|done].
    unfold hasMessages, empty. by rewrite Hvalid, Hempty.
  - intros Hinvalid. unfold collectStatusMessages.
    destruct fuel; simpl; unfold hasMessages; by rewrite Hinvalid.
Qed.

Lemma sendAll_snoc (ports : gmap Z (list (MessageData D))) port messages m :
  sendAll capacity validPort ports port (messages ++ [m])
  = (sendMessage capacity validPort (sendAll capacity validPort ports port messages)
       m.1 port m.2).2.
Proof. unfold sendAll. by rewrite foldl_app. Qed.

Lemma sendAll_queue (ports : gmap Z (list (MessageData D))) port messages :
  validPort port = true →
  (0 < capacity)%nat →
  (length (portQueue ports port) ≤ capacity)%nat →
  portQueue (sendAll capacity validPort ports port messages) port
    `suffix_of` portQueue ports port ++ ((λ m, mkMessage m.1 m.2) <$> messages)
  ∧ (length (portQueue (sendAll capacity validPort ports port messages) port)
     ≤ capacity)%nat
  ∧ ((length (portQueue ports port) + length messages ≤ capacity)%nat →
     portQueue (sendAll capacity validPort ports port messages) port
     = portQueue ports port ++ ((λ m, mkMessage m.1 m.2) <$> messages))
  ∧ (messages ≠ [] →
     last (portQueue (sendAll capacity validPort ports port messages) port)
     = last ((λ m, mkMessage m.1 m.2) <$> messages)).
Proof.
  intros Hvalid Hcap Hlen.
  induction messages as [|m messages IH] using rev_ind.
  - simpl. rewrite app_nil_r. split; [done|]. split; [done|]. split; [done|]. done.
  - destruct IH as (Hsuf & Hle & Hall & _).
    destruct (sendMessage_queue capacity validPort
                (sendAll capacity validPort ports port messages) m.1 port m.2
                Hvalid Hcap Hle) as [_ Hq].
    rewrite sendAll_snoc, Hq, fmap_app, app_assoc. simpl.
    unfold full.
    destruct (decide (length (portQueue (sendAll capacity validPort ports port messages)
                                port) = capacity)) as [Hfull|Hfull].
    + rewrite (bool_decide_eq_true_2 _ Hfull). simpl.
      split; [apply suffix_app_r; done|]. split; [lia|]. split.
      * rewrite length_app. simpl. intros Hfit.
        rewrite Hall in Hfull by lia. rewrite length_app, length_fmap in Hfull. lia.
      * intros _. by rewrite last_snoc.
    + rewrite (bool_decide_eq_false_2 _ Hfull).
      split; [by apply suffix_app|]. split; [rewrite length_app; simpl; lia|]. split.
      * rewrite length_app. simpl. intros Hfit. rewrite Hall by lia. done.
      * intros _. by rewrite !last_snoc.
Qed.

(** X21 (what a series of sends leaves).  After any series of
    [sendMessage] calls to a port, the port holds a final stretch of what it
    held before followed by the messages sent, in that order, never more
    than its capacity, and the newest message is the last one in it.  While
    the capacity is not exceeded nothing is lost, and
    [collectStatusMessages] then returns every message that is not [null] in
    the order in which it was sent. *)
Theorem X21_sends_then_collect (ports : gmap Z (list (MessageData D))) port messages :
  validPort port = true →
  (0 < capacity)%nat →
  (length (portQueue ports port) ≤ capacity)%nat →
  let after := sendAll capacity validPort ports port messages in
  portQueue after port
    `suffix_of` portQueue ports port ++ ((λ m, mkMessage m.1 m.2) <$> messages)
  ∧ (length (portQueue after port) ≤ capacity)%nat
  ∧ (messages ≠ [] →
     last (portQueue after port) = last ((λ m, mkMessage m.1 m.2) <$> messages))
  ∧ ((length (portQueue ports port) + length messages ≤ capacity)%nat →
     ∃ ports',
       collectStatusMessages validPort isNull capacity after port
       = Some (filter (λ d, isNull d = false)
                 ((data <$> portQueue ports port) ++ messages.*2), ports')).
Proof.
  intros Hvalid Hcap Hlen. simpl.
  destruct (sendAll_queue ports port messages Hvalid Hcap Hlen)
    as (Hsuf & Hle & Hall & Hlast).
  split; [done|]. split; [done|]. split; [done|].
  intros Hfit.
  destruct (collectLoop_drains port Hvalid capacity
              (sendAll capacity validPort ports port messages) [] Hle)
    as (ports' & Hres & _).
  exists ports'. unfold collectStatusMessages. rewrite Hres, Hall by done.
  simpl. rewrite fmap_app, <- list_fmap_compose. reflexivity.
Qed.

End mailbox_more.

Section mailbox_more_witnesses.
Import Mailbox.

Lemma X20_collect_drains_witness :
  ∃ ports',
    collectStatusMessages fromOne (λ _, false) 3 sentThird 1
    = Some (filter (λ d, false = false) (data <$> portQueue sentThird 1), ports')
    ∧ hasMessages fromOne ports' 1 = false
    ∧ portQueue ports' 1 = []
    ∧ ∀ p, p ≠ 1 → portQueue ports' p = portQueue sentThird p.
Proof.
  apply (proj1 (X20_collect_drains fromOne (λ _, false) sentThird 1 3)).
  - reflexivity.
  - vm_compute. lia.
Defined.

Lemma X21_sends_then_collect_witness :
  ∃ ports',
    collectStatusMessages fromOne isNone 3
      (sendAll 3 fromOne noMessagesYet 1 threeMessages) 1
    = Some (filter (λ d, isNone d = false)
              ((data <$> portQueue noMessagesYet 1) ++ threeMessages.*2),
            ports').
Proof.
  assert (fromOne 1 = true) as Hvalid by reflexivity.
  assert (0 < 3)%nat as Hcap by lia.
  assert (length (portQueue noMessagesYet 1) ≤ 3)%nat as Hlen by (vm_compute; lia).
  assert (length (portQueue noMessagesYet 1) + length threeMessages ≤ 3)%nat as Hfit
    by (vm_compute; lia).
  exact (proj2 (proj2 (proj2 (X21_sends_then_collect 3 fromOne isNone noMessagesYet 1
                                threeMessages Hvalid Hcap Hlen))) Hfit).
Defined.

(** Three sends to an empty port of capacity 3, the second one of [null]:
    the collector sees the first and the third.  With capacity 2 the third
    send finds the port full and clears it, and only ["c"] is left. *)
Example collect_scenario :
  fst <$> collectStatusMessages fromOne isNone 3
            (sendAll 3 fromOne noMessagesYet 1 threeMessages) 1
  = Some [Some "a"; Some "c"]
  ∧ fst <$> collectStatusMessages fromOne isNone 3
              (sendAll 2 fromOne noMessagesYet 1 threeMessages) 1
    = Some [Some "c"].
Proof. by vm_compute. Qed.

End mailbox_more_witnesses.

(** ** Log files *)

Section log_facts.
Context {E : Type}.

Lemma appendEntry_spec (logs : list E) entry maxEntries :
  Utils.appendEntry logs entry maxEntries `suffix_of` logs ++ [entry]
  ∧ Z.of_nat (length (Utils.appendEntry logs entry maxEntries))
    = Z.min (Z.of_nat (length logs) + 1) (Z.max 0 maxEntries)
  ∧ (0 < maxEntries → last (Utils.appendEntry logs entry maxEntries) = Some entry).
Proof.
  unfold Utils.appendEntry.
  destruct (Z.ltb_spec maxEntries (Z.of_nat (length (logs ++ [entry])))) as [Hlt|Hge].
  - rewrite length_app in Hlt. simpl in Hlt. split; [apply suffix_drop|]. split.
    + rewrite length_drop, !length_app. simpl. lia.
    + intros Hpos. rewrite length_app. simpl.
      replace (Z.to_nat (Z.of_nat (length logs + 1) - maxEntries))
        with (length logs + 1 - Z.to_nat maxEntries)%nat by lia.
      rewrite drop_app_le by lia. by rewrite last_snoc.
  - rewrite length_app in Hge |- *. simpl in *. split; [done|]. split; [lia|].
    intros _. by rewrite last_snoc.
Qed.

(** X22 (a log file stays bounded).  After [appendToLogFile], the file
    holds a final stretch of its old entries followed by the new entry, at
    most [maxEntries] entries in all, and, when [maxEntries] is positive,
    the new entry is the last one; no other file is touched.  Reading the
    file back with [readComponentLogs] and a positive count returns its
    last entries, ending with the new one.  When the write fails nothing
    changes. *)
Theorem X22_log_stays_bounded (files : gmap string (list E)) logFile entry maxEntries :
  let before := default [] (files !! logFile) in
  let files' := Utils.appendToLogFile files true logFile entry maxEntries in
  let after := default [] (files' !! logFile) in
  after `suffix_of` before ++ [entry]
  ∧ Z.of_nat (length after) = Z.min (Z.of_nat (length before) + 1) (Z.max 0 maxEntries)
  ∧ (∀ f, f ≠ logFile → files' !! f = files !! f)
  ∧ (0 < maxEntries →
     last after = Some entry
     ∧ ∀ n, 0 < n → last (Utils.readComponentLogs files' logFile n) = Some entry)
  ∧ Utils.appendToLogFile files false logFile entry maxEntries = files.
Proof.
  simpl. unfold Utils.appendToLogFile, Utils.readComponentLogs.
  rewrite lookup_insert_eq. simpl.
  destruct (appendEntry_spec (default [] (files !! logFile)) entry maxEntries)
    as (Hsuf & Hlen & Hlast).
  split; [done|]. split; [done|].
  split; [intros f Hf; by rewrite lookup_insert_ne|]. split; [|done].
  intros Hpos. specialize (Hlast Hpos). split; [done|].
  intros n Hn. unfold Utils.sliceFrom.
  apply last_Some in Hlast as [l' Hl']. rewrite Hl'.
  destruct (Z.ltb_spec (- n) 0) as [_|?]; [|lia].
  rewrite length_app. simpl.
  rewrite drop_app_le by lia. by rewrite last_snoc.
Qed.

(** X23 (how many entries are read back).  [readComponentLogs] returns a
    final stretch of the log.  With a positive [maxEntries] it is the last
    [maxEntries] entries, or the whole log if that is shorter.  With
    [maxEntries] of [0] it is the whole log, not the empty list, and with a
    negative [maxEntries] it is the log without its first [-maxEntries]
    entries. *)
Theorem X23_entries_read_back (files : gmap string (list E)) file maxEntries :
  let logs := default [] (files !! file) in
  Utils.readComponentLogs files file maxEntries `suffix_of` logs
  ∧ (0 < maxEntries →
     Z.of_nat (length (Utils.readComponentLogs files file maxEntries))
     = Z.min maxEntries (Z.of_nat (length logs)))
  ∧ (maxEntries = 0 → Utils.readComponentLogs files file maxEntries = logs)
  ∧ (maxEntries < 0 →
     Utils.readComponentLogs files file maxEntries = drop (Z.to_nat (- maxEntries)) logs).
Proof.
  simpl. unfold Utils.readComponentLogs, Utils.sliceFrom.
  split; [apply suffix_drop|]. split; [|split].
  - intros Hpos. destruct (Z.ltb_spec (- maxEntries) 0) as [_|?]; [|lia].
    rewrite length_drop. lia.
  - intros ->. simpl. by rewrite Z.min_l by lia.
  - intros Hneg. destruct (Z.ltb_spec (- maxEntries) 0) as [?|_]; [lia|].
    destruct (Z.le_gt_cases (- maxEntries) (Z.of_nat (length (default [] (files !! file)))))
      as [Hle|Hgt].
    + by rewrite Z.min_l by lia.
    + rewrite Z.min_r by lia. rewrite Nat2Z.id.
      rewrite drop_all. symmetry. apply drop_ge. lia.
Qed.


End log_facts.

Lemma X22_log_stays_bounded_witness :
  last (default [] (Utils.appendToLogFile
                      ({[ "/daemon-log.txt" := ["a"; "b"; "c"] ]} : gmap string (list string))
                      true "/daemon-log.txt" "d" 3 !! "/daemon-log.txt"))
  = Some "d".
Proof.
  apply (proj1 (proj2 (proj2 (proj2 (X22_log_stays_bounded
                                       ({[ "/daemon-log.txt" := ["a"; "b"; "c"] ]}
                                        : gmap string (list string))
                                       "/daemon-log.txt" "d" 3))))).
  reflexivity.
Defined.

Lemma X23_entries_read_back_witness :
  Utils.readComponentLogs
    ({[ "/logs/daemon.txt" := ["a"; "b"; "c"] ]} : gmap string (list string))
    "/logs/daemon.txt" 0
  = ["a"; "b"; "c"].
Proof.
  exact (proj1 (proj2 (proj2 (X23_entries_read_back
                                ({[ "/logs/daemon.txt" := ["a"; "b"; "c"] ]}
                                 : gmap string (list string))
                                "/logs/daemon.txt" 0))) eq_refl).
Defined.

(** ** Registering the built-in modules *)

Section daemon_facts.
Import Registry Daemon.

Lemma saveRegistry_writable env now modules' :
  writable (saveRegistry env now modules').2 = writable env.
Proof.
  unfold saveRegistry, mutateModules.
  destruct (registryFile env); simpl; by destruct (writable env) eqn:Hw.
Qed.

Lemma saveRegistry_read_writable env now modules' t :
  writable env = true →
  modules (loadRegistry (saveRegistry env now modules').2 t) = modules'.
Proof.
  intros Hw. rewrite saveRegistry_read, Hw. by destruct (registryFile env).
Qed.

Lemma registerBuiltIn_spec env now module :
  writable env = true →
  writable (registerBuiltIn env now module) = true
  ∧ ∀ t,
      modules (loadRegistry (registerBuiltIn env now module) t)
      = <[builtinName module :=
            builtInRecord now module (getModuleStatus env now (builtinName module))]>
          (modules (loadRegistry env now)).
Proof.
  intros Hw. unfold registerBuiltIn, isModuleRegistered, getModuleStatus.
  destruct (modules (loadRegistry env now) !! builtinName module) as [m|] eqn:Hm.
  - rewrite bool_decide_eq_true_2 by done. simpl.
    unfold updateModulePorts, updateRecord. rewrite Hm.
    split; [by rewrite saveRegistry_writable|].
    intros t. by rewrite saveRegistry_read_writable.
  - rewrite bool_decide_eq_false_2 by (by intros [? ?]). simpl.
    unfold registerModule, updateModulePorts, updateRecord.
    rewrite saveRegistry_read_writable, lookup_insert_eq by done.
    split; [by rewrite !saveRegistry_writable|].
    intros t. rewrite saveRegistry_read_writable by (by rewrite saveRegistry_writable).
    by rewrite insert_insert_eq.
Qed.

(** X24 (built-in modules keep their state).  With a registry that can be
    written and built-in modules of distinct names,
    [registerBuiltInModules] leaves every built-in module registered with
    its built-in ports: a module that was not registered gets a new record,
    while one that was registered keeps its script path, configuration,
    priority, status, PID and RAM figures, and only its ports and
    [lastStatusUpdate] are replaced.  Modules that are not built in are
    left as they were. *)
Theorem X24_builtins_keep_state env builtins :
  writable env = true →
  NoDup ((λ m, builtinName m.2) <$> builtins) →
  (∀ now module t,
     (now, module) ∈ builtins →
     getModuleStatus (registerBuiltInModules env builtins) t (builtinName module)
     = Some (builtInRecord now module (getModuleStatus env t (builtinName module))))
  ∧ (∀ n t,
       n ∉ (λ m, builtinName m.2) <$> builtins →
       getModuleStatus (registerBuiltInModules env builtins) t n
       = getModuleStatus env t n).
Proof.
  revert env. induction builtins as [|[now1 b1] builtins IH]; intros env Hw Hnd.
  - split; [by intros ??? ?%elem_of_nil|done].
  - rewrite fmap_cons in Hnd. apply NoDup_cons in Hnd as [Hfresh Hnd]. simpl in Hfresh.
    destruct (registerBuiltIn_spec env now1 b1 Hw) as [Hw1 Hread].
    destruct (IH (registerBuiltIn env now1 b1) Hw1 Hnd) as [IHin IHout].
    change (registerBuiltInModules env ((now1, b1) :: builtins))
      with (registerBuiltInModules (registerBuiltIn env now1 b1) builtins).
    split.
    + intros now module t [[= -> ->]|Hin]%elem_of_cons.
      * rewrite IHout by done. unfold getModuleStatus at 1.
        rewrite Hread, lookup_insert_eq. unfold getModuleStatus.
        by rewrite (loadRegistry_modules_now env now1 t).
      * rewrite (IHin now module t Hin). do 2 f_equal.
        unfold getModuleStatus. rewrite Hread, lookup_insert_ne.
        -- by rewrite (loadRegistry_modules_now env now1 t).
        -- intros Heq. apply Hfresh. rewrite Heq.
           by apply (list_elem_of_fmap_2 (λ m : Z * BuiltinModule, builtinName m.2)
                       builtins (now, module)).
    + intros n t Hn. rewrite fmap_cons, not_elem_of_cons in Hn. destruct Hn as [Hn1 Hn].
      rewrite (IHout n t Hn). unfold getModuleStatus.
      rewrite Hread, lookup_insert_ne by done.
      by rewrite (loadRegistry_modules_now env now1 t).
Qed.

Lemma X24_builtins_keep_state_witness :
  getModuleStatus
    (registerBuiltInModules registeredAndRunning [(9, xpRevised); (9, xpFarmer)]) 9 "xp"
  = Some (builtInRecord 9 xpRevised (getModuleStatus registeredAndRunning 9 "xp")).
Proof.
  assert (writable registeredAndRunning = true) as Hw by reflexivity.
  assert (NoDup ((λ m : Z * BuiltinModule, builtinName m.2)
                   <$> [(9, xpRevised); (9, xpFarmer)])) as Hnd
    by (apply (bool_decide_unpack _); vm_compute; exact I).
  apply (proj1 (X24_builtins_keep_state registeredAndRunning
                  [(9, xpRevised); (9, xpFarmer)] Hw Hnd) 9 xpRevised 9).
  constructor.
Defined.

(** The module that was running keeps its script, priority, configuration,
    status, PID and RAM figures; the built-in one that was missing is new. *)
Example builtins_scenario :
  getModuleStatus
    (registerBuiltInModules registeredAndRunning [(9, xpRevised); (9, xpFarmer)]) 9 "xp"
  = Some (mkModule "xp" "/xp.ts" configA 90 running (Some 42) 10 30 9 (mkRam 8 64 60))
  ∧ getModuleStatus
      (registerBuiltInModules registeredAndRunning [(9, xpRevised); (9, xpFarmer)]) 9
      "xp-farmer"
    = Some (mkModule "xp-farmer" "/modules/xp-farmer.ts" (mkConfig (Some 4) "{...}") 80
              stopped None 10 30 9 (mkRam 4 0 0)).
Proof. by vm_compute. Qed.

End daemon_facts.

(** ** Network capabilities *)

Section capabilities.
Import Network.

Lemma foldl_countServer ns (getMax getUsed : string → Z) l totals :
  foldl (countServer ns getMax getUsed) totals l
  = (totals.1.1 + sumZ (getMax <$> l),
     totals.1.2 + sumZ (getUsed <$> l),
     totals.2 + Z.of_nat (length (filter (λ h, isHackable ns h = true) l))).
Proof.
  revert totals. induction l as [|h l IH]; intros [[m u] k].
  - simpl. rewrite !pair_equal_spec. lia.
  - change (foldl (countServer ns getMax getUsed) (m, u, k) (h :: l))
      with (foldl (countServer ns getMax getUsed)
              (m + getMax h, u + getUsed h, if isHackable ns h then k + 1 else k) l).
    rewrite IH, !fmap_cons, !sumZ_cons, filter_cons. simpl.
    destruct (isHackable ns h) eqn:Hh.
    + rewrite decide_True by done. simpl. rewrite !pair_equal_spec. lia.
    + rewrite decide_False by done. rewrite !pair_equal_spec. lia.
Qed.

Lemma foldl_total (f : string → Z) l total :
  foldl (λ totalRam hostname, totalRam + f hostname) total l = total + sumZ (f <$> l).
Proof.
  revert total. induction l as [|h l IH]; intros total; [simpl; lia|].
  change (foldl (λ totalRam hostname, totalRam + f hostname) total (h :: l))
    with (foldl (λ totalRam hostname, totalRam + f hostname) (total + f h) l).
  rewrite IH, fmap_cons, sumZ_cons. lia.
Qed.

Lemma sumZ_fmap_sub (f g : string → Z) l :
  sumZ (f <$> l) - sumZ (g <$> l) = sumZ ((λ h, f h - g h) <$> l).
Proof.
  induction l as [|h l IH]; [done|].
  rewrite !fmap_cons, !sumZ_cons. lia.
Qed.

(** X25 (the capabilities add up).  In the result of
    [calculateNetworkCapabilities], [serverCount] is the number of hosts the
    scan finds, [rootedCount] the number of rooted ones among them, and
    [hackableCount] the number of hosts that are rooted and hackable, so it
    never exceeds [rootedCount] nor the number of hosts that
    [getHackableServers] returns, which counts unrooted hosts too.  With RAM
    amounts added exactly, [totalRamAvailable] is [totalMaxRam -
    totalUsedRam], the sum of the free RAM of the rooted hosts, and it is
    the figure that [getTotalAvailableRam] of [ns-utils] computes along its
    own scan. *)
Theorem X25_capabilities_add_up fuel ns (getMax getUsed : string → Z) result :
  scanEntireNetwork fuel ns = Some result →
  ∃ c hackable,
    calculateNetworkCapabilities fuel ns getMax getUsed = Some c
    ∧ getHackableServers fuel ns = Some hackable
    ∧ serverCount c = length result
    ∧ rootedCount c = length (filter (λ h, hasRootAccess ns h = true) result)
    ∧ hackableCount c
      = Z.of_nat (length (filter (λ h, hasRootAccess ns h = true ∧ isHackable ns h = true)
                            result))
    ∧ 0 <= hackableCount c <= Z.of_nat (rootedCount c)
    ∧ (rootedCount c ≤ serverCount c)%nat
    ∧ hackableCount c <= Z.of_nat (length hackable)
    ∧ capRamAvailable c = totalMaxRam c - totalUsedRam c
    ∧ capRamAvailable c
      = sumZ ((λ h, getMax h - getUsed h)
                <$> filter (λ h, hasRootAccess ns h = true) result)
    ∧ ∀ fuel' total,
        Utils.getTotalAvailableRam fuel' (scan ns) (hasRootAccess ns) getMax getUsed
        = Some total →
        total = capRamAvailable c.
Proof.
  intros Hscan.
  unfold calculateNetworkCapabilities, getHackableServers. rewrite Hscan. simpl.
  rewrite foldl_countServer. simpl. eexists _, _.
  split; [done|]. split; [done|]. simpl.
  set (rooted := filter (λ h, hasRootAccess ns h = true) result).
  assert (filter (λ h, isHackable ns h = true) rooted
          = filter (λ h, hasRootAccess ns h = true ∧ isHackable ns h = true) result)
    as Hboth.
  { unfold rooted. rewrite list_filter_filter. apply list_filter_iff. tauto. }
  assert (sumZ (getMax <$> rooted) - sumZ (getUsed <$> rooted)
          = sumZ ((λ h, getMax h - getUsed h) <$> rooted)) as Hsum.
  { apply sumZ_fmap_sub. }
  split; [done|]. split; [done|]. split; [by rewrite Hboth|].
  split; [pose proof (length_filter (λ h, isHackable ns h = true) rooted); lia|].
  split; [apply length_filter|]. split.
  { rewrite Hboth. apply inj_le.
    rewrite <- (list_filter_filter (λ h, hasRootAccess ns h = true)
                  (λ h, isHackable ns h = true) result).
    apply length_filter. }
  split; [done|]. split; [lia|].
  intros fuel' total. unfold Utils.getTotalAvailableRam, Utils.getRootedServers.
  destruct (Utils.scanNetwork fuel' (scan ns)) as [servers|] eqn:Hdfs; simpl; [|done].
  intros [= <-]. rewrite foldl_total.
  destruct (scanNetwork_sound _ _ _ Hdfs) as (Hnd1 & Hin1 & _).
  destruct (scanEntireNetwork_sound _ _ _ Hscan) as (Hnd2 & Hin2 & _).
  assert (servers ≡ₚ result) as Hperm.
  { apply NoDup_Permutation; [done|done|]. intros h. by rewrite Hin1, Hin2. }
  rewrite (sumZ_perm _ ((λ h, getMax h - getUsed h) <$> rooted)).
  - lia.
  - unfold rooted. by rewrite Hperm.
Qed.

Lemma X25_capabilities_add_up_witness :
  ∃ c hackable,
    calculateNetworkCapabilities 10 nsABC (λ _, 8) (λ _, 2) = Some c
    ∧ getHackableServers 10 nsABC = Some hackable
    ∧ serverCount c = length ["home"; "B"; "C"]
    ∧ rootedCount c = length (filter (λ h, hasRootAccess nsABC h = true) ["home"; "B"; "C"])
    ∧ hackableCount c
      = Z.of_nat (length (filter (λ h, hasRootAccess nsABC h = true
                                       ∧ isHackable nsABC h = true)
                            ["home"; "B"; "C"]))
    ∧ 0 <= hackableCount c <= Z.of_nat (rootedCount c)
    ∧ (rootedCount c ≤ serverCount c)%nat
    ∧ hackableCount c <= Z.of_nat (length hackable)
    ∧ capRamAvailable c = totalMaxRam c - totalUsedRam c
    ∧ capRamAvailable c
      = sumZ ((λ h, 8 - 2)
                <$> filter (λ h, hasRootAccess nsABC h = true) ["home"; "B"; "C"])
    ∧ ∀ fuel' total,
        Utils.getTotalAvailableRam fuel' (scan nsABC) (hasRootAccess nsABC)
          (λ _, 8) (λ _, 2) = Some total →
        total = capRamAvailable c.
Proof.
  apply (X25_capabilities_add_up 10 nsABC (λ _, 8) (λ _, 2) ["home"; "B"; "C"]).
  vm_compute. reflexivity.
Defined.

End capabilities.
